(** * IntelliFleet backend: route selection, vehicle assignment, plan building

    A shallow embedding of the route and capacity engine of the backend
    ([optimizer.py], [capacity_optimizer.py], and the [upload] and
    [optimize_with_capacity] handlers of [main.py]) together with the
    properties its specification states about it.

    Conventions of the embedding.
    - Python floats are idealised as exact rationals ([Q], compared with
      [==]); [round(x, 2)] is rounding to the nearest hundredth, ties to the
      even neighbour.  Python rounds the double nearest to the decimal, so
      on a decimal that lies halfway between two hundredths (2.675) or whose
      double does, its result can be the other neighbour (2.67).  Statements
      about rounded values therefore use only what holds of both: the
      result is a number of hundredths within 0.005 of the argument, it is
      monotone, it keeps the sign, and it leaves a number of hundredths as
      it is.
    - [datetime] values are bounded ([PyTime.representable]); a call that
      raises is [Raises], a call that returns [v] is [Returns v].
    - A Python [dict] is an association list that keeps insertion order and
      holds one entry per key ([Dict]).
    - The PuLP/CBC solver is an external program.  The LP models the code
      builds are embedded term by term ([Lp.LpProblem]); the solver itself is
      a parameter [solve], constrained only by what an exact 0/1 solver
      guarantees ([Lp.sound], [Lp.complete]).  [Lp.enumerate_solve] is a
      reference solver by exhaustive enumeration that meets both.
    - Names are ASCII strings. *)

From Stdlib Require Import ZArith QArith Qround Qminmax List String Ascii Bool.
From Stdlib Require Import Lia Lqa Permutation Sorted DecimalString DecimalNat.
Import ListNotations.

Set Implicit Arguments.

(* ------------------------------------------------------------------ *)
(** * Numbers *)

Module PyNum.

Open Scope Q_scope.

(** Nearest integer, ties to even (Python 3 [round]). *)
Definition round_half_even (q : Q) : Z :=
  let f := Qfloor q in
  match Qcompare (q - inject_Z f) (1 # 2) with
  | Lt => f
  | Gt => (f + 1)%Z
  | Eq => if Z.even f then f else (f + 1)%Z
  end.

(** [round(x, 2)] on the exact rational; see the conventions above for how
    Python's rounding of a double can differ at a tie. *)
Definition round2 (q : Q) : Q := inject_Z (round_half_even (q * 100)) / 100.

(** [a > b] on floats. *)
Definition Qgtb (a b : Q) : bool := negb (Qle_bool a b).

(** Python's [min(a, b)]: the first argument unless the second is smaller. *)
Definition py_min (a b : Q) : Q := if Qgtb a b then b else a.

Definition Qsum (l : list Q) : Q := fold_right Qplus 0 l.

Lemma Qgtb_true a b : Qgtb a b = true <-> b < a.
Proof.
  unfold Qgtb. rewrite negb_true_iff. split; intro H.
  - apply Qnot_le_lt. intro L. apply Qle_bool_iff in L. congruence.
  - destruct (Qle_bool a b) eqn:E; [|reflexivity].
    apply Qle_bool_iff in E. exfalso. apply (Qlt_not_le _ _ H E).
Qed.

Lemma Qgtb_false a b : Qgtb a b = false <-> a <= b.
Proof.
  unfold Qgtb. rewrite negb_false_iff. apply Qle_bool_iff.
Qed.

Lemma py_min_cases a b :
  (b < a /\ py_min a b = b) \/ (a <= b /\ py_min a b = a).
Proof.
  unfold py_min. destruct (Qgtb a b) eqn:E.
  - left. split; [now apply Qgtb_true|reflexivity].
  - right. split; [now apply Qgtb_false|reflexivity].
Qed.

Lemma py_min_Qmin a b : py_min a b == Qmin a b.
Proof.
  destruct (py_min_cases a b) as [[H ->]|[H ->]].
  - symmetry. apply Q.min_r. apply Qlt_le_weak. exact H.
  - symmetry. apply Q.min_l. exact H.
Qed.

Lemma Qsum_app l1 l2 : Qsum (l1 ++ l2) == Qsum l1 + Qsum l2.
Proof.
  induction l1 as [|a l1 IH]; simpl.
  - lra.
  - rewrite IH. lra.
Qed.

Lemma round_half_even_inject (z : Z) : round_half_even (inject_Z z) = z.
Proof.
  unfold round_half_even. rewrite Qfloor_Z.
  assert (E : inject_Z z - inject_Z z == 0) by lra.
  assert (C : Qcompare (inject_Z z - inject_Z z) (1 # 2) = Lt).
  { apply (proj1 (Qlt_alt _ _)). rewrite E. reflexivity. }
  now rewrite C.
Qed.

(** A value with at most two decimals is left alone by [round2]. *)
Lemma round2_hundredths (z : Z) : round2 (inject_Z z / 100) == inject_Z z / 100.
Proof.
  unfold round2.
  assert (E : inject_Z z / 100 * 100 == inject_Z z) by (field).
  assert (R : round_half_even (inject_Z z / 100 * 100) = z).
  { unfold round_half_even.
    assert (F : Qfloor (inject_Z z / 100 * 100) = z).
    { rewrite E. apply Qfloor_Z. }
    rewrite F.
    assert (C : Qcompare (inject_Z z / 100 * 100 - inject_Z z) (1 # 2) = Lt).
    { apply (proj1 (Qlt_alt _ _)). rewrite E. lra. }
    now rewrite C. }
  rewrite R. reflexivity.
Qed.

Lemma round_half_even_comp q q' : q == q' -> round_half_even q = round_half_even q'.
Proof.
  intro E. unfold round_half_even.
  assert (F : Qfloor q = Qfloor q') by now rewrite E.
  rewrite F.
  assert (C : Qcompare (q - inject_Z (Qfloor q')) (1 # 2)
              = Qcompare (q' - inject_Z (Qfloor q')) (1 # 2)) by now rewrite E.
  now rewrite C.
Qed.

Lemma round2_comp q q' : q == q' -> round2 q == round2 q'.
Proof.
  intro E. unfold round2.
  assert (R : round_half_even (q * 100) = round_half_even (q' * 100)).
  { apply round_half_even_comp. now rewrite E. }
  now rewrite R.
Qed.

(** A number of hundredths: at most two decimals. *)
Definition hundredths (q : Q) : Prop := exists z : Z, q == inject_Z z / 100.

Lemma round2_fixes_hundredths q : hundredths q -> round2 q == q.
Proof.
  intros [z E]. rewrite (round2_comp E), E. apply round2_hundredths.
Qed.

Lemma hundredths_minus a b : hundredths a -> hundredths b -> hundredths (a - b).
Proof.
  intros [x Ex] [y Ey]. exists (x - y)%Z.
  rewrite Ex, Ey. unfold Z.sub. rewrite inject_Z_plus, inject_Z_opp. field.
Qed.

End PyNum.

(* ------------------------------------------------------------------ *)
(** * Strings and clock times *)

Module PyStr.

Open Scope string_scope.

(** [str.lower] on an ASCII character. *)
Definition lower_ascii (c : ascii) : ascii :=
  let n := nat_of_ascii c in
  if ((65 <=? n) && (n <=? 90))%nat then ascii_of_nat (n + 32) else c.

Fixpoint lower (s : string) : string :=
  match s with
  | EmptyString => EmptyString
  | String c t => String (lower_ascii c) (lower t)
  end.

(** The ASCII characters [str.strip] removes. *)
Definition is_space (c : ascii) : bool :=
  let n := nat_of_ascii c in
  ((n =? 32) || ((9 <=? n) && (n <=? 13)) || ((28 <=? n) && (n <=? 31)))%nat.

Fixpoint lstrip (s : string) : string :=
  match s with
  | EmptyString => EmptyString
  | String c t => if is_space c then lstrip t else s
  end.

Fixpoint rstrip (s : string) : string :=
  match s with
  | EmptyString => EmptyString
  | String c t =>
      match rstrip t with
      | EmptyString => if is_space c then EmptyString else String c EmptyString
      | t' => String c t'
      end
  end.

Definition strip (s : string) : string := rstrip (lstrip s).

(** Equality of [(from, to)] keys. *)
Definition pair_eqb (a b : string * string) : bool :=
  (fst a =? fst b) && (snd a =? snd b).

Lemma pair_eqb_eq a b : pair_eqb a b = true <-> a = b.
Proof.
  destruct a as [a1 a2], b as [b1 b2]. unfold pair_eqb. simpl.
  rewrite andb_true_iff, !String.eqb_eq. split.
  - intros [-> ->]. reflexivity.
  - intros E. inversion E. split; reflexivity.
Qed.

Lemma pair_eqb_refl a : pair_eqb a a = true.
Proof. now apply pair_eqb_eq. Qed.

End PyStr.

Module PyTime.

Open Scope Z_scope.

(** A [datetime] is counted in microseconds from 1900-01-01 00:00, the date
    [strptime] supplies when the format has only clock fields; a
    [timedelta] is a number of microseconds. *)
Definition datetime := Z.

Definition us_per_minute : Z := 60000000.
Definition us_per_hour : Z := 3600000000.
Definition us_per_day : Z := 86400000000.

Definition digit (c : ascii) : option Z :=
  let n := nat_of_ascii c in
  if ((48 <=? n) && (n <=? 57))%nat then Some (Z.of_nat n - 48) else None.

(** The directive [%H], as the pattern [2[0-3]|[0-1]\d|\d] followed by more
    of the format: two digits when they make an hour, one digit otherwise. *)
Definition parse_H (s : string) : option (Z * string) :=
  match s with
  | EmptyString => None
  | String a rest =>
      match digit a with
      | None => None
      | Some x =>
          match rest with
          | EmptyString => Some (x, rest)
          | String b r =>
              match digit b with
              | Some y => if 10 * x + y <=? 23 then Some (10 * x + y, r) else None
              | None => Some (x, rest)
              end
          end
      end
  end.

(** The directive [%M] at the end of the format, [[0-5]\d|\d]. *)
Definition parse_M (s : string) : option (Z * string) :=
  match s with
  | EmptyString => None
  | String a rest =>
      match digit a with
      | None => None
      | Some x =>
          match rest with
          | EmptyString => Some (x, rest)
          | String b r =>
              match digit b with
              | Some y => if x <=? 5 then Some (10 * x + y, r) else Some (x, rest)
              | None => Some (x, rest)
              end
          end
      end
  end.

(** [datetime.strptime(s, "%H:%M")]; [None] stands for [ValueError]. *)
Definition strptime_HM (s : string) : option datetime :=
  match parse_H s with
  | Some (h, String ":" r) =>
      match parse_M r with
      | Some (m, EmptyString) => Some (h * us_per_hour + m * us_per_minute)
      | _ => None
      end
  | _ => None
  end.

(** [timedelta(hours=t)], to the nearest microsecond. *)
Definition timedelta_hours (t : Q) : Z :=
  PyNum.round_half_even (t * inject_Z us_per_hour)%Q.

(** [datetime.min] is 0001-01-01 00:00 and [datetime.max] is 9999-12-31
    23:59:59.999999: 693595 days before and 2958463 days after 1900-01-01.
    Arithmetic that leaves this range raises [OverflowError]. *)
Definition datetime_min : datetime := - (693595 * us_per_day).
Definition datetime_max : datetime := 2958464 * us_per_day - 1.

Definition representable (t : datetime) : bool :=
  (datetime_min <=? t) && (t <=? datetime_max).

Definition digit_char (d : Z) : ascii := ascii_of_nat (48 + Z.to_nat d).

Definition two_digits (n : Z) : string :=
  String (digit_char (n / 10)) (String (digit_char (n mod 10)) EmptyString).

Definition hour_of (t : datetime) : Z := (t / us_per_hour) mod 24.
Definition minute_of (t : datetime) : Z := (t / us_per_minute) mod 60.

(** [t.strftime("%H:%M")]. *)
Definition strftime_HM (t : datetime) : string :=
  (two_digits (hour_of t) ++ ":" ++ two_digits (minute_of t))%string.

(** The clock reading does not see the date. *)
Lemma strftime_HM_wraps (t : datetime) :
  strftime_HM t = strftime_HM (t mod us_per_day).
Proof.
  unfold strftime_HM, hour_of, minute_of.
  assert (H : (t mod us_per_day / us_per_hour) mod 24 = (t / us_per_hour) mod 24).
  { unfold us_per_day, us_per_hour.
    pose proof (Z.div_mod t 86400000000 ltac:(lia)) as E.
    pose proof (Z.mod_pos_bound t 86400000000 ltac:(lia)) as B.
    set (q := t / 86400000000) in *. set (r := t mod 86400000000) in *.
    rewrite E.
    replace (86400000000 * q + r) with (r + (24 * q) * 3600000000) by lia.
    rewrite Z.div_add by lia.
    replace (r / 3600000000 + 24 * q) with (r / 3600000000 + q * 24) by lia.
    now rewrite Z.mod_add by lia. }
  assert (M : (t mod us_per_day / us_per_minute) mod 60 = (t / us_per_minute) mod 60).
  { unfold us_per_day, us_per_minute.
    pose proof (Z.div_mod t 86400000000 ltac:(lia)) as E.
    set (q := t / 86400000000) in *. set (r := t mod 86400000000) in *.
    rewrite E.
    replace (86400000000 * q + r) with (r + (1440 * q) * 60000000) by lia.
    rewrite Z.div_add by lia.
    replace (r / 60000000 + 1440 * q) with (r / 60000000 + (24 * q) * 60) by lia.
    now rewrite Z.mod_add by lia. }
  now rewrite H, M.
Qed.

Example strptime_0800 : strptime_HM "08:00" = Some (8 * us_per_hour).
Proof. reflexivity. Qed.

Example strptime_single_digits : strptime_HM "7:5" = Some (7 * us_per_hour + 5 * us_per_minute).
Proof. reflexivity. Qed.

Example strptime_rejects : strptime_HM "24:00" = None /\ strptime_HM "08:00:00" = None
                           /\ strptime_HM "8am" = None.
Proof. repeat split. Qed.

Example strftime_next_day : strftime_HM (25 * us_per_hour + 30 * us_per_minute) = "01:30"%string.
Proof. reflexivity. Qed.

End PyTime.

(* ------------------------------------------------------------------ *)
(** * Dictionaries *)

Module Dict.

Section Def.

Variables K V : Type.
Variable eqb : K -> K -> bool.

Definition t := list (K * V).

(** [d.get(k)] *)
Fixpoint get (d : t) (k : K) : option V :=
  match d with
  | [] => None
  | (k', v) :: r => if eqb k' k then Some v else get r k
  end.

(** [k in d] *)
Definition mem (d : t) (k : K) : bool :=
  match get d k with Some _ => true | None => false end.

(** [d[k] = v]: an existing key keeps its place, a new one goes last. *)
Fixpoint set (d : t) (k : K) (v : V) : t :=
  match d with
  | [] => [(k, v)]
  | (k', v') :: r => if eqb k' k then (k', v) :: r else (k', v') :: set r k v
  end.

Definition keys (d : t) : list K := map fst d.
Definition values (d : t) : list V := map snd d.

(** One entry per key. *)
Definition wf (d : t) : Prop := NoDup (keys d).

Hypothesis eqb_eq : forall a b, eqb a b = true <-> a = b.

Lemma eqb_refl a : eqb a a = true.
Proof. now apply eqb_eq. Qed.

Lemma eqb_neq a b : a <> b -> eqb a b = false.
Proof.
  intro N. destruct (eqb a b) eqn:E; [|reflexivity].
  apply eqb_eq in E. contradiction.
Qed.

Lemma get_set_same d k v : get (set d k v) k = Some v.
Proof.
  induction d as [|[k' v'] r IH]; simpl.
  - now rewrite eqb_refl.
  - destruct (eqb k' k) eqn:E; simpl; now rewrite E.
Qed.

Lemma get_set_other d k v k' : k <> k' -> get (set d k v) k' = get d k'.
Proof.
  intro N. induction d as [|[k0 v0] r IH]; simpl.
  - now rewrite (eqb_neq N).
  - destruct (eqb k0 k) eqn:E; simpl.
    + apply eqb_eq in E. subst k0. now rewrite (eqb_neq N).
    + now rewrite IH.
Qed.

Lemma keys_set_in d k v k' : In k' (keys (set d k v)) <-> k' = k \/ In k' (keys d).
Proof.
  unfold keys. induction d as [|[k0 v0] r IH]; simpl.
  - intuition.
  - destruct (eqb k0 k) eqn:E; simpl.
    + apply eqb_eq in E. subst k0. intuition.
    + rewrite IH. intuition.
Qed.

Lemma wf_nil : wf [].
Proof. constructor. Qed.

Lemma wf_set d k v : wf d -> wf (set d k v).
Proof.
  unfold wf. induction d as [|[k0 v0] r IH]; simpl; intro W.
  - constructor; [intros []|constructor].
  - inversion W as [|? ? Hn Hr]; subst.
    destruct (eqb k0 k) eqn:E; simpl.
    + constructor; assumption.
    + constructor; [|now apply IH].
      intro Hin. apply keys_set_in in Hin. destruct Hin as [->|Hin].
      * rewrite eqb_refl in E. discriminate.
      * contradiction.
Qed.

Lemma get_in d k v : get d k = Some v -> In (k, v) d.
Proof.
  induction d as [|[k0 v0] r IH]; simpl; [discriminate|].
  destruct (eqb k0 k) eqn:E.
  - apply eqb_eq in E. subst. intros [= ->]. now left.
  - intro G. right. now apply IH.
Qed.

Lemma in_get d k v : wf d -> In (k, v) d -> get d k = Some v.
Proof.
  unfold wf. induction d as [|[k0 v0] r IH]; simpl; intros W Hin; [contradiction|].
  inversion W as [|? ? Hn Hr]; subst.
  destruct Hin as [E|Hin].
  - inversion E; subst. now rewrite eqb_refl.
  - destruct (eqb k0 k) eqn:E.
    + apply eqb_eq in E. subst. exfalso. apply Hn.
      change k with (fst (k, v)). now apply in_map.
    + now apply IH.
Qed.

Lemma get_none d k : get d k = None <-> ~ In k (keys d).
Proof.
  unfold keys. induction d as [|[k0 v0] r IH]; simpl.
  - intuition.
  - destruct (eqb k0 k) eqn:E.
    + apply eqb_eq in E. subst. split; [discriminate|]. intro N. exfalso. apply N. now left.
    + rewrite IH. split.
      * intros N [->|Hin]; [|contradiction]. rewrite eqb_refl in E. discriminate.
      * intros N Hin. apply N. now right.
Qed.

End Def.

End Dict.

(* ------------------------------------------------------------------ *)
(** * 0/1 linear programs, as built with PuLP *)

Module Lp.

Open Scope Q_scope.

Inductive Sense := LpConstraintLE | LpConstraintEQ | LpConstraintGE.

Section Model.

Variable K : Type.

(** A sum of [coefficient * variable] terms, [lpSum(...)]; variables are
    named by the key of [LpVariable.dicts]. *)
Definition LpAffineExpression := list (K * Q).

Record LpConstraint := mkConstraint
  { lhs : LpAffineExpression; sense : Sense; rhs : Q }.

(** [LpProblem(name, LpMinimize)] with binary variables. *)
Record LpProblem := mkProblem
  { variables : list K;
    objective : LpAffineExpression;
    constraints : list LpConstraint }.

(** What [model.solve(...)] leaves behind: an exception, or a status
    ([1] is Optimal) and a [varValue] for every variable. *)
Inductive Outcome :=
| Raised
| Solved (status : Z) (varValue : K -> Q).

Definition neg (e : LpAffineExpression) : LpAffineExpression :=
  map (fun t => (fst t, - snd t)) e.

(** [a - b] *)
Definition sub (a b : LpAffineExpression) : LpAffineExpression := a ++ neg b.

Definition value (x : K -> Q) (e : LpAffineExpression) : Q :=
  fold_right (fun t acc => snd t * x (fst t) + acc) 0 e.

Definition satisfies (x : K -> Q) (c : LpConstraint) : Prop :=
  match sense c with
  | LpConstraintLE => value x (lhs c) <= rhs c
  | LpConstraintEQ => value x (lhs c) == rhs c
  | LpConstraintGE => rhs c <= value x (lhs c)
  end.

Definition binary (x : K -> Q) (vars : list K) : Prop :=
  forall k, In k vars -> x k == 0 \/ x k == 1.

Definition feasible (p : LpProblem) (x : K -> Q) : Prop :=
  binary x (variables p) /\ Forall (satisfies x) (constraints p).

Definition optimal (p : LpProblem) (x : K -> Q) : Prop :=
  feasible p x /\
  forall y, feasible p y -> value x (objective p) <= value y (objective p).

(** Every term of the problem is over one of its variables. *)
Definition closed_expr (vars : list K) (e : LpAffineExpression) : Prop :=
  forall k c, In (k, c) e -> In k vars.

Definition wf (p : LpProblem) : Prop :=
  closed_expr (variables p) (objective p) /\
  Forall (fun c => closed_expr (variables p) (lhs c)) (constraints p).

(** An exact solver: status Optimal comes with an optimal 0/1 point, and a
    feasible problem is solved to status Optimal. *)
Definition sound (solve : LpProblem -> Outcome) : Prop :=
  forall p x, wf p -> solve p = Solved 1 x -> optimal p x.

Definition complete (solve : LpProblem -> Outcome) : Prop :=
  forall p, wf p -> (exists x, feasible p x) -> exists x, solve p = Solved 1 x.

Definition exact (solve : LpProblem -> Outcome) : Prop :=
  sound solve /\ complete solve.

Lemma value_nil x : value x [] = 0.
Proof. reflexivity. Qed.

Lemma value_cons x k c e : value x ((k, c) :: e) == c * x k + value x e.
Proof. reflexivity. Qed.

Lemma value_app x a b : value x (a ++ b) == value x a + value x b.
Proof.
  induction a as [|[k c] a IH].
  - rewrite value_nil. simpl app. lra.
  - simpl app. rewrite !value_cons, IH. lra.
Qed.

Lemma value_neg x a : value x (neg a) == - value x a.
Proof.
  induction a as [|[k c] a IH].
  - unfold neg. simpl map. rewrite value_nil. lra.
  - unfold neg. simpl map. fold (neg a). rewrite !value_cons, IH. lra.
Qed.

Lemma value_sub x a b : value x (sub a b) == value x a - value x b.
Proof. unfold sub. rewrite value_app, value_neg. lra. Qed.

Lemma value_ext vars x y e :
  (forall k, In k vars -> x k == y k) -> closed_expr vars e ->
  value x e == value y e.
Proof.
  intros E. induction e as [|[k c] e IH]; intro C.
  - reflexivity.
  - rewrite !value_cons. rewrite IH.
    + rewrite (E k); [reflexivity|]. apply (C k c). now left.
    + intros k' c' Hin. apply (C k' c'). now right.
Qed.

Lemma satisfies_ext vars x y c :
  (forall k, In k vars -> x k == y k) -> closed_expr vars (lhs c) ->
  satisfies x c -> satisfies y c.
Proof.
  intros E C. unfold satisfies.
  pose proof (value_ext x y E C) as V.
  destruct (sense c); intro S; rewrite <- V; exact S.
Qed.

Lemma feasible_ext p x y :
  wf p -> (forall k, In k (variables p) -> x k == y k) ->
  feasible p x -> feasible p y.
Proof.
  intros [_ W] E [B S]. split.
  - intros k Hk. rewrite <- (E k Hk). now apply B.
  - rewrite Forall_forall in *. intros c Hc.
    apply (satisfies_ext x y (vars := variables p)); auto.
Qed.

(** ** A reference solver: exhaustive search over the 0/1 points *)

Variable eqb : K -> K -> bool.
Hypothesis eqb_eq : forall a b, eqb a b = true <-> a = b.

Fixpoint subsets (l : list K) : list (list K) :=
  match l with
  | [] => [[]]
  | k :: r => map (cons k) (subsets r) ++ subsets r
  end.

Definition indicator (s : list K) : K -> Q :=
  fun k => if existsb (eqb k) s then 1 else 0.

Definition holds (x : K -> Q) (c : LpConstraint) : bool :=
  match sense c with
  | LpConstraintLE => Qle_bool (value x (lhs c)) (rhs c)
  | LpConstraintEQ => Qeq_bool (value x (lhs c)) (rhs c)
  | LpConstraintGE => Qle_bool (rhs c) (value x (lhs c))
  end.

Definition admissible (p : LpProblem) (s : list K) : bool :=
  forallb (holds (indicator s)) (constraints p).

Definition cost (p : LpProblem) (s : list K) : Q :=
  value (indicator s) (objective p).

Fixpoint argmin (f : list K -> Q) (best : list K) (l : list (list K)) : list K :=
  match l with
  | [] => best
  | s :: r => argmin f (if PyNum.Qgtb (f best) (f s) then s else best) r
  end.

Definition enumerate_solve (p : LpProblem) : Outcome :=
  match filter (admissible p) (subsets (variables p)) with
  | [] => Solved (-1) (fun _ => 0)
  | s :: r => Solved 1 (indicator (argmin (cost p) s r))
  end.

Lemma holds_iff x c : holds x c = true <-> satisfies x c.
Proof.
  unfold holds, satisfies. destruct (sense c).
  - apply Qle_bool_iff.
  - apply Qeq_bool_iff.
  - apply Qle_bool_iff.
Qed.

Lemma subsets_filter (f : K -> bool) l : In (filter f l) (subsets l).
Proof.
  induction l as [|k r IH]; simpl.
  - now left.
  - apply in_or_app. destruct (f k).
    + left. now apply in_map.
    + now right.
Qed.

Lemma indicator_in s k : In k s -> indicator s k = 1.
Proof.
  intro Hin. unfold indicator.
  assert (E : existsb (eqb k) s = true).
  { apply existsb_exists. exists k. split; [assumption|]. now apply eqb_eq. }
  now rewrite E.
Qed.

Lemma indicator_out s k : ~ In k s -> indicator s k = 0.
Proof.
  intro N. unfold indicator. destruct (existsb (eqb k) s) eqn:E; [|reflexivity].
  apply existsb_exists in E. destruct E as [k' [Hin E]].
  apply eqb_eq in E. subst. contradiction.
Qed.

Lemma indicator_binary s vars : binary (indicator s) vars.
Proof.
  intros k _. unfold indicator. destruct (existsb (eqb k) s).
  - right. reflexivity.
  - left. reflexivity.
Qed.

Definition support (x : K -> Q) (vars : list K) : list K :=
  filter (fun k => Qeq_bool (x k) 1) vars.

Lemma indicator_support x vars k :
  binary x vars -> In k vars -> indicator (support x vars) k == x k.
Proof.
  intros B Hk. destruct (B k Hk) as [Z0|Z1].
  - rewrite indicator_out; [now rewrite Z0|].
    unfold support. rewrite filter_In. intros [_ E].
    apply Qeq_bool_iff in E. rewrite Z0 in E. discriminate.
  - rewrite indicator_in; [now rewrite Z1|].
    unfold support. apply filter_In. split; [assumption|].
    now apply Qeq_bool_iff.
Qed.

Lemma admissible_feasible p s : admissible p s = true -> feasible p (indicator s).
Proof.
  intro A. split; [apply indicator_binary|].
  unfold admissible in A. rewrite forallb_forall in A.
  apply Forall_forall. intros c Hc. apply holds_iff. now apply A.
Qed.

Lemma feasible_admissible p x :
  wf p -> feasible p x -> admissible p (support x (variables p)) = true.
Proof.
  intros W F. unfold admissible. apply forallb_forall. intros c Hc.
  apply holds_iff.
  assert (F' : feasible p (indicator (support x (variables p)))).
  { apply (feasible_ext (x := x)); [assumption| |assumption].
    intros k Hk. symmetry. apply indicator_support; [apply F|assumption]. }
  destruct F' as [_ S]. rewrite Forall_forall in S. now apply S.
Qed.

Lemma argmin_in f best l : In (argmin f best l) (best :: l).
Proof.
  revert best. induction l as [|s r IH]; intro best; simpl.
  - now left.
  - specialize (IH (if PyNum.Qgtb (f best) (f s) then s else best)).
    simpl in IH. destruct IH as [E|Hin].
    + rewrite <- E. destruct (PyNum.Qgtb (f best) (f s)); auto.
    + auto.
Qed.

Lemma argmin_le_best f best l : f (argmin f best l) <= f best.
Proof.
  revert best. induction l as [|s r IH]; intro best; simpl.
  - lra.
  - specialize (IH (if PyNum.Qgtb (f best) (f s) then s else best)).
    destruct (PyNum.Qgtb (f best) (f s)) eqn:E.
    + apply PyNum.Qgtb_true in E. lra.
    + exact IH.
Qed.

Lemma argmin_le f best l s : In s (best :: l) -> f (argmin f best l) <= f s.
Proof.
  revert best. induction l as [|s0 r IH]; intros best Hin.
  - destruct Hin as [->|[]]. simpl. lra.
  - simpl. destruct Hin as [->|[->|Hin]].
    + pose proof (argmin_le_best f (if PyNum.Qgtb (f s) (f s0) then s0 else s) r) as L.
      destruct (PyNum.Qgtb (f s) (f s0)) eqn:E.
      * apply PyNum.Qgtb_true in E. lra.
      * exact L.
    + pose proof (argmin_le_best f (if PyNum.Qgtb (f best) (f s) then s else best) r) as L.
      destruct (PyNum.Qgtb (f best) (f s)) eqn:E.
      * exact L.
      * apply PyNum.Qgtb_false in E. lra.
    + apply IH. now right.
Qed.

Lemma support_listed p x :
  wf p -> feasible p x ->
  In (support x (variables p)) (filter (admissible p) (subsets (variables p))).
Proof.
  intros W F. apply filter_In. split.
  - apply subsets_filter.
  - now apply feasible_admissible.
Qed.

Theorem enumerate_solve_sound : sound enumerate_solve.
Proof.
  intros p x W E. unfold enumerate_solve in E.
  destruct (filter (admissible p) (subsets (variables p))) as [|s r] eqn:L;
    [discriminate|].
  injection E as <-.
  pose proof (argmin_in (cost p) s r) as Hin. rewrite <- L in Hin.
  apply filter_In in Hin. destruct Hin as [_ A].
  split; [now apply admissible_feasible|].
  intros y Fy.
  pose proof (support_listed W Fy) as Hy. rewrite L in Hy.
  pose proof (argmin_le (cost p) Hy) as Le. unfold cost in Le.
  rewrite (value_ext (vars := variables p) (indicator (support y (variables p))) y) in Le.
  - exact Le.
  - intros k Hk. apply indicator_support; [apply Fy|assumption].
  - apply W.
Qed.

Theorem enumerate_solve_complete : complete enumerate_solve.
Proof.
  intros p W [y Fy]. unfold enumerate_solve.
  pose proof (support_listed W Fy) as Hy.
  destruct (filter (admissible p) (subsets (variables p))) as [|s r].
  - destruct Hy.
  - eexists. reflexivity.
Qed.

Theorem enumerate_solve_exact : exact enumerate_solve.
Proof. split; [apply enumerate_solve_sound|apply enumerate_solve_complete]. Qed.

End Model.

Arguments Raised {K}.

End Lp.

(* ------------------------------------------------------------------ *)
(** * The transport graph *)

Module Graph.

Open Scope Q_scope.

Inductive Mode := air | road.

Definition mode_eqb (a b : Mode) : bool :=
  match a, b with
  | air, air | road, road => true
  | _, _ => false
  end.

(** The dictionary stored for an edge by [upload]. *)
Record Edge := mkEdge
  { from : string;
    to : string;
    mode : Mode;
    distance : Q;
    time : Q;
    fuel : Q;
    lat_src : Q;
    lon_src : Q;
    lat_dst : Q;
    lon_dst : Q;
    geometry : list (Q * Q) }.

(** [nodes]: name to coordinates; [edges]: [(from, to)] to edge. *)
Definition Nodes := Dict.t string (Q * Q).
Definition Edges := Dict.t (string * string) Edge.

Definition node_mem (nodes : Nodes) (n : string) : bool :=
  Dict.mem String.eqb nodes n.

Definition edge_get (edges : Edges) (k : string * string) : option Edge :=
  Dict.get PyStr.pair_eqb edges k.

(** Each edge sits under the key made of its own endpoints. *)
Definition keyed (edges : Edges) : Prop :=
  forall k e, In (k, e) edges -> k = (from e, to e).

(** Every endpoint of an edge is a node. *)
Definition closed (nodes : Nodes) (edges : Edges) : Prop :=
  forall k, In k (Dict.keys edges) ->
    In (fst k) (Dict.keys nodes) /\ In (snd k) (Dict.keys nodes).

End Graph.

(* ------------------------------------------------------------------ *)
(** * Path Optimizer ([optimizer.py]) *)

Module PathOptimizer.

Import Graph.
Open Scope Q_scope.

Definition Key := (string * string)%type.

(** The [via] argument when it is not [None]: one node, or a list. *)
Inductive Via :=
| via_node (v : string)
| via_list (vs : list string).

(** Python truth value of [via]. *)
Definition via_truthy (via : option Via) : bool :=
  match via with
  | None => false
  | Some (via_node v) => negb (v =? "")%string
  | Some (via_list vs) => match vs with [] => false | _ => true end
  end.

(** The edge weight the objective sums: [time] for "time" and "fastest",
    [distance] for "distance", [fuel] otherwise. *)
Definition weight (objective : string) (e : Edge) : Q :=
  if ((objective =? "time") || (objective =? "fastest"))%string then time e
  else if (objective =? "distance")%string then distance e
  else fuel e.

(** [lpSum(x[(i, j)] for (i, j) in edges if j == n)] *)
Definition inflow (edges : Edges) (n : string) : Lp.LpAffineExpression Key :=
  map (fun k => (k, 1)) (filter (fun k : Key => (snd k =? n)%string) (Dict.keys edges)).

(** [lpSum(x[(i, j)] for (i, j) in edges if i == n)] *)
Definition outflow (edges : Edges) (n : string) : Lp.LpAffineExpression Key :=
  map (fun k => (k, 1)) (filter (fun k : Key => (fst k =? n)%string) (Dict.keys edges)).

(** The flow conservation constraint added for node [n]. *)
Definition flow_constraint (edges : Edges) (start end_ n : string) : Lp.LpConstraint Key :=
  if (n =? start)%string then
    Lp.mkConstraint (Lp.sub (outflow edges n) (inflow edges n)) Lp.LpConstraintEQ 1
  else if (n =? end_)%string then
    Lp.mkConstraint (Lp.sub (inflow edges n) (outflow edges n)) Lp.LpConstraintEQ 1
  else
    Lp.mkConstraint (Lp.sub (inflow edges n) (outflow edges n)) Lp.LpConstraintEQ 0.

Definition via_constraint (edges : Edges) (v : string) : Lp.LpConstraint Key :=
  Lp.mkConstraint (inflow edges v) Lp.LpConstraintEQ 1.

(** The nodes that receive a via constraint. *)
Definition via_nodes (via : option Via) : list string :=
  if via_truthy via then
    match via with
    | Some (via_list vs) => vs
    | Some (via_node v) => [v]
    | None => []
    end
  else [].

(** The model built before [model.solve].  Iterating a dictionary and
    indexing it by the key is iterating its entries. *)
Definition build_model (nodes : Nodes) (edges : Edges) (start end_ : string)
    (objective : string) (via : option Via) : Lp.LpProblem Key :=
  Lp.mkProblem
    (Dict.keys edges)
    (map (fun ke : Key * Edge => (fst ke, weight objective (snd ke))) edges)
    (map (flow_constraint edges start end_) (Dict.keys nodes)
     ++ map (via_constraint edges) (via_nodes via)).

(** The sort key [(r.get("from"), r.get("to"))], compared as Python compares
    tuples of strings. *)
Definition key_lt (a b : Edge) : bool :=
  ((from a <? from b) || ((from a =? from b) && (to a <? to b)))%string.

Definition key_le (a b : Edge) : Prop := key_lt b a = false.

Fixpoint insert (x : Edge) (l : list Edge) : list Edge :=
  match l with
  | [] => [x]
  | y :: r => if key_lt y x then y :: insert x r else x :: l
  end.

(** [sorted(route, key=...)]: stable. *)
Definition sorted (route : list Edge) : list Edge := fold_right insert [] route.

(** The edges whose variable is 1, in dictionary order. *)
Definition selected (edges : Edges) (x : Key -> Q) : list Edge :=
  map snd (filter (fun ke : Key * Edge => Qeq_bool (x (fst ke)) 1) edges).

Section WithSolver.

Variable solve : Lp.LpProblem Key -> Lp.Outcome Key.

Definition optimize (nodes : Nodes) (edges : Edges) (start end_ : string)
    (objective : string) (via : option Via) : list Edge :=
  match solve (build_model nodes edges start end_ objective via) with
  | Lp.Raised => []
  | Lp.Solved status x =>
      if (status =? 1)%Z then sorted (selected edges x) else []
  end.

End WithSolver.

(** The number of edges of a route that enter node [v]. *)
Definition route_inflow (route : list Edge) (v : string) : nat :=
  List.length (filter (fun e => (to e =? v)%string) route).

End PathOptimizer.

(* ------------------------------------------------------------------ *)
(** * Network ingestion ([upload] in [main.py], metrics in [utils.py]) *)

Module Upload.

Import Graph.
Open Scope Q_scope.

(** A row of the air or of the road file: the two endpoint names
    ([source_airport]/[destination_airport], [source_city]/[destination_city])
    and the four coordinates. *)
Record Row := mkRow
  { source : string;
    destination : string;
    r_lat_src : Q;
    r_lon_src : Q;
    r_lat_dst : Q;
    r_lon_dst : Q }.

(** The static price table of [get_fuel_price]. *)
Definition get_fuel_price (country_code fuel_type : string) : Q :=
  let table (diesel jet : Q) : Q :=
    if (fuel_type =? "diesel")%string then diesel
    else if (fuel_type =? "jet")%string then jet
    else 12 # 10 in
  if (country_code =? "US")%string then table (12 # 10) (9 # 10)
  else if (country_code =? "IN")%string then table (85 # 100) (75 # 100)
  else if (country_code =? "UK")%string then table (15 # 10) (11 # 10)
  else if (country_code =? "DE")%string then table (16 # 10) (115 # 100)
  else if (country_code =? "AU")%string then table (14 # 10) (95 # 100)
  else 12 # 10.

Definition road_metrics (dist : Q) (country_code : string) : Q * Q :=
  let speed := 50 in
  let mileage := 4 in
  let diesel_price := get_fuel_price country_code "diesel" in
  let time := dist / speed in
  let liters_needed := dist / mileage in
  let fuel_cost := liters_needed * diesel_price in
  (PyNum.round2 time, PyNum.round2 fuel_cost).

Definition air_metrics (dist : Q) (country_code : string) : Q * Q :=
  let speed := 800 in
  let burn_rate := 5 in
  let jet_price := get_fuel_price country_code "jet" in
  let time := dist / speed in
  let liters_needed := dist * burn_rate in
  let fuel_cost := liters_needed * jet_price in
  (PyNum.round2 time, PyNum.round2 fuel_cost).

(** [str(name).lower().strip()] *)
Definition node_name (s : string) : string := PyStr.strip (PyStr.lower s).

Definition row_key (r : Row) : string * string :=
  (node_name (source r), node_name (destination r)).

Section WithDistance.

(** The great-circle distance is trigonometry on floats; it is left
    abstract. *)
Variable haversine : Q -> Q -> Q -> Q -> Q.
Variable country : string.

Definition make_edge (m : Mode) (r : Row) (time fuel dist : Q) : Edge :=
  mkEdge (node_name (source r)) (node_name (destination r)) m
    (PyNum.round2 dist) (PyNum.round2 time) (PyNum.round2 fuel)
    (r_lat_src r) (r_lon_src r) (r_lat_dst r) (r_lon_dst r)
    [(r_lat_src r, r_lon_src r); (r_lat_dst r, r_lon_dst r)].

Definition air_edge (r : Row) : Edge :=
  let dist := haversine (r_lat_src r) (r_lon_src r) (r_lat_dst r) (r_lon_dst r) in
  let (time, fuel) := air_metrics dist country in
  make_edge air r time fuel dist.

Definition road_edge (r : Row) : Edge :=
  let dist := haversine (r_lat_src r) (r_lon_src r) (r_lat_dst r) (r_lon_dst r) in
  let (time, fuel) := road_metrics dist country in
  make_edge road r time fuel dist.

Definition add_nodes (nodes : Nodes) (r : Row) : Nodes :=
  let src := node_name (source r) in
  let dst := node_name (destination r) in
  Dict.set String.eqb
    (Dict.set String.eqb nodes src (r_lat_src r, r_lon_src r))
    dst (r_lat_dst r, r_lon_dst r).

(** Body of the loop over the air file. *)
Definition process_air (st : Nodes * Edges) (r : Row) : Nodes * Edges :=
  let (nodes, edges) := st in
  (add_nodes nodes r, Dict.set PyStr.pair_eqb edges (row_key r) (air_edge r)).

(** Body of the loop over the road file: the edge is written unless the
    pair already holds an air edge. *)
Definition process_road (st : Nodes * Edges) (r : Row) : Nodes * Edges :=
  let (nodes, edges) := st in
  let writable :=
    match edge_get edges (row_key r) with
    | None => true
    | Some e => negb (mode_eqb (mode e) air)
    end in
  (add_nodes nodes r,
   if writable then Dict.set PyStr.pair_eqb edges (row_key r) (road_edge r)
   else edges).

(** [upload]: both dictionaries start empty, the air file is processed
    first, then the road file. *)
Definition upload (air_rows road_rows : list Row) : Nodes * Edges :=
  fold_left process_road road_rows (fold_left process_air air_rows ([], [])).

(** The two loop bodies as one step, to speak of any order of ingestion. *)
Inductive Ingest :=
| AirRow (r : Row)
| RoadRow (r : Row).

Definition ingest (st : Nodes * Edges) (i : Ingest) : Nodes * Edges :=
  match i with
  | AirRow r => process_air st r
  | RoadRow r => process_road st r
  end.

Definition ingest_all (rows : list Ingest) : Nodes * Edges :=
  fold_left ingest rows ([], []).

End WithDistance.

End Upload.

(* ------------------------------------------------------------------ *)
(** * Capacity Allocator ([capacity_optimizer.py]) *)

Module CapacityAllocator.

Import Graph.
Open Scope Q_scope.

(** A row of the prepared vehicle frame.  [departure_time] is [None] for a
    cell that is not a string. *)
Record Vehicle := mkVehicle
  { vehicle_id : string;
    base_city : string;
    capacity_kg : Q;
    speed_kmph : Q;
    cost_per_km : Q;
    departure_time : option string;
    vehicle_type : string }.

(** An entry of the ["vehicles"] list of a leg result. *)
Record AssignedVehicle := mkAssigned
  { a_vehicle_id : string;
    a_vehicle_type : string;
    load_kg : Q;
    departure : string;
    arrival : string;
    a_distance : Q;
    travel_time_hours : Q;
    fuel_cost : Q }.

(** The dictionary returned for a leg. *)
Record Assignment := mkAssignment
  { leg_from : string;
    leg_to : string;
    vehicles : list AssignedVehicle;
    leg_distance : Q;
    leg_time : Q;
    last_arrival : option string }.

(** A call either raises or returns. *)
Inductive Py (A : Type) :=
| Raises
| Returns (a : A).
Arguments Raises {A}.
Arguments Returns {A} a.

(** The frame is a list of rows; a row's index label is its position. *)
Definition DataFrame := list Vehicle.

Definition indexed (df : DataFrame) : list (nat * Vehicle) :=
  combine (seq 0 (List.length df)) df.

(** [vehicles_df[vehicles_df["base_city"].str.lower() == source_city]] *)
Definition available_at (df : DataFrame) (source_city : string) : list (nat * Vehicle) :=
  filter (fun iv => (PyStr.lower (base_city (snd iv)) =? source_city)%string) (indexed df).

Definition objective_coefficient (objective : string) (leg : Edge) (v : Vehicle) : Q :=
  if (objective =? "time")%string then distance leg / speed_kmph v
  else cost_per_km v * distance leg.

(** The model built before [model.solve]: minimise the objective subject to
    the selected capacity covering [total_goods]. *)
Definition build_model (available : list (nat * Vehicle)) (leg : Edge)
    (total_goods : Q) (objective : string) : Lp.LpProblem nat :=
  Lp.mkProblem
    (map fst available)
    (map (fun iv => (fst iv, objective_coefficient objective leg (snd iv))) available)
    [Lp.mkConstraint
       (map (fun iv => (fst iv, capacity_kg (snd iv))) available)
       Lp.LpConstraintGE total_goods].

Definition default_departure : PyTime.datetime := (8 * PyTime.us_per_hour)%Z.

(** The locals of the loop body for a vehicle. *)
Definition departure_of (v : Vehicle) : PyTime.datetime :=
  match departure_time v with
  | Some s =>
      match PyTime.strptime_HM s with
      | Some d => d
      | None => default_departure
      end
  | None => default_departure
  end.

(** With a speed of zero the quotient below is 0 in [Q]; in the code it is
    infinite or not a number and the next line raises, which
    [schedule_raises] records. *)
Definition travel_time_of (leg : Edge) (v : Vehicle) : Q :=
  distance leg / speed_kmph v.

Definition arrival_of (leg : Edge) (v : Vehicle) : PyTime.datetime :=
  (departure_of v + PyTime.timedelta_hours (travel_time_of leg v))%Z.

Definition fuel_cost_of (leg : Edge) (v : Vehicle) : Q :=
  PyNum.round2 (cost_per_km v * distance leg).

(** The dictionary appended for a vehicle carrying [load]. *)
Definition entry (leg : Edge) (v : Vehicle) (load : Q) : AssignedVehicle :=
  mkAssigned
    (vehicle_id v)
    (vehicle_type v)
    (PyNum.round2 load)
    (PyTime.strftime_HM (departure_of v))
    (PyTime.strftime_HM (arrival_of leg v))
    (PyNum.round2 (distance leg))
    (PyNum.round2 (travel_time_of leg v))
    (fuel_cost_of leg v).

(** [if not last_arrival or arrival > last_arrival: last_arrival = arrival] *)
Definition later (last_arrival : option PyTime.datetime) (arrival : PyTime.datetime)
  : option PyTime.datetime :=
  match last_arrival with
  | None => Some arrival
  | Some l => if (arrival >? l)%Z then Some arrival else Some l
  end.

(** The state of the loop: [assigned], [remaining], [last_arrival]. *)
Definition WalkState := (list AssignedVehicle * Q * option PyTime.datetime)%type.

(** Lines 130-131 are outside any [try].  With a speed of zero the quotient
    is infinite (or not a number) and [timedelta(hours=...)] raises; the
    sum [departure + timedelta] raises when it leaves the range of
    [datetime] (a [timedelta] too large for its own type takes the sum out
    of that range as well, the departure being on 1900-01-01). *)
Definition schedule_raises (leg : Edge) (v : Vehicle) : bool :=
  Qeq_bool (speed_kmph v) 0 || negb (PyTime.representable (arrival_of leg v)).

(** One iteration of [for i in available.index]; an exception ends the
    loop. *)
Definition walk_step (leg : Edge) (x : nat -> Q) (st : Py WalkState) (iv : nat * Vehicle)
  : Py WalkState :=
  match st with
  | Raises => Raises
  | Returns (assigned, remaining, last_arrival) =>
      let (i, v) := iv in
      if Qeq_bool (x i) 1 && PyNum.Qgtb remaining 0 then
        let capacity := capacity_kg v in
        let load := PyNum.py_min capacity remaining in
        let remaining := remaining - load in
        if schedule_raises leg v then Raises
        else Returns (assigned ++ [entry leg v load], remaining,
                      later last_arrival (arrival_of leg v))
      else st
  end.

Definition walk (leg : Edge) (x : nat -> Q) (available : list (nat * Vehicle))
    (total_goods : Q) : Py WalkState :=
  fold_left (walk_step leg x) available (Returns ([], total_goods, None)).

(** The same loop, keeping for each appended vehicle the [load] it was
    given before the entry rounds it. *)
Definition load_step (x : nat -> Q) (st : list (Vehicle * Q) * Q) (iv : nat * Vehicle)
  : list (Vehicle * Q) * Q :=
  let (taken, remaining) := st in
  let (i, v) := iv in
  if Qeq_bool (x i) 1 && PyNum.Qgtb remaining 0 then
    let capacity := capacity_kg v in
    let load := PyNum.py_min capacity remaining in
    (taken ++ [(v, load)], remaining - load)
  else st.

Definition walk_loads (x : nat -> Q) (available : list (nat * Vehicle)) (total_goods : Q)
  : list (Vehicle * Q) :=
  fst (fold_left (load_step x) available ([], total_goods)).

Definition entry_of (leg : Edge) (vl : Vehicle * Q) : AssignedVehicle :=
  entry leg (fst vl) (snd vl).

Definition loads (taken : list (Vehicle * Q)) : list Q := map snd taken.

Definition capacities (taken : list (Vehicle * Q)) : list Q :=
  map (fun vl => capacity_kg (fst vl)) taken.

(** The running [last_arrival] over a list of arrival instants. *)
Definition latest (arrivals : list PyTime.datetime) : option PyTime.datetime :=
  fold_left later arrivals None.

Section WithSolver.

Variable solve : Lp.LpProblem nat -> Lp.Outcome nat.

Definition assign_vehicles_for_leg (vehicles_df : DataFrame) (leg : Edge)
    (total_goods : Q) (objective : string) : Py (option Assignment) :=
  let source_city := PyStr.lower (from leg) in
  let available := available_at vehicles_df source_city in
  match available with
  | [] => Returns None
  | _ =>
      match solve (build_model available leg total_goods objective) with
      | Lp.Raised => Raises
      | Lp.Solved status x =>
          if negb (status =? 1)%Z then Returns None
          else
            match walk leg x available total_goods with
            | Raises => Raises
            | Returns (assigned, _, last_arrival) =>
                Returns (Some (mkAssignment (from leg) (to leg) assigned
                                 (distance leg) (time leg)
                                 (option_map PyTime.strftime_HM last_arrival)))
            end
      end
  end.

End WithSolver.

End CapacityAllocator.

(* ------------------------------------------------------------------ *)
(** * Plan Aggregator ([optimize_with_capacity] in [main.py]) *)

Module Plan.

Import Graph CapacityAllocator.
Open Scope Q_scope.

(** The ["capacity_plan"] of the response. *)
Record CapacityPlan := mkPlan
  { total_goods_kg : Q;
    route : list string;
    objective : string;
    legs : list Assignment;
    final_delivery_time : option string }.

(** The handler answers with a plan, with an [HTTPException], or dies on an
    exception it does not catch. *)
Inductive Response :=
| Success (plan : CapacityPlan)
| HTTPException (status_code : Z)
| Uncaught.

Section WithSolvers.

Variable solve_route : Lp.LpProblem PathOptimizer.Key -> Lp.Outcome PathOptimizer.Key.
Variable solve_leg : Lp.LpProblem nat -> Lp.Outcome nat.

(** The loop [for leg in route], from the state [(legs_output,
    final_arrival)]. *)
Fixpoint assign_legs (vdf : DataFrame) (goods_kg : Q) (objective : string)
    (route : list Edge) (legs_output : list Assignment)
    (final_arrival : option string)
  : Py (option (list Assignment * option string)) :=
  match route with
  | [] => Returns (Some (legs_output, final_arrival))
  | leg :: rest =>
      match assign_vehicles_for_leg solve_leg vdf leg goods_kg objective with
      | Raises => Raises
      | Returns None => Returns None
      | Returns (Some assignment) =>
          assign_legs vdf goods_kg objective rest
            (legs_output ++ [assignment]) (last_arrival assignment)
      end
  end.

(** [[r["from"] for r in route] + [route[-1]["to"]]] *)
Definition route_nodes (route : list Edge) : list string :=
  map from route ++
  match rev route with
  | [] => []
  | l :: _ => [to l]
  end.

Definition optimize_with_capacity (nodes : Nodes) (edges : Edges)
    (vehicles_df : option DataFrame) (source destination : string)
    (goods_kg : Q) (objective : string) : Response :=
  if negb (node_mem nodes source) || negb (node_mem nodes destination) then
    HTTPException 400
  else
    match vehicles_df with
    | None | Some [] => HTTPException 400
    | Some vdf =>
        let route :=
          PathOptimizer.optimize solve_route nodes edges
            (PyStr.lower source) (PyStr.lower destination) objective None in
        match route with
        | [] => HTTPException 404
        | _ =>
            match assign_legs vdf goods_kg objective route [] None with
            | Raises => Uncaught
            | Returns None => HTTPException 400
            | Returns (Some (legs_output, final_arrival)) =>
                Success (mkPlan goods_kg (route_nodes route) objective
                           legs_output final_arrival)
            end
        end
    end.

End WithSolvers.

End Plan.

(* ------------------------------------------------------------------ *)
(** * Properties of network ingestion *)

Module UploadFacts.

Import Graph Upload.
Open Scope Q_scope.

Section WithDistance.

Variable haversine : Q -> Q -> Q -> Q -> Q.
Variable country : string.

#[local] Abbreviation process_air := (process_air haversine country).
#[local] Abbreviation process_road := (process_road haversine country).
#[local] Abbreviation ingest := (ingest haversine country).
#[local] Abbreviation ingest_all := (ingest_all haversine country).
#[local] Abbreviation air_edge := (air_edge haversine country).
#[local] Abbreviation road_edge := (road_edge haversine country).

Lemma air_edge_mode r : mode (air_edge r) = air.
Proof. unfold Upload.air_edge. now destruct (air_metrics _ _). Qed.

Lemma road_edge_mode r : mode (road_edge r) = road.
Proof. unfold Upload.road_edge. now destruct (road_metrics _ _). Qed.

Lemma air_edge_key r : (from (air_edge r), to (air_edge r)) = row_key r.
Proof. unfold Upload.air_edge. now destruct (air_metrics _ _). Qed.

Lemma road_edge_key r : (from (road_edge r), to (road_edge r)) = row_key r.
Proof. unfold Upload.road_edge. now destruct (road_metrics _ _). Qed.

Lemma edge_get_set_same (edges : Edges) k e :
  edge_get (Dict.set PyStr.pair_eqb edges k e) k = Some e.
Proof. apply Dict.get_set_same. apply PyStr.pair_eqb_eq. Qed.

Lemma edge_get_set_other (edges : Edges) k e k' :
  k <> k' -> edge_get (Dict.set PyStr.pair_eqb edges k e) k' = edge_get edges k'.
Proof. apply Dict.get_set_other. apply PyStr.pair_eqb_eq. Qed.

(** The three outcomes of a road row on the edge dictionary. *)
Lemma process_road_edges (st : Nodes * Edges) r :
  snd (process_road st r) =
    match edge_get (snd st) (row_key r) with
    | Some e => if mode_eqb (mode e) air then snd st
                else Dict.set PyStr.pair_eqb (snd st) (row_key r) (road_edge r)
    | None => Dict.set PyStr.pair_eqb (snd st) (row_key r) (road_edge r)
    end.
Proof.
  destruct st as [nodes edges]. unfold Upload.process_road. cbn [snd].
  destruct (edge_get edges (row_key r)) as [e|]; [|reflexivity].
  now destruct (mode_eqb (mode e) air).
Qed.

Lemma process_air_edges (st : Nodes * Edges) r :
  snd (process_air st r) = Dict.set PyStr.pair_eqb (snd st) (row_key r) (air_edge r).
Proof. now destruct st. Qed.

(** A road row leaves every air edge as it is. *)
Lemma road_row_keeps_air (st : Nodes * Edges) r k e :
  edge_get (snd st) k = Some e -> mode e = air ->
  edge_get (snd (process_road st r)) k = Some e.
Proof.
  intros G M. rewrite process_road_edges.
  destruct (edge_get (snd st) (row_key r)) as [e'|] eqn:G'.
  - destruct (mode_eqb (mode e') air) eqn:E; [assumption|].
    rewrite edge_get_set_other; [assumption|].
    intros <-. rewrite G in G'. injection G' as <-. rewrite M in E. discriminate.
  - rewrite edge_get_set_other; [assumption|].
    intros <-. congruence.
Qed.

(** A road row replaces a road edge of its pair. *)
Lemma road_row_overwrites_road (st : Nodes * Edges) r e :
  edge_get (snd st) (row_key r) = Some e -> mode e = road ->
  edge_get (snd (process_road st r)) (row_key r) = Some (road_edge r).
Proof.
  intros G M. rewrite process_road_edges, G, M. cbn [mode_eqb].
  apply edge_get_set_same.
Qed.

(** A road row fills a pair that has no edge. *)
Lemma road_row_fills_gap (st : Nodes * Edges) r :
  edge_get (snd st) (row_key r) = None ->
  edge_get (snd (process_road st r)) (row_key r) = Some (road_edge r).
Proof.
  intros G. rewrite process_road_edges, G. apply edge_get_set_same.
Qed.

(** An air row always writes its edge. *)
Lemma air_row_writes (st : Nodes * Edges) r :
  edge_get (snd (process_air st r)) (row_key r) = Some (air_edge r).
Proof. rewrite process_air_edges. apply edge_get_set_same. Qed.

(** Once a pair holds an air edge it holds one after any further row. *)
Lemma air_survives_step (st : Nodes * Edges) i k :
  (exists e, edge_get (snd st) k = Some e /\ mode e = air) ->
  exists e, edge_get (snd (ingest st i)) k = Some e /\ mode e = air.
Proof.
  intros [e [G M]]. destruct i as [r|r]; cbn [Upload.ingest].
  - rewrite process_air_edges.
    destruct (PyStr.pair_eqb (row_key r) k) eqn:E.
    + apply PyStr.pair_eqb_eq in E. subst k. exists (air_edge r).
      split; [apply edge_get_set_same|apply air_edge_mode].
    + exists e. split; [|assumption]. rewrite edge_get_set_other; [assumption|].
      intro Ek. rewrite Ek, PyStr.pair_eqb_refl in E. discriminate.
  - exists e. split; [|assumption]. now apply road_row_keeps_air.
Qed.

Lemma air_survives rows :
  forall (st : Nodes * Edges) k,
    (exists e, edge_get (snd st) k = Some e /\ mode e = air) ->
    exists e, edge_get (snd (fold_left ingest rows st)) k = Some e /\ mode e = air.
Proof.
  induction rows as [|i rows IH]; intros st k H; [exact H|].
  cbn [fold_left]. apply IH. now apply air_survives_step.
Qed.

Lemma air_row_wins rows :
  forall (st : Nodes * Edges) r, In (AirRow r) rows ->
    exists e, edge_get (snd (fold_left ingest rows st)) (row_key r) = Some e /\ mode e = air.
Proof.
  induction rows as [|i rows IH]; intros st r Hin; [destruct Hin|].
  cbn [fold_left]. destruct Hin as [->|Hin].
  - apply air_survives. exists (air_edge r). cbn [Upload.ingest].
    split; [apply air_row_writes|apply air_edge_mode].
  - now apply IH.
Qed.

(** ** Shape of the edge dictionary *)

Lemma ingest_wf (st : Nodes * Edges) i : Dict.wf (snd st) -> Dict.wf (snd (ingest st i)).
Proof.
  intro W. destruct i as [r|r]; cbn [Upload.ingest].
  - rewrite process_air_edges. now apply Dict.wf_set; [apply PyStr.pair_eqb_eq|].
  - rewrite process_road_edges.
    destruct (edge_get (snd st) (row_key r)) as [e|];
      [destruct (mode_eqb (mode e) air); [assumption|]|];
      now apply Dict.wf_set; [apply PyStr.pair_eqb_eq|].
Qed.

Lemma set_keyed (edges : Edges) k e :
  keyed edges -> k = (from e, to e) -> keyed (Dict.set PyStr.pair_eqb edges k e).
Proof.
  intros Kd Ek. induction edges as [|[k0 e0] rest IH]; cbn [Dict.set].
  - intros k' e' [E|[]]. now inversion E; subst.
  - assert (Kr : keyed rest) by (intros k' e' Hin; apply Kd; now right).
    destruct (PyStr.pair_eqb k0 k) eqn:E.
    + apply PyStr.pair_eqb_eq in E. subst k0.
      intros k' e' [E'|Hin]; [now inversion E'; subst|apply Kd; now right].
    + intros k' e' [E'|Hin]; [apply Kd; now left|now apply (IH Kr)].
Qed.

Lemma ingest_keyed (st : Nodes * Edges) i : keyed (snd st) -> keyed (snd (ingest st i)).
Proof.
  intro Kd. destruct i as [r|r]; cbn [Upload.ingest].
  - rewrite process_air_edges. apply set_keyed; [assumption|].
    symmetry. apply air_edge_key.
  - rewrite process_road_edges.
    destruct (edge_get (snd st) (row_key r)) as [e|];
      [destruct (mode_eqb (mode e) air); [assumption|]|];
      (apply set_keyed; [assumption|symmetry; apply road_edge_key]).
Qed.

Lemma ingest_all_shape rows :
  forall (st : Nodes * Edges), Dict.wf (snd st) -> keyed (snd st) ->
    Dict.wf (snd (fold_left ingest rows st)) /\ keyed (snd (fold_left ingest rows st)).
Proof.
  induction rows as [|i rows IH]; intros st W Kd; [now split|].
  cbn [fold_left]. apply IH; [now apply ingest_wf|now apply ingest_keyed].
Qed.

(** With one entry per key and every edge under its endpoints, two stored
    edges with the same endpoints are the same edge. *)
Lemma one_edge_per_pair (edges : Edges) e1 e2 :
  Dict.wf edges -> keyed edges ->
  In e1 (Dict.values edges) -> In e2 (Dict.values edges) ->
  from e1 = from e2 -> to e1 = to e2 -> e1 = e2.
Proof.
  intros W Kd H1 H2 Ef Et.
  apply in_map_iff in H1. destruct H1 as [[k1 e1'] [E1 H1]].
  apply in_map_iff in H2. destruct H2 as [[k2 e2'] [E2 H2]].
  cbn [snd] in *. subst e1' e2'.
  pose proof (Kd _ _ H1) as K1. pose proof (Kd _ _ H2) as K2.
  assert (k1 = k2) by (rewrite K1, K2, Ef, Et; reflexivity). subst k2.
  pose proof (@Dict.in_get _ _ PyStr.pair_eqb PyStr.pair_eqb_eq _ _ _ W H1) as G1.
  pose proof (@Dict.in_get _ _ PyStr.pair_eqb PyStr.pair_eqb_eq _ _ _ W H2) as G2.
  congruence.
Qed.

(** [upload] is the ingestion of the air rows followed by the road rows. *)
Lemma upload_as_ingestion air_rows road_rows :
  upload haversine country air_rows road_rows =
    ingest_all (map AirRow air_rows ++ map RoadRow road_rows).
Proof.
  unfold upload, Upload.ingest_all. rewrite fold_left_app.
  assert (A : forall rows st,
             fold_left ingest (map AirRow rows) st = fold_left process_air rows st).
  { induction rows as [|r rows IH]; intro st; [reflexivity|]. apply IH. }
  assert (R : forall rows st,
             fold_left ingest (map RoadRow rows) st = fold_left process_road rows st).
  { induction rows as [|r rows IH]; intro st; [reflexivity|]. apply IH. }
  now rewrite A, R.
Qed.

(** ** Nodes of an ingested graph *)

Lemma add_nodes_keys (nodes : Nodes) r n :
  In n (Dict.keys (add_nodes nodes r)) <->
  n = node_name (destination r) \/ n = node_name (source r) \/ In n (Dict.keys nodes).
Proof.
  unfold add_nodes. cbv zeta.
  rewrite (@Dict.keys_set_in _ _ String.eqb String.eqb_eq), (@Dict.keys_set_in _ _ String.eqb String.eqb_eq).
  tauto.
Qed.

Lemma add_nodes_wf (nodes : Nodes) r : Dict.wf nodes -> Dict.wf (add_nodes nodes r).
Proof.
  intro W. unfold add_nodes. cbv zeta.
  apply (@Dict.wf_set _ _ String.eqb String.eqb_eq). now apply (@Dict.wf_set _ _ String.eqb String.eqb_eq).
Qed.

Lemma ingest_nodes (st : Nodes * Edges) i :
  fst (ingest st i) =
    add_nodes (fst st) match i with AirRow r | RoadRow r => r end.
Proof. destruct st as [nodes edges], i as [r|r]; reflexivity. Qed.

Lemma ingest_edge_keys (st : Nodes * Edges) i k :
  In k (Dict.keys (snd (ingest st i))) ->
  k = row_key match i with AirRow r | RoadRow r => r end \/ In k (Dict.keys (snd st)).
Proof.
  destruct i as [r|r]; cbn [Upload.ingest].
  - rewrite process_air_edges. apply (@Dict.keys_set_in _ _ PyStr.pair_eqb PyStr.pair_eqb_eq).
  - rewrite process_road_edges.
    destruct (edge_get (snd st) (row_key r)) as [e|];
      [destruct (mode_eqb (mode e) air); [now right|]|];
      apply (@Dict.keys_set_in _ _ PyStr.pair_eqb PyStr.pair_eqb_eq).
Qed.

Lemma ingest_closed (st : Nodes * Edges) i :
  closed (fst st) (snd st) -> closed (fst (ingest st i)) (snd (ingest st i)).
Proof.
  intros C k Hk. rewrite ingest_nodes. rewrite !add_nodes_keys.
  destruct (ingest_edge_keys st i k Hk) as [->|Hin].
  - unfold row_key. cbn [fst snd]. tauto.
  - destruct (C k Hin). tauto.
Qed.

Lemma ingest_nodes_wf (st : Nodes * Edges) i :
  Dict.wf (fst st) -> Dict.wf (fst (ingest st i)).
Proof. intro W. rewrite ingest_nodes. now apply add_nodes_wf. Qed.

(** The graph left by any ingestion has distinct node names, holds every
    edge endpoint as a node, and keys every edge by its endpoints. *)
Lemma ingested_graph_shape rows :
  let g := ingest_all rows in
  Dict.wf (fst g) /\ Dict.wf (snd g) /\ keyed (snd g) /\ closed (fst g) (snd g).
Proof.
  cbv zeta. unfold Upload.ingest_all.
  assert (G : forall rows (st : Nodes * Edges),
             Dict.wf (fst st) -> closed (fst st) (snd st) ->
             Dict.wf (fst (fold_left ingest rows st)) /\
             closed (fst (fold_left ingest rows st)) (snd (fold_left ingest rows st))).
  { induction rows0 as [|i rows0 IH]; intros st W C; [now split|].
    cbn [fold_left]. apply IH; [now apply ingest_nodes_wf|now apply ingest_closed]. }
  destruct (G rows ([], [])) as [Wn C].
  { apply Dict.wf_nil. }
  { intros k []. }
  destruct (@ingest_all_shape rows ([], [])) as [We Kd].
  { apply Dict.wf_nil. }
  { intros k e []. }
  split; [|split; [|split]]; assumption.
Qed.

(** ** Which row an edge comes from *)

(** A row of another pair leaves a pair as it is. *)
Lemma ingest_other_pair (st : Nodes * Edges) i k :
  row_key match i with AirRow r | RoadRow r => r end <> k ->
  edge_get (snd (ingest st i)) k = edge_get (snd st) k.
Proof.
  intro N. destruct i as [r|r]; cbn [Upload.ingest].
  - rewrite process_air_edges. now apply edge_get_set_other.
  - rewrite process_road_edges.
    destruct (edge_get (snd st) (row_key r)) as [e|];
      [destruct (mode_eqb (mode e) air); [reflexivity|]|];
      now apply edge_get_set_other.
Qed.

Lemma ingest_other_pairs rows :
  forall (st : Nodes * Edges) k,
    (forall i, In i rows -> row_key match i with AirRow r | RoadRow r => r end <> k) ->
    edge_get (snd (fold_left ingest rows st)) k = edge_get (snd st) k.
Proof.
  induction rows as [|i rows IH]; intros st k H; [reflexivity|].
  cbn [fold_left]. rewrite IH.
  - apply ingest_other_pair. apply H. now left.
  - intros j Hj. apply H. now right.
Qed.

(** An air edge stays the same edge as long as no air row of its pair
    follows. *)
Lemma air_edge_stays rows :
  forall (st : Nodes * Edges) k e,
    edge_get (snd st) k = Some e -> mode e = air ->
    (forall r, In (AirRow r) rows -> row_key r <> k) ->
    edge_get (snd (fold_left ingest rows st)) k = Some e.
Proof.
  induction rows as [|i rows IH]; intros st k e G M H; [exact G|].
  cbn [fold_left]. apply IH; [|exact M|intros r Hr; apply H; now right].
  destruct i as [r|r]; cbn [Upload.ingest].
  - rewrite process_air_edges, edge_get_set_other; [exact G|].
    apply H. now left.
  - now apply road_row_keeps_air.
Qed.

(** A pair that holds no air edge holds none after rows among which no air
    row is of that pair. *)
Definition no_air_at (edges : Edges) (k : string * string) : Prop :=
  match edge_get edges k with
  | Some e => mode e = road
  | None => True
  end.

Lemma no_air_row_no_air_edge rows :
  forall (st : Nodes * Edges) k,
    no_air_at (snd st) k ->
    (forall r, In (AirRow r) rows -> row_key r <> k) ->
    no_air_at (snd (fold_left ingest rows st)) k.
Proof.
  induction rows as [|i rows IH]; intros st k G H; [exact G|].
  cbn [fold_left]. apply IH; [|intros r Hr; apply H; now right].
  destruct i as [r|r]; cbn [Upload.ingest].
  - unfold no_air_at. rewrite process_air_edges, edge_get_set_other; [exact G|].
    apply H. now left.
  - unfold no_air_at in *. rewrite process_road_edges.
    destruct (edge_get (snd st) (row_key r)) as [e'|] eqn:G'.
    + destruct (mode_eqb (mode e') air) eqn:E; [exact G|].
      destruct (PyStr.pair_eqb (row_key r) k) eqn:Ek.
      * apply PyStr.pair_eqb_eq in Ek. subst k.
        rewrite edge_get_set_same. apply road_edge_mode.
      * rewrite edge_get_set_other; [exact G|].
        intro Ek'. rewrite Ek', PyStr.pair_eqb_refl in Ek. discriminate.
    + destruct (PyStr.pair_eqb (row_key r) k) eqn:Ek.
      * apply PyStr.pair_eqb_eq in Ek. subst k.
        rewrite edge_get_set_same. apply road_edge_mode.
      * rewrite edge_get_set_other; [exact G|].
        intro Ek'. rewrite Ek', PyStr.pair_eqb_refl in Ek. discriminate.
Qed.

(** The last air row of a pair gives the pair its edge. *)
Lemma last_air_row_is_stored pre r post :
  (forall r', In (AirRow r') post -> row_key r' <> row_key r) ->
  edge_get (snd (ingest_all (pre ++ AirRow r :: post))) (row_key r) = Some (air_edge r).
Proof.
  intro H. unfold Upload.ingest_all. rewrite fold_left_app. cbn [fold_left].
  apply air_edge_stays; [|apply air_edge_mode|exact H].
  cbn [Upload.ingest]. apply air_row_writes.
Qed.

(** Without an air row of its pair, the last road row of a pair gives the
    pair its edge, whether or not an earlier road row had stored one. *)
Lemma last_road_row_is_stored pre r post :
  (forall r', In (AirRow r') (pre ++ post) -> row_key r' <> row_key r) ->
  (forall r', In (RoadRow r') post -> row_key r' <> row_key r) ->
  edge_get (snd (ingest_all (pre ++ RoadRow r :: post))) (row_key r) = Some (road_edge r).
Proof.
  intros Ha Hr. unfold Upload.ingest_all. rewrite fold_left_app. cbn [fold_left].
  rewrite ingest_other_pairs.
  - cbn [Upload.ingest].
    pose proof (@no_air_row_no_air_edge pre ([], []) (row_key r) I) as N.
    unfold no_air_at in N.
    destruct (edge_get (snd (fold_left ingest pre ([], []))) (row_key r)) as [e|] eqn:G.
    + apply (@road_row_overwrites_road _ r e G). apply N.
      intros r' Hr'. apply Ha. apply in_or_app. now left.
    + now apply road_row_fills_gap.
  - intros [r'|r'] Hi.
    + apply Ha. apply in_or_app. now right.
    + now apply Hr.
Qed.

End WithDistance.

(** C5. After any sequence of air and road rows, from the empty graph:
    - the edge dictionary has one entry per ordered pair, and two stored
      edges with the same endpoints are one edge;
    - a pair for which an air row was ingested holds an air edge, wherever
      that row stood in the sequence, namely the edge of the last air row of
      that pair: no road row replaces it;
    - a pair for which only road rows were ingested holds the edge of the
      last of them: a road row fills an empty pair and replaces the road
      edge an earlier road row stored;
    - one more road row leaves every air edge untouched and replaces the
      road edge stored for its pair. *)
Theorem air_edges_outrank_road_edges :
  forall (haversine : Q -> Q -> Q -> Q -> Q) (country : string) (rows : list Ingest),
    let edges := snd (ingest_all haversine country rows) in
    NoDup (Dict.keys edges) /\
    (forall e1 e2, In e1 (Dict.values edges) -> In e2 (Dict.values edges) ->
                   from e1 = from e2 -> to e1 = to e2 -> e1 = e2) /\
    (forall r, In (AirRow r) rows ->
               exists e, edge_get edges (row_key r) = Some e /\ mode e = air) /\
    (forall pre r post,
       rows = pre ++ AirRow r :: post ->
       (forall r', In (AirRow r') post -> row_key r' <> row_key r) ->
       edge_get edges (row_key r) = Some (air_edge haversine country r)) /\
    (forall pre r post,
       rows = pre ++ RoadRow r :: post ->
       (forall r', In (AirRow r') rows -> row_key r' <> row_key r) ->
       (forall r', In (RoadRow r') post -> row_key r' <> row_key r) ->
       edge_get edges (row_key r) = Some (road_edge haversine country r)) /\
    (forall r k e, edge_get edges k = Some e -> mode e = air ->
       edge_get (snd (process_road haversine country (ingest_all haversine country rows) r)) k
         = Some e) /\
    (forall r e, edge_get edges (row_key r) = Some e -> mode e = road ->
       edge_get (snd (process_road haversine country (ingest_all haversine country rows) r))
                (row_key r)
         = Some (road_edge haversine country r)).
Proof.
  intros haversine country rows edges.
  destruct (@ingest_all_shape haversine country rows ([], [])) as [W Kd].
  { apply Dict.wf_nil. }
  { intros k e []. }
  fold (ingest_all haversine country rows) in W, Kd. fold edges in W, Kd.
  split; [exact W|]. split; [|split; [|split; [|split; [|split]]]].
  - intros e1 e2. now apply one_edge_per_pair.
  - intros r Hin. now apply air_row_wins.
  - intros pre r post E H. unfold edges. rewrite E.
    now apply last_air_row_is_stored.
  - intros pre r post E Ha Hr. unfold edges. rewrite E.
    apply last_road_row_is_stored; [|exact Hr].
    intros r' Hin. apply Ha. rewrite E.
    apply in_app_or in Hin. apply in_or_app.
    destruct Hin as [Hin|Hin]; [now left|right; now right].
  - intros r k e. apply road_row_keeps_air.
  - intros r e. apply road_row_overwrites_road.
Qed.

End UploadFacts.

(* ------------------------------------------------------------------ *)
(** * A worked upload *)

Module UploadExamples.

Import Graph Upload UploadFacts.
Open Scope Q_scope.

(** A stand-in for the great-circle distance. *)
Definition flat_distance : Q -> Q -> Q -> Q -> Q := fun _ _ _ _ => 100.

Definition row_ab : Row := mkRow " A" "B " 0 0 1 1.

Example row_ab_key : row_key row_ab = ("a", "b")%string.
Proof. reflexivity. Qed.

Example upload_air_and_road :
  option_map mode (edge_get (snd (upload flat_distance "US" [row_ab] [row_ab; row_ab]))
                            ("a", "b")%string)
  = Some air.
Proof. reflexivity. Qed.

Example road_replaces_road :
  option_map (fun e => (mode e, Qeq_bool (fuel e) 30))
    (edge_get (snd (upload flat_distance "US" [] [row_ab; row_ab])) ("a", "b")%string)
  = Some (road, true).
Proof. vm_compute. reflexivity. Qed.

(** The same pair with other coordinates. *)
Definition row_ab_moved : Row := mkRow "a" "b" 5 5 6 6.

Lemma air_edges_outrank_road_edges_at_mixed_rows :
  (exists e,
     edge_get (snd (ingest_all flat_distance "US"
                      [RoadRow row_ab; AirRow row_ab; RoadRow row_ab]))
              ("a", "b")%string = Some e /\
     mode e = air) /\
  edge_get (snd (ingest_all flat_distance "US"
                   [RoadRow row_ab; AirRow row_ab; RoadRow row_ab_moved]))
           ("a", "b")%string = Some (air_edge flat_distance "US" row_ab) /\
  edge_get (snd (ingest_all flat_distance "US" [RoadRow row_ab; RoadRow row_ab_moved]))
           ("a", "b")%string = Some (road_edge flat_distance "US" row_ab_moved) /\
  road_edge flat_distance "US" row_ab_moved <> road_edge flat_distance "US" row_ab.
Proof.
  split; [|split; [|split]].
  - apply (proj1 (proj2 (proj2
             (air_edges_outrank_road_edges flat_distance "US"
                [RoadRow row_ab; AirRow row_ab; RoadRow row_ab]))) row_ab).
    right. left. reflexivity.
  - apply (proj1 (proj2 (proj2 (proj2
             (air_edges_outrank_road_edges flat_distance "US"
                [RoadRow row_ab; AirRow row_ab; RoadRow row_ab_moved]))))
             [RoadRow row_ab] row_ab [RoadRow row_ab_moved]).
    + reflexivity.
    + intros r' [E|[]]. discriminate E.
  - apply (proj1 (proj2 (proj2 (proj2 (proj2
             (air_edges_outrank_road_edges flat_distance "US"
                [RoadRow row_ab; RoadRow row_ab_moved])))))
             [RoadRow row_ab] row_ab_moved []).
    + reflexivity.
    + intros r' [E|[E|[]]]; discriminate E.
    + intros r' [].
  - vm_compute. discriminate.
Defined.

End UploadExamples.

(* ------------------------------------------------------------------ *)
(** * Properties of the Path Optimizer *)

Module PathFacts.

Import Graph PathOptimizer.
Open Scope Q_scope.

(** ** Sorting by (origin, destination) *)

Lemma compare_refl (s : string) : String.compare s s = Eq.
Proof.
  pose proof (String.compare_antisym s s) as A.
  destruct (String.compare s s); [reflexivity|discriminate|discriminate].
Qed.

Lemma ltb_irrefl (s : string) : (s <? s)%string = false.
Proof. unfold String.ltb. now rewrite compare_refl. Qed.

Lemma ltb_asym (s t : string) : (s <? t)%string = true -> (t <? s)%string = false.
Proof.
  unfold String.ltb. rewrite (String.compare_antisym s t).
  now destruct (String.compare t s).
Qed.

Lemma key_lt_asym a b : key_lt a b = true -> key_lt b a = false.
Proof.
  unfold key_lt. intro H. apply orb_true_iff in H. destruct H as [L|H].
  - rewrite (ltb_asym _ _ L). cbn [orb].
    destruct (from b =? from a)%string eqn:E; [|reflexivity].
    apply String.eqb_eq in E. rewrite E, ltb_irrefl in L. discriminate.
  - apply andb_true_iff in H. destruct H as [E L].
    apply String.eqb_eq in E. rewrite E, ltb_irrefl, String.eqb_refl.
    cbn [orb andb]. now apply ltb_asym.
Qed.

Lemma insert_perm x l : Permutation (insert x l) (x :: l).
Proof.
  induction l as [|y r IH]; cbn [insert]; [reflexivity|].
  destruct (key_lt y x); [|reflexivity].
  rewrite IH. apply perm_swap.
Qed.

Lemma sorted_perm l : Permutation (sorted l) l.
Proof.
  induction l as [|x l IH]; cbn [sorted fold_right]; [reflexivity|].
  fold (sorted l). rewrite insert_perm. now constructor.
Qed.

Lemma insert_sorted x l : Sorted key_le l -> Sorted key_le (insert x l).
Proof.
  induction 1 as [|y r Hs IH Hhd]; cbn [insert].
  - repeat constructor.
  - destruct (key_lt y x) eqn:E.
    + constructor; [exact IH|].
      destruct r as [|z r]; cbn [insert].
      * constructor. unfold key_le. now apply key_lt_asym.
      * destruct (key_lt z x); constructor.
        -- now inversion Hhd.
        -- unfold key_le. now apply key_lt_asym.
    + constructor; [now constructor|]. constructor. exact E.
Qed.

Lemma sorted_sorted l : Sorted key_le (sorted l).
Proof.
  induction l as [|x l IH]; cbn [sorted fold_right]; [constructor|].
  now apply insert_sorted.
Qed.

Lemma sorted_nil_iff l : sorted l = [] <-> l = [].
Proof.
  split; [|now intros ->].
  intro E. pose proof (sorted_perm l) as P. rewrite E in P.
  now apply Permutation_nil in P.
Qed.

(** ** What a call returns *)

Lemma optimize_cases solve nodes edges start end_ objective via :
  let model := build_model nodes edges start end_ objective via in
  (optimize solve nodes edges start end_ objective via = [] /\
   forall x, solve model <> Lp.Solved 1 x) \/
  (exists x, solve model = Lp.Solved 1 x /\
             optimize solve nodes edges start end_ objective via
               = sorted (selected edges x)).
Proof.
  cbv zeta. unfold optimize.
  destruct (solve (build_model nodes edges start end_ objective via)) as [|status x].
  - left. split; [reflexivity|discriminate].
  - destruct (status =? 1)%Z eqn:E.
    + apply Z.eqb_eq in E. subst. right. now exists x.
    + left. split; [reflexivity|]. intros y H. inversion H; subst. discriminate.
Qed.

Lemma route_model_wf nodes edges start end_ objective via :
  Lp.wf (build_model nodes edges start end_ objective via).
Proof.
  assert (Fin : forall n k c, In (k, c) (inflow edges n) -> In k (Dict.keys edges)).
  { intros n k c H. unfold inflow in H. apply in_map_iff in H.
    destruct H as [k' [E H]]. inversion E; subst. now apply filter_In in H. }
  assert (Fout : forall n k c, In (k, c) (outflow edges n) -> In k (Dict.keys edges)).
  { intros n k c H. unfold outflow in H. apply in_map_iff in H.
    destruct H as [k' [E H]]. inversion E; subst. now apply filter_In in H. }
  assert (Fsub : forall a b k c,
             (forall k c, In (k, c) a -> In k (Dict.keys edges)) ->
             (forall k c, In (k, c) b -> In k (Dict.keys edges)) ->
             In (k, c) (Lp.sub a b) -> In k (Dict.keys edges)).
  { intros a b k c Ha Hb H. unfold Lp.sub in H. apply in_app_or in H.
    destruct H as [H|H]; [now apply (Ha k c)|].
    unfold Lp.neg in H. apply in_map_iff in H. destruct H as [[k' c'] [E H]].
    inversion E; subst. cbn [fst]. exact (Hb _ _ H). }
  split.
  - intros k c H. cbn [build_model Lp.objective Lp.variables] in *.
    apply in_map_iff in H. destruct H as [[k' e] [E H]]. inversion E; subst.
    unfold Dict.keys. now apply (in_map fst) in H.
  - cbn [build_model Lp.constraints Lp.variables]. apply Forall_app. split.
    + apply Forall_forall. intros c Hc. apply in_map_iff in Hc.
      destruct Hc as [n [<- _]]. unfold flow_constraint.
      destruct (n =? start)%string; [|destruct (n =? end_)%string];
        cbn [Lp.lhs]; intros k c; apply Fsub; auto; apply Fin || apply Fout.
    + apply Forall_forall. intros c Hc. apply in_map_iff in Hc.
      destruct Hc as [n [<- _]]. unfold via_constraint. cbn [Lp.lhs].
      intros k c. apply Fin.
Qed.

(** ** Counting the selected edges that enter a node *)

Lemma unit_terms_count x (ks : list Key) :
  Lp.binary x ks ->
  Lp.value x (map (fun k => (k, 1)) ks)
    == inject_Z (Z.of_nat (List.length (filter (fun k => Qeq_bool (x k) 1) ks))).
Proof.
  induction ks as [|k ks IH]; intro B; [reflexivity|].
  cbn [map]. rewrite Lp.value_cons, IH by (intros k' Hk'; apply B; now right).
  cbn [filter].
  destruct (B k (or_introl eq_refl)) as [Z0|Z1].
  - assert (E : Qeq_bool (x k) 1 = false).
    { destruct (Qeq_bool (x k) 1) eqn:E; [|reflexivity].
      apply Qeq_bool_iff in E. rewrite Z0 in E. discriminate. }
    rewrite E, Z0. lra.
  - assert (E : Qeq_bool (x k) 1 = true) by now apply Qeq_bool_iff.
    rewrite E, Z1. cbn [List.length]. rewrite Nat2Z.inj_succ.
    unfold Z.succ. rewrite inject_Z_plus. change (inject_Z 1) with 1. lra.
Qed.

Lemma selected_inflow_count (edges : Edges) (x : Key -> Q) (v : string) :
  keyed edges ->
  route_inflow (selected edges x) v =
    List.length (filter (fun k => Qeq_bool (x k) 1)
                   (filter (fun k : Key => (snd k =? v)%string) (Dict.keys edges))).
Proof.
  unfold route_inflow, selected, Dict.keys.
  induction edges as [|[k e] rest IH]; intro Kd; [reflexivity|].
  assert (Kr : keyed rest) by (intros k' e' H; apply Kd; now right).
  specialize (IH Kr).
  assert (Ek : snd k = to e) by (rewrite (Kd k e (or_introl eq_refl)); reflexivity).
  cbn [map filter fst snd]. rewrite Ek.
  destruct (Qeq_bool (x k) 1) eqn:Ex; cbn [map filter snd].
  - destruct (to e =? v)%string; cbn [filter List.length].
    + rewrite Ex. cbn [List.length]. now rewrite IH.
    + exact IH.
  - destruct (to e =? v)%string; cbn [filter].
    + rewrite Ex. exact IH.
    + exact IH.
Qed.

Lemma route_inflow_perm r1 r2 v :
  Permutation r1 r2 -> route_inflow r1 v = route_inflow r2 v.
Proof.
  intro P. unfold route_inflow. apply Permutation_length.
  induction P as [|x l l' _ IH|x y l|l l' l'' _ IH1 _ IH2]; cbn [filter].
  - constructor.
  - destruct (to x =? v)%string; [now constructor|exact IH].
  - destruct (to x =? v)%string, (to y =? v)%string;
      try reflexivity. apply perm_swap.
  - now transitivity (filter (fun e => (to e =? v)%string) l').
Qed.



(** ** Flow balance over the whole graph *)

(** Net flow into a node under a solution, and what the constraint of the
    node asks it to be. *)
Definition net (edges : Edges) (x : Key -> Q) (n : string) : Q :=
  Lp.value x (inflow edges n) - Lp.value x (outflow edges n).

Definition demand (start end_ n : string) : Q :=
  if (n =? start)%string then - (1)
  else if (n =? end_)%string then 1
  else 0.

Lemma flow_constraint_net edges start end_ x n :
  Lp.satisfies x (flow_constraint edges start end_ n) ->
  net edges x n == demand start end_ n.
Proof.
  unfold flow_constraint, demand, net, Lp.satisfies.
  destruct (n =? start)%string; [|destruct (n =? end_)%string];
    cbn [Lp.sense Lp.lhs Lp.rhs]; rewrite Lp.value_sub; intro H; lra.
Qed.

Lemma Qsum_map_ext (A : Type) (f g : A -> Q) (l : list A) :
  (forall a, In a l -> f a == g a) ->
  PyNum.Qsum (map f l) == PyNum.Qsum (map g l).
Proof.
  induction l as [|a l IH]; intro E; [reflexivity|].
  cbn [map PyNum.Qsum fold_right].
  fold (PyNum.Qsum (map f l)). fold (PyNum.Qsum (map g l)).
  rewrite IH by (intros b Hb; apply E; now right).
  rewrite (E a) by now left. reflexivity.
Qed.

Lemma Qsum_map_plus (A : Type) (f g : A -> Q) (l : list A) :
  PyNum.Qsum (map (fun a => f a + g a) l)
    == PyNum.Qsum (map f l) + PyNum.Qsum (map g l).
Proof.
  induction l as [|a l IH]; cbn [map PyNum.Qsum fold_right]; [lra|].
  fold (PyNum.Qsum (map (fun a => f a + g a) l)).
  fold (PyNum.Qsum (map f l)). fold (PyNum.Qsum (map g l)).
  rewrite IH. lra.
Qed.

Lemma Qsum_map_zero (A : Type) (l : list A) : PyNum.Qsum (map (fun _ => 0) l) == 0.
Proof.
  induction l as [|a l IH]; cbn [map PyNum.Qsum fold_right]; [lra|].
  fold (PyNum.Qsum (map (fun _ : A => 0) l)). rewrite IH. lra.
Qed.

(** A quantity attached to one name is met once along a list of distinct
    names that has it, and never along one that has not. *)
Lemma Qsum_single (l : list string) (s : string) (c : Q) :
  NoDup l ->
  PyNum.Qsum (map (fun n => if (s =? n)%string then c else 0) l)
    == if in_dec string_dec s l then c else 0.
Proof.
  induction 1 as [|n l Hn Hd IH]; [reflexivity|].
  cbn [map PyNum.Qsum fold_right].
  fold (PyNum.Qsum (map (fun n => if (s =? n)%string then c else 0) l)).
  rewrite IH. destruct (s =? n)%string eqn:E.
  - apply String.eqb_eq in E. subst n.
    destruct (in_dec string_dec s l) as [Hin|_]; [contradiction|].
    destruct (in_dec string_dec s (s :: l)) as [_|N]; [lra|].
    exfalso. apply N. now left.
  - apply String.eqb_neq in E.
    destruct (in_dec string_dec s l) as [Hin|Hout].
    + destruct (in_dec string_dec s (n :: l)) as [_|N]; [lra|].
      exfalso. apply N. now right.
    + destruct (in_dec string_dec s (n :: l)) as [[Hs|Hs]|_]; [congruence|contradiction|lra].
Qed.

Definition total_flow (x : Key -> Q) (ks : list Key) : Q := PyNum.Qsum (map x ks).

(** Summed over the nodes, the inflows count every edge whose head is a node
    once; likewise the outflows and the tails. *)
Lemma inflow_sum x (names : list string) (ks : list Key) :
  NoDup names -> (forall k, In k ks -> In (snd k) names) ->
  PyNum.Qsum (map (fun n => Lp.value x (map (fun k => (k, 1))
                    (filter (fun k : Key => (snd k =? n)%string) ks))) names)
    == total_flow x ks.
Proof.
  intros Hd. induction ks as [|k ks IH]; intro Hin.
  - cbn [filter map]. apply Qsum_map_zero.
  - rewrite (@Qsum_map_ext _ _
      (fun n => (if (snd k =? n)%string then x k else 0)
                + Lp.value x (map (fun k => (k, 1))
                    (filter (fun k : Key => (snd k =? n)%string) ks)))).
    + rewrite Qsum_map_plus, IH by (intros k' Hk'; apply Hin; now right).
      rewrite (Qsum_single (snd k) (x k) Hd).
      destruct (in_dec string_dec (snd k) names) as [_|N].
      * unfold total_flow. cbn [map PyNum.Qsum fold_right]. reflexivity.
      * exfalso. apply N, Hin. now left.
    + intros n _. cbn [filter]. destruct (snd k =? n)%string.
      * cbn [map]. rewrite Lp.value_cons. lra.
      * lra.
Qed.

Lemma outflow_sum x (names : list string) (ks : list Key) :
  NoDup names -> (forall k, In k ks -> In (fst k) names) ->
  PyNum.Qsum (map (fun n => Lp.value x (map (fun k => (k, 1))
                    (filter (fun k : Key => (fst k =? n)%string) ks))) names)
    == total_flow x ks.
Proof.
  intros Hd. induction ks as [|k ks IH]; intro Hin.
  - cbn [filter map]. apply Qsum_map_zero.
  - rewrite (@Qsum_map_ext _ _
      (fun n => (if (fst k =? n)%string then x k else 0)
                + Lp.value x (map (fun k => (k, 1))
                    (filter (fun k : Key => (fst k =? n)%string) ks)))).
    + rewrite Qsum_map_plus, IH by (intros k' Hk'; apply Hin; now right).
      rewrite (Qsum_single (fst k) (x k) Hd).
      destruct (in_dec string_dec (fst k) names) as [_|N].
      * unfold total_flow. cbn [map PyNum.Qsum fold_right]. reflexivity.
      * exfalso. apply N, Hin. now left.
    + intros n _. cbn [filter]. destruct (fst k =? n)%string.
      * cbn [map]. rewrite Lp.value_cons. lra.
      * lra.
Qed.

Lemma net_sum_zero (nodes : Nodes) (edges : Edges) x :
  closed nodes edges -> Dict.wf nodes ->
  PyNum.Qsum (map (net edges x) (Dict.keys nodes)) == 0.
Proof.
  intros C W. unfold net.
  rewrite (@Qsum_map_ext _ _
    (fun n => Lp.value x (inflow edges n) + - Lp.value x (outflow edges n)))
    by (intros; lra).
  rewrite Qsum_map_plus.
  assert (O : PyNum.Qsum (map (fun n => - Lp.value x (outflow edges n)) (Dict.keys nodes))
              == - total_flow x (Dict.keys edges)).
  { rewrite <- (@outflow_sum x (Dict.keys nodes) (Dict.keys edges) W)
      by (intros k Hk; now apply C).
    generalize (Dict.keys nodes). intro l. unfold outflow.
    induction l as [|n l IH]; cbn [map PyNum.Qsum fold_right]; [lra|].
    fold (PyNum.Qsum (map (fun n => - Lp.value x (map (fun k => (k, 1))
            (filter (fun k : Key => (fst k =? n)%string) (Dict.keys edges)))) l)).
    fold (PyNum.Qsum (map (fun n => Lp.value x (map (fun k => (k, 1))
            (filter (fun k : Key => (fst k =? n)%string) (Dict.keys edges)))) l)).
    rewrite IH. lra. }
  rewrite O. unfold inflow.
  rewrite (@inflow_sum x (Dict.keys nodes) (Dict.keys edges) W)
    by (intros k Hk; now apply C).
  lra.
Qed.

Lemma node_mem_in (nodes : Nodes) n : node_mem nodes n = true <-> In n (Dict.keys nodes).
Proof.
  unfold node_mem, Dict.mem.
  destruct (Dict.get String.eqb nodes n) as [c|] eqn:G.
  - split; [intros _|reflexivity].
    apply (@Dict.get_in _ _ String.eqb String.eqb_eq) in G.
    change n with (fst (n, c)). now apply in_map.
  - split; [discriminate|]. intro Hin.
    apply (@Dict.get_none _ _ String.eqb String.eqb_eq) in G. contradiction.
Qed.

(** With every endpoint among the nodes, a model that has exactly one of
    [start] and [end_] among its nodes has no feasible point. *)
Lemma one_missing_endpoint_infeasible nodes edges start end_ objective via x :
  closed nodes edges -> Dict.wf nodes ->
  node_mem nodes start <> node_mem nodes end_ ->
  ~ Lp.feasible (build_model nodes edges start end_ objective via) x.
Proof.
  intros C W Hone [_ S].
  cbn [build_model Lp.constraints] in S. apply Forall_app in S. destruct S as [S _].
  rewrite Forall_forall in S.
  assert (N : PyNum.Qsum (map (net edges x) (Dict.keys nodes))
              == PyNum.Qsum (map (demand start end_) (Dict.keys nodes))).
  { apply Qsum_map_ext. intros n Hn. apply flow_constraint_net. apply S.
    now apply in_map. }
  rewrite (net_sum_zero x C W) in N.
  destruct (node_mem nodes start) eqn:Ms, (node_mem nodes end_) eqn:Me;
    try now contradiction Hone.
  - (* start is a node, end_ is not *)
    apply node_mem_in in Ms.
    assert (Ne : ~ In end_ (Dict.keys nodes)).
    { intro H. apply node_mem_in in H. congruence. }
    rewrite (@Qsum_map_ext _ _ (fun n => if (start =? n)%string then - (1) else 0)) in N.
    + rewrite (Qsum_single start (- (1)) W) in N.
      destruct (in_dec string_dec start (Dict.keys nodes)); [lra|contradiction].
    + intros n Hn. unfold demand. rewrite (String.eqb_sym start n).
      destruct (n =? start)%string; [reflexivity|].
      destruct (n =? end_)%string eqn:E; [|reflexivity].
      apply String.eqb_eq in E. subst. contradiction.
  - (* end_ is a node, start is not *)
    apply node_mem_in in Me.
    assert (Ns : ~ In start (Dict.keys nodes)).
    { intro H. apply node_mem_in in H. congruence. }
    rewrite (@Qsum_map_ext _ _ (fun n => if (end_ =? n)%string then 1 else 0)) in N.
    + rewrite (Qsum_single end_ 1 W) in N.
      destruct (in_dec string_dec end_ (Dict.keys nodes)); [lra|contradiction].
    + intros n Hn. unfold demand. rewrite (String.eqb_sym end_ n).
      destruct (n =? start)%string eqn:E.
      * apply String.eqb_eq in E. subst. contradiction.
      * reflexivity.
Qed.

(** ** Both endpoints missing *)

Lemma value_zero (e : Lp.LpAffineExpression Key) : Lp.value (fun _ => 0) e == 0.
Proof.
  induction e as [|[k c] e IH]; [reflexivity|].
  rewrite Lp.value_cons, IH. lra.
Qed.

(** Without [start], [end_] and via nodes, selecting nothing is feasible. *)
Lemma nothing_selected_feasible nodes edges start end_ objective via :
  node_mem nodes start = false -> node_mem nodes end_ = false ->
  via_truthy via = false ->
  Lp.feasible (build_model nodes edges start end_ objective via) (fun _ => 0).
Proof.
  intros Ms Me Hv. split; [intros k _; now left|].
  cbn [build_model Lp.constraints]. unfold via_nodes. rewrite Hv. cbn [map].
  rewrite app_nil_r. apply Forall_forall. intros c Hc.
  apply in_map_iff in Hc. destruct Hc as [n [<- Hn]].
  apply node_mem_in in Hn. unfold flow_constraint.
  destruct (n =? start)%string eqn:Es.
  { apply String.eqb_eq in Es. subst. congruence. }
  destruct (n =? end_)%string eqn:Ee.
  { apply String.eqb_eq in Ee. subst. congruence. }
  unfold Lp.satisfies. cbn [Lp.sense Lp.lhs Lp.rhs]. apply value_zero.
Qed.

Definition objective_terms (objective : string) (edges : Edges) : Lp.LpAffineExpression Key :=
  map (fun ke : Key * Edge => (fst ke, weight objective (snd ke))) edges.

Lemma objective_nonneg objective (edges : Edges) x :
  Lp.binary x (Dict.keys edges) ->
  (forall e, In e (Dict.values edges) -> 0 < weight objective e) ->
  0 <= Lp.value x (objective_terms objective edges).
Proof.
  induction edges as [|[k e] rest IH]; intros B Hw; [cbn; lra|].
  unfold objective_terms. cbn [map fst snd]. fold (objective_terms objective rest).
  rewrite Lp.value_cons.
  assert (Hr : 0 <= Lp.value x (objective_terms objective rest)).
  { apply IH; [intros k' Hk'; apply B; now right|intros e' He'; apply Hw; now right]. }
  assert (He : 0 < weight objective e) by (apply Hw; now left).
  destruct (B k (or_introl eq_refl)) as [Z0|Z1].
  - rewrite Z0. lra.
  - rewrite Z1. lra.
Qed.

(** At positive weights a solution of cost at most zero selects nothing. *)
Lemma free_solution_selects_nothing objective (edges : Edges) x :
  Lp.binary x (Dict.keys edges) ->
  (forall e, In e (Dict.values edges) -> 0 < weight objective e) ->
  Lp.value x (objective_terms objective edges) <= 0 ->
  selected edges x = [].
Proof.
  induction edges as [|[k e] rest IH]; intros B Hw Hv; [reflexivity|].
  unfold objective_terms in Hv. cbn [map fst snd] in Hv.
  fold (objective_terms objective rest) in Hv. rewrite Lp.value_cons in Hv.
  assert (Br : Lp.binary x (Dict.keys rest)) by (intros k' Hk'; apply B; now right).
  assert (Hwr : forall e', In e' (Dict.values rest) -> 0 < weight objective e')
    by (intros e' He'; apply Hw; now right).
  pose proof (objective_nonneg objective rest Br Hwr) as Hr.
  assert (He : 0 < weight objective e) by (apply Hw; now left).
  unfold selected. cbn [filter fst].
  destruct (B k (or_introl eq_refl)) as [Z0|Z1].
  - assert (E : Qeq_bool (x k) 1 = false).
    { destruct (Qeq_bool (x k) 1) eqn:E; [|reflexivity].
      apply Qeq_bool_iff in E. rewrite Z0 in E. discriminate. }
    rewrite E. apply IH; try assumption. rewrite Z0 in Hv. lra.
  - exfalso. rewrite Z1 in Hv. lra.
Qed.

(** The route depends on the solution only through the tests
    [varValue == 1]. *)
Lemma selected_ext (edges : Edges) x y :
  (forall k, In k (Dict.keys edges) -> Qeq_bool (x k) 1 = Qeq_bool (y k) 1) ->
  selected edges x = selected edges y.
Proof.
  intro E. unfold selected. f_equal. apply filter_ext_in.
  intros [k e] Hin. cbn [fst]. apply E.
  change k with (fst (k, e)). now apply in_map.
Qed.

(** C8 (as amended). With a sound solver, [optimize] returns the empty
    result when the solver raises, when the model has no feasible point,
    when exactly one of [start] and [end_] is missing from a node set that
    holds every edge endpoint, and when both are missing, no via node is
    given and every edge weight is positive.  A result that is not empty is
    the list of the edges selected by an optimal solution, sorted by
    (origin, destination). *)
Theorem optimize_failure_is_the_empty_route :
  forall (solve : Lp.LpProblem Key -> Lp.Outcome Key),
    Lp.sound solve ->
    forall (nodes : Nodes) (edges : Edges) (start end_ objective : string)
           (via : option Via),
      let model := build_model nodes edges start end_ objective via in
      let route := optimize solve nodes edges start end_ objective via in
      (solve model = Lp.Raised -> route = []) /\
      ((forall x, ~ Lp.feasible model x) -> route = []) /\
      (closed nodes edges -> Dict.wf nodes ->
       node_mem nodes start <> node_mem nodes end_ -> route = []) /\
      (node_mem nodes start = false -> node_mem nodes end_ = false ->
       via_truthy via = false ->
       (forall e, In e (Dict.values edges) -> 0 < weight objective e) ->
       route = []) /\
      (route <> [] ->
       exists x, solve model = Lp.Solved 1 x /\ Lp.optimal model x /\
                 Permutation route (selected edges x) /\ Sorted key_le route).
Proof.
  intros solve Sound nodes edges start end_ objective via model route.
  pose proof (route_model_wf nodes edges start end_ objective via) as W.
  fold model in W.
  assert (Infeasible : (forall x, ~ Lp.feasible model x) -> route = []).
  { intro N.
    destruct (optimize_cases solve nodes edges start end_ objective via)
      as [[E _]|[x [Hs _]]]; [exact E|].
    exfalso. apply (N x). now destruct (Sound _ _ W Hs). }
  split; [|split; [|split; [|split]]].
  - intro R. unfold route, optimize. fold model. now rewrite R.
  - exact Infeasible.
  - intros C Wn Hone. apply Infeasible. intro x.
    now apply one_missing_endpoint_infeasible.
  - intros Ms Me Hv Hw.
    destruct (optimize_cases solve nodes edges start end_ objective via)
      as [[E _]|[x [Hs E]]]; [exact E|].
    unfold route. rewrite E. apply sorted_nil_iff.
    destruct (Sound _ _ W Hs) as [[B S] Opt].
    apply (free_solution_selects_nothing objective); [exact B|exact Hw|].
    pose proof (Opt _ (nothing_selected_feasible nodes edges start end_ objective via
                          Ms Me Hv)) as Le.
    cbn [model build_model Lp.objective] in Le.
    fold (objective_terms objective edges) in Le.
    rewrite value_zero in Le. exact Le.
  - intro Hne.
    destruct (optimize_cases solve nodes edges start end_ objective via)
      as [[E _]|[x [Hs E]]]; [now contradiction Hne|].
    exists x. split; [exact Hs|]. split; [exact (Sound _ _ W Hs)|].
    unfold route. rewrite E. split; [apply sorted_perm|apply sorted_sorted].
Qed.

(** ** Routes that every exact solver must return *)

Lemma feasible_by_check (p : Lp.LpProblem Key) (x : Key -> Q) :
  Lp.binary x (Lp.variables p) ->
  forallb (Lp.holds x) (Lp.constraints p) = true ->
  Lp.feasible p x.
Proof.
  intros B H. split; [exact B|]. rewrite forallb_forall in H.
  apply Forall_forall. intros c Hc. apply Lp.holds_iff. now apply H.
Qed.

(** When taking every edge is feasible and every feasible point takes every
    edge, an exact solver returns all the edges, sorted. *)
Lemma forced_route solve nodes edges start end_ objective via :
  Lp.exact solve ->
  let model := build_model nodes edges start end_ objective via in
  Lp.feasible model (fun _ => 1) ->
  (forall x, Lp.feasible model x ->
             forall k, In k (Dict.keys edges) -> Qeq_bool (x k) 1 = true) ->
  optimize solve nodes edges start end_ objective via = sorted (Dict.values edges).
Proof.
  intros [Sound Complete] model F All.
  pose proof (route_model_wf nodes edges start end_ objective via) as W.
  fold model in W.
  destruct (Complete _ W (ex_intro _ _ F)) as [x Hs].
  destruct (Sound _ _ W Hs) as [Fx _].
  unfold optimize. fold model. rewrite Hs. cbn [Z.eqb Pos.eqb].
  rewrite (@selected_ext edges x (fun _ => 1)).
  - f_equal. unfold selected, Dict.values. f_equal.
    clear. induction edges as [|ke rest IH]; [reflexivity|].
    cbn [filter]. now rewrite IH.
  - intros k Hk. now rewrite (All x Fx k Hk).
Qed.

End PathFacts.

(* ------------------------------------------------------------------ *)
(** * Worked routes *)

Module PathExamples.

Import Graph PathOptimizer PathFacts.
Open Scope Q_scope.

Definition reference_route_solve : Lp.LpProblem Key -> Lp.Outcome Key :=
  Lp.enumerate_solve PyStr.pair_eqb.

Lemma reference_route_solve_exact : Lp.exact reference_route_solve.
Proof. apply Lp.enumerate_solve_exact. apply PyStr.pair_eqb_eq. Qed.

Definition link (a b : string) (m : Mode) (d t f : Q) : Key * Edge :=
  ((a, b), mkEdge a b m d t f 0 0 0 0 [(0, 0); (0, 0)]).

(** The three-node network of the specification's scenario. *)
Definition abc_nodes : Nodes := [("a", (0, 0)); ("b", (0, 0)); ("c", (0, 0))]%string.
Definition abc_edges : Edges :=
  [link "a" "b" road 100 2 50; link "b" "c" road 150 3 75; link "a" "c" air 300 1 200].

Example abc_by_cost :
  map (fun e => (from e, to e)) (optimize reference_route_solve abc_nodes abc_edges "a" "c" "cost" None)
  = [("a", "b"); ("b", "c")]%string.
Proof. vm_compute. reflexivity. Qed.

Example abc_by_time :
  map (fun e => (from e, to e)) (optimize reference_route_solve abc_nodes abc_edges "a" "c" "time" None)
  = [("a", "c")]%string.
Proof. vm_compute. reflexivity. Qed.

(** Two nodes joined in both directions. *)
Definition ring_nodes : Nodes := [("a", (0, 0)); ("b", (0, 0))]%string.
Definition ring_edges : Edges :=
  [link "a" "b" road 100 2 50; link "b" "a" road 100 2 50].

(** Neither "x" nor "y" is a node, and "a" is required as a via node: the
    only feasible selection is the cycle through "a". *)
Lemma ring_forced solve :
  Lp.exact solve ->
  optimize solve ring_nodes ring_edges "x" "y" "cost" (Some (via_node "a"))
    = sorted (Dict.values ring_edges).
Proof.
  intro Ex. apply forced_route; [exact Ex| |].
  - apply feasible_by_check; [intros k _; now right|reflexivity].
  - intros x [B S] k Hk.
    cbv [build_model Lp.constraints ring_nodes ring_edges link Dict.keys map fst snd
         flow_constraint via_constraint via_nodes via_truthy inflow outflow filter
         app negb String.eqb Ascii.eqb Bool.eqb Lp.sub Lp.neg] in S.
    inversion S as [|c1 r1 S1 T1]; subst. inversion T1 as [|c2 r2 S2 T2]; subst.
    inversion T2 as [|c3 r3 S3 _]; subst.
    unfold Lp.satisfies in S1, S2, S3. cbn [Lp.sense Lp.lhs Lp.rhs] in S1, S2, S3.
    unfold Lp.value in S1, S2, S3. cbn [fold_right fst snd] in S1, S2, S3.
    apply Qeq_bool_iff. cbv [Dict.keys ring_edges link map fst] in Hk.
    destruct Hk as [<-|[<-|[]]]; lra.
Qed.

Example ring_route :
  map (fun e => (from e, to e))
      (optimize reference_route_solve ring_nodes ring_edges "x" "y" "cost" (Some (via_node "a")))
  = [("a", "b"); ("b", "a")]%string.
Proof. vm_compute. reflexivity. Qed.

(** C8 as first stated fails here: neither endpoint is a node, yet no exact
    solver makes [optimize] return the empty result. *)
Lemma missing_endpoints_yet_a_route :
  node_mem ring_nodes "x" = false /\
  node_mem ring_nodes "y" = false /\
  ~ (exists solve : Lp.LpProblem Key -> Lp.Outcome Key,
        Lp.exact solve /\
        optimize solve ring_nodes ring_edges "x" "y" "cost" (Some (via_node "a")) = []).
Proof.
  split; [reflexivity|]. split; [reflexivity|].
  intros [solve [Ex E]]. rewrite (ring_forced Ex) in E.
  vm_compute in E. discriminate.
Qed.





Lemma abc_keyed : keyed abc_edges.
Proof.
  intros k e Hin. cbv [abc_edges link] in Hin.
  destruct Hin as [E|[E|[E|[]]]]; inversion E; reflexivity.
Qed.

Lemma abc_closed : closed abc_nodes abc_edges.
Proof.
  intros k Hk. cbv [abc_edges link Dict.keys map fst] in Hk.
  destruct Hk as [<-|[<-|[<-|[]]]]; cbv [abc_nodes Dict.keys map fst snd In]; tauto.
Qed.

Lemma abc_nodes_wf : Dict.wf abc_nodes.
Proof.
  unfold Dict.wf, Dict.keys, abc_nodes. cbn [map fst].
  repeat constructor; cbn [In]; intuition discriminate.
Qed.


Lemma optimize_failure_is_the_empty_route_at_abc :
  optimize reference_route_solve abc_nodes abc_edges "a" "z" "cost" None = [].
Proof.
  apply (proj1 (proj2 (proj2
           (@optimize_failure_is_the_empty_route reference_route_solve
              (proj1 reference_route_solve_exact) abc_nodes abc_edges "a" "z" "cost" None)))).
  - exact abc_closed.
  - exact abc_nodes_wf.
  - vm_compute. discriminate.
Defined.

End PathExamples.


(* ------------------------------------------------------------------ *)
(** * Properties of the Capacity Allocator *)

Module CapacityFacts.

Import Graph CapacityAllocator.
Open Scope Q_scope.

(** ** The loop and its record of loads *)

Lemma latest_snoc l a : latest (l ++ [a]) = later (latest l) a.
Proof. unfold latest. now rewrite fold_left_app. Qed.

(** Once an exception is raised the rest of the loop is not run. *)
Lemma walk_raised leg x available :
  fold_left (walk_step leg x) available Raises = Raises.
Proof. induction available as [|iv rest IH]; [reflexivity|exact IH]. Qed.

(** Whether the schedule of one of the recorded vehicles raises. *)
Definition raises_among (leg : Edge) (taken : list (Vehicle * Q)) : bool :=
  existsb (fun vl => schedule_raises leg (fst vl)) taken.

Lemma load_fold_prefix x available :
  forall taken remaining, exists more,
    fst (fold_left (load_step x) available (taken, remaining)) = taken ++ more.
Proof.
  induction available as [|[i v] rest IH]; intros taken remaining.
  - exists []. cbn [fold_left fst]. now rewrite app_nil_r.
  - cbn [fold_left]. unfold load_step at 2.
    destruct (Qeq_bool (x i) 1 && PyNum.Qgtb remaining 0).
    + cbv zeta.
      destruct (IH (taken ++ [(v, PyNum.py_min (capacity_kg v) remaining)])
                   (remaining - PyNum.py_min (capacity_kg v) remaining)) as [more E].
      exists ((v, PyNum.py_min (capacity_kg v) remaining) :: more).
      rewrite E, <- app_assoc. reflexivity.
    + apply IH.
Qed.

Lemma walk_fold_loads leg x available :
  forall taken remaining,
    raises_among leg taken = false ->
    fold_left (walk_step leg x) available
      (Returns (map (entry_of leg) taken, remaining,
                latest (map (fun vl => arrival_of leg (fst vl)) taken)))
    = let (taken', remaining') := fold_left (load_step x) available (taken, remaining) in
      if raises_among leg taken' then Raises
      else Returns (map (entry_of leg) taken', remaining',
                    latest (map (fun vl => arrival_of leg (fst vl)) taken')).
Proof.
  induction available as [|[i v] rest IH]; intros taken remaining N.
  - cbn [fold_left]. now rewrite N.
  - cbn [fold_left]. unfold walk_step at 2, load_step at 2.
    destruct (Qeq_bool (x i) 1 && PyNum.Qgtb remaining 0).
    + cbv zeta. destruct (schedule_raises leg v) eqn:R.
      * rewrite walk_raised.
        destruct (load_fold_prefix x rest
                    (taken ++ [(v, PyNum.py_min (capacity_kg v) remaining)])
                    (remaining - PyNum.py_min (capacity_kg v) remaining)) as [more E].
        destruct (fold_left (load_step x) rest
                    (taken ++ [(v, PyNum.py_min (capacity_kg v) remaining)],
                     remaining - PyNum.py_min (capacity_kg v) remaining))
          as [taken' remaining'].
        cbn [fst] in E. subst taken'. unfold raises_among.
        rewrite !existsb_app. cbn [existsb fst]. rewrite R.
        now rewrite orb_true_r.
      * rewrite <- (IH (taken ++ [(v, PyNum.py_min (capacity_kg v) remaining)])).
        -- rewrite !map_app. cbn [map]. rewrite latest_snoc. reflexivity.
        -- unfold raises_among in *. rewrite existsb_app. cbn [existsb fst].
           now rewrite N, R.
    + now apply IH.
Qed.

(** The loop raises when the schedule of a recorded vehicle does; otherwise
    the entries of the result are the recorded loads, rendered. *)
Lemma walk_as_loads leg x available total :
  walk leg x available total =
    if raises_among leg (walk_loads x available total) then Raises
    else Returns
           (map (entry_of leg) (walk_loads x available total),
            snd (fold_left (load_step x) available ([], total)),
            latest (map (fun vl => arrival_of leg (fst vl)) (walk_loads x available total))).
Proof.
  unfold walk, walk_loads.
  pose proof (walk_fold_loads leg x available [] total eq_refl) as H.
  cbn [map] in H. change (latest []) with (@None PyTime.datetime) in H.
  rewrite H. now destruct (fold_left (load_step x) available ([], total)).
Qed.

(** What a returned assignment is made of; no vehicle it lists has a
    schedule that raises. *)
Lemma assignment_inversion_schedule solve df leg total objective a :
  assign_vehicles_for_leg solve df leg total objective = Returns (Some a) ->
  let available := available_at df (PyStr.lower (from leg)) in
  exists x,
    available <> [] /\
    solve (build_model available leg total objective) = Lp.Solved 1 x /\
    a = mkAssignment (from leg) (to leg)
          (map (entry_of leg) (walk_loads x available total))
          (distance leg) (time leg)
          (option_map PyTime.strftime_HM
             (latest (map (fun vl => arrival_of leg (fst vl))
                        (walk_loads x available total)))) /\
    Forall (fun vl => schedule_raises leg (fst vl) = false)
           (walk_loads x available total).
Proof.
  intros H. cbv zeta. unfold assign_vehicles_for_leg in H.
  destruct (available_at df (PyStr.lower (from leg))) as [|iv rest] eqn:Ea;
    [discriminate|].
  destruct (solve (build_model (iv :: rest) leg total objective)) as [|status x] eqn:Es;
    [discriminate|].
  destruct (status =? 1)%Z eqn:E1; cbn [negb] in H; [|discriminate].
  apply Z.eqb_eq in E1. subst status.
  rewrite walk_as_loads in H.
  destruct (raises_among leg (walk_loads x (iv :: rest) total)) eqn:R; [discriminate|].
  exists x. split; [discriminate|]. split; [reflexivity|].
  split; [now injection H as <-|].
  apply Forall_forall. intros vl Hvl.
  destruct (schedule_raises leg (fst vl)) eqn:S; [|reflexivity].
  unfold raises_among in R.
  assert (T : existsb (fun vl => schedule_raises leg (fst vl))
                (walk_loads x (iv :: rest) total) = true).
  { apply existsb_exists. now exists vl. }
  congruence.
Qed.

Lemma assignment_inversion solve df leg total objective a :
  assign_vehicles_for_leg solve df leg total objective = Returns (Some a) ->
  let available := available_at df (PyStr.lower (from leg)) in
  exists x,
    available <> [] /\
    solve (build_model available leg total objective) = Lp.Solved 1 x /\
    a = mkAssignment (from leg) (to leg)
          (map (entry_of leg) (walk_loads x available total))
          (distance leg) (time leg)
          (option_map PyTime.strftime_HM
             (latest (map (fun vl => arrival_of leg (fst vl))
                        (walk_loads x available total)))).
Proof.
  intro H. destruct (assignment_inversion_schedule _ _ _ _ _ H) as (x & A & B & C & _).
  now exists x.
Qed.

(** The vehicles the loop records are vehicles of the list it walks. *)
Lemma load_fold_forall (P : Vehicle -> Prop) x available :
  Forall (fun iv => P (snd iv)) available ->
  forall st : list (Vehicle * Q) * Q,
    Forall (fun vl => P (fst vl)) (fst st) ->
    Forall (fun vl => P (fst vl)) (fst (fold_left (load_step x) available st)).
Proof.
  induction 1 as [|[i v] rest Hv _ IH]; intros [taken remaining] Ht; [exact Ht|].
  cbn [fold_left]. apply IH. unfold load_step.
  destruct (Qeq_bool (x i) 1 && PyNum.Qgtb remaining 0); [|exact Ht].
  cbv zeta. cbn [fst]. apply Forall_app. split; [exact Ht|]. now constructor.
Qed.

Lemma walk_loads_forall (P : Vehicle -> Prop) x available total :
  Forall (fun iv => P (snd iv)) available ->
  Forall (fun vl => P (fst vl)) (walk_loads x available total).
Proof.
  intro H. unfold walk_loads.
  apply (@load_fold_forall P x available H ([], total)). constructor.
Qed.

(** When no vehicle at the origin has a schedule that raises, the loop does
    not raise. *)
Lemma no_raise_among leg x available total :
  Forall (fun iv => schedule_raises leg (snd iv) = false) available ->
  raises_among leg (walk_loads x available total) = false.
Proof.
  intro H.
  pose proof (@walk_loads_forall (fun v => schedule_raises leg v = false)
                x available total H) as F.
  unfold raises_among. destruct (existsb _ _) eqn:E; [|reflexivity].
  apply existsb_exists in E. destruct E as [vl [Hin R]].
  rewrite Forall_forall in F. rewrite (F vl Hin) in R. discriminate.
Qed.

(** ** Loads against cargo and capacity *)

(** What holds of the recorded loads and the remaining cargo at every
    point of the loop. *)
Definition balanced (total : Q) (st : list (Vehicle * Q) * Q) : Prop :=
  let (taken, remaining) := st in
  remaining == total - PyNum.Qsum (loads taken) /\
  Forall (fun vl => snd vl <= capacity_kg (fst vl)) taken /\
  (0 < remaining -> PyNum.Qsum (loads taken) == PyNum.Qsum (capacities taken)) /\
  (taken <> [] -> 0 <= remaining).

Lemma Qsum_snoc l a : PyNum.Qsum (l ++ [a]) == PyNum.Qsum l + a.
Proof. rewrite PyNum.Qsum_app. simpl. lra. Qed.

Lemma balanced_step total x st iv :
  balanced total st -> balanced total (load_step x st iv).
Proof.
  destruct st as [taken remaining], iv as [i v]. unfold load_step.
  destruct (Qeq_bool (x i) 1 && PyNum.Qgtb remaining 0) eqn:C; [|trivial].
  apply andb_true_iff in C. destruct C as [_ Pos]. apply PyNum.Qgtb_true in Pos.
  intros (Hr & Hle & Hfull & Hnn). cbv zeta. unfold balanced, loads, capacities.
  rewrite !map_app. cbn [map fst snd]. rewrite !Qsum_snoc.
  fold (loads taken). fold (capacities taken).
  specialize (Hfull Pos).
  destruct (PyNum.py_min_cases (capacity_kg v) remaining) as [[Lt ->]|[Le ->]].
  - split; [|split; [|split]].
    + lra.
    + apply Forall_app. split; [assumption|]. constructor; [|constructor].
      cbn [fst snd]. lra.
    + intro P. lra.
    + intros _. lra.
  - split; [|split; [|split]].
    + lra.
    + apply Forall_app. split; [assumption|]. constructor; [|constructor].
      cbn [fst snd]. lra.
    + intros _. lra.
    + intros _. lra.
Qed.

Lemma balanced_fold total x available :
  forall st, balanced total st -> balanced total (fold_left (load_step x) available st).
Proof.
  induction available as [|iv rest IH]; intros st B; [exact B|].
  cbn [fold_left]. apply IH. now apply balanced_step.
Qed.

Lemma balanced_start total : balanced total ([], total).
Proof.
  unfold balanced, loads, capacities. cbn [map PyNum.Qsum fold_right].
  split; [|split; [|split]].
  - lra.
  - constructor.
  - intros _. reflexivity.
  - intro N. now contradiction N.
Qed.

Lemma balanced_min total taken remaining :
  balanced total (taken, remaining) -> taken <> [] ->
  PyNum.Qsum (loads taken) == Qmin total (PyNum.Qsum (capacities taken)).
Proof.
  intros (Hr & Hle & Hfull & Hnn) Hne. specialize (Hnn Hne).
  assert (Hsum : PyNum.Qsum (loads taken) <= PyNum.Qsum (capacities taken)).
  { clear - Hle. unfold loads, capacities.
    induction Hle as [|vl l Hvl _ IH]; simpl; lra. }
  destruct (Qlt_le_dec 0 remaining) as [Pos|NonPos].
  - specialize (Hfull Pos). rewrite Q.min_r; lra.
  - rewrite Q.min_l; lra.
Qed.

(** ** Reported loads when the inputs have at most two decimals *)

Lemma hundredths_step x st iv :
  PyNum.hundredths (capacity_kg (snd iv)) ->
  PyNum.hundredths (snd st) /\ Forall (fun vl => PyNum.hundredths (snd vl)) (fst st) ->
  let st' := load_step x st iv in
  PyNum.hundredths (snd st') /\ Forall (fun vl => PyNum.hundredths (snd vl)) (fst st').
Proof.
  destruct st as [taken remaining], iv as [i v]. cbn [fst snd]. intros Hc [Hr Ht].
  unfold load_step.
  destruct (Qeq_bool (x i) 1 && PyNum.Qgtb remaining 0); cbv zeta; cbn [fst snd];
    [|now split].
  assert (Hl : PyNum.hundredths (PyNum.py_min (capacity_kg v) remaining)).
  { destruct (PyNum.py_min_cases (capacity_kg v) remaining) as [[_ ->]|[_ ->]]; assumption. }
  split.
  - now apply PyNum.hundredths_minus.
  - apply Forall_app. split; [assumption|]. now constructor.
Qed.

Lemma hundredths_fold x available :
  Forall (fun iv => PyNum.hundredths (capacity_kg (snd iv))) available ->
  forall st,
    PyNum.hundredths (snd st) /\ Forall (fun vl => PyNum.hundredths (snd vl)) (fst st) ->
    Forall (fun vl => PyNum.hundredths (snd vl)) (fst (fold_left (load_step x) available st)).
Proof.
  induction 1 as [|iv rest Hiv _ IH]; intros st H.
  - apply H.
  - cbn [fold_left]. apply IH. now apply hundredths_step.
Qed.

Lemma walk_loads_hundredths x available total :
  PyNum.hundredths total ->
  Forall (fun iv => PyNum.hundredths (capacity_kg (snd iv))) available ->
  Forall (fun vl => PyNum.hundredths (snd vl)) (walk_loads x available total).
Proof.
  intros Ht Hc. unfold walk_loads. apply hundredths_fold; [assumption|].
  cbn [fst snd]. split; [assumption|constructor].
Qed.

(** The ["load_kg"] column of the rendered entries. *)
Definition reported_loads (entries : list AssignedVehicle) : list Q := map load_kg entries.

Lemma reported_loads_exact leg taken :
  Forall (fun vl => PyNum.hundredths (snd vl)) taken ->
  Forall2 (fun e vl => load_kg e == snd vl) (map (entry_of leg) taken) taken /\
  PyNum.Qsum (reported_loads (map (entry_of leg) taken)) == PyNum.Qsum (loads taken).
Proof.
  induction 1 as [|vl l Hvl _ [IH2 IHs]].
  - split; [constructor|reflexivity].
  - assert (E : load_kg (entry_of leg vl) == snd vl).
    { unfold entry_of, entry. cbn [load_kg]. now apply PyNum.round2_fixes_hundredths. }
    split.
    + cbn [map]. constructor; assumption.
    + unfold reported_loads, loads in *. cbn [map PyNum.Qsum fold_right].
      fold (PyNum.Qsum (map load_kg (map (entry_of leg) l))).
      fold (PyNum.Qsum (map snd l)). rewrite IHs, E. reflexivity.
Qed.

(** ** Rounding *)

(** Rounding to the nearest integer moves a value by at most one half. *)
Lemma round_half_even_close q :
  - (1 # 2) <= inject_Z (PyNum.round_half_even q) - q /\
  inject_Z (PyNum.round_half_even q) - q <= 1 # 2.
Proof.
  unfold PyNum.round_half_even.
  pose proof (Qfloor_le q) as L. pose proof (Qlt_floor q) as U.
  rewrite inject_Z_plus in U. change (inject_Z 1) with 1 in U.
  destruct (Qcompare_spec (q - inject_Z (Qfloor q)) (1 # 2)) as [E|Lt|Gt].
  - destruct (Z.even (Qfloor q)).
    + split; lra.
    + rewrite inject_Z_plus. change (inject_Z 1) with 1. split; lra.
  - split; lra.
  - rewrite inject_Z_plus. change (inject_Z 1) with 1. split; lra.
Qed.

(** [round(x, 2)] is a number of hundredths within half a hundredth of
    [x]. *)
Lemma round2_close q :
  PyNum.hundredths (PyNum.round2 q) /\
  - (1 # 200) <= PyNum.round2 q - q /\ PyNum.round2 q - q <= 1 # 200.
Proof.
  split; [unfold PyNum.round2; now eexists|].
  destruct (round_half_even_close (q * 100)) as [L U].
  unfold PyNum.round2. set (z := inject_Z (PyNum.round_half_even (q * 100))) in *.
  assert (E : z / 100 == z * (1 # 100)) by reflexivity.
  rewrite E. split; lra.
Qed.

Lemma reported_loads_close leg taken :
  Forall2 (fun e vl =>
             a_vehicle_id e = vehicle_id (fst vl) /\
             PyNum.hundredths (load_kg e) /\
             - (1 # 200) <= load_kg e - snd vl /\ load_kg e - snd vl <= 1 # 200)
          (map (entry_of leg) taken) taken.
Proof.
  induction taken as [|vl l IH]; cbn [map]; constructor; [|exact IH].
  unfold entry_of, entry. cbn [load_kg a_vehicle_id].
  split; [reflexivity|apply round2_close].
Qed.

(** ** The load invariant of an assignment *)

(** C1. In every assignment returned with at least one vehicle, the loads
    the loop gave to the listed vehicles (the values of [load], before the
    entry rounds them) add up to the smaller of the requested cargo and the
    listed vehicles' total capacity, and none of them exceeds its vehicle's
    capacity.  The entries list those vehicles in order, and the reported
    [load_kg] is [round(load, 2)]: a number of hundredths within 0.005 of
    the load, which can exceed the capacity and need not add up to the
    cargo.  When the cargo and the capacities at the
    origin have at most two decimals the reported loads are the loads
    themselves and satisfy the same two statements. *)
Theorem assigned_loads_meet_cargo_and_capacity :
  forall (solve : Lp.LpProblem nat -> Lp.Outcome nat) (df : DataFrame) (leg : Edge)
         (total_goods : Q) (objective : string) (a : Assignment),
    assign_vehicles_for_leg solve df leg total_goods objective = Returns (Some a) ->
    vehicles a <> [] ->
    let available := available_at df (PyStr.lower (from leg)) in
    exists x : nat -> Q,
      let taken := walk_loads x available total_goods in
      solve (build_model available leg total_goods objective) = Lp.Solved 1 x /\
      PyNum.Qsum (loads taken) == Qmin total_goods (PyNum.Qsum (capacities taken)) /\
      Forall (fun vl => snd vl <= capacity_kg (fst vl)) taken /\
      Forall2 (fun e vl =>
                 a_vehicle_id e = vehicle_id (fst vl) /\
                 PyNum.hundredths (load_kg e) /\
                 - (1 # 200) <= load_kg e - snd vl /\ load_kg e - snd vl <= 1 # 200)
              (vehicles a) taken /\
      (PyNum.hundredths total_goods ->
       Forall (fun iv => PyNum.hundredths (capacity_kg (snd iv))) available ->
       PyNum.Qsum (reported_loads (vehicles a))
         == Qmin total_goods (PyNum.Qsum (capacities taken)) /\
       Forall2 (fun e vl => load_kg e <= capacity_kg (fst vl)) (vehicles a) taken).
Proof.
  intros solve df leg total objective a H Hne available.
  destruct (assignment_inversion _ _ _ _ _ H) as (x & _ & Hs & Ha).
  fold available in Hs, Ha. exists x. intro taken.
  assert (Hv : vehicles a = map (entry_of leg) taken) by (rewrite Ha; reflexivity).
  pose proof (balanced_fold total x available _ (balanced_start total)) as B.
  destruct (fold_left (load_step x) available ([], total)) as [taken' remaining] eqn:Ef.
  assert (Et : taken = taken') by (unfold taken, walk_loads; now rewrite Ef).
  rewrite <- Et in B.
  assert (Hne' : taken <> []).
  { intro E. apply Hne. rewrite Hv, E. reflexivity. }
  pose proof (balanced_min B Hne') as Hmin.
  destruct B as (_ & Hle & _).
  split; [assumption|]. split; [assumption|].
  split; [assumption|].
  split; [rewrite Hv; apply reported_loads_close|].
  intros Ht Hc.
  pose proof (walk_loads_hundredths x Ht Hc) as Hh. fold taken in Hh.
  destruct (reported_loads_exact leg Hh) as [H2 Hs2].
  rewrite Hv. split.
  - rewrite Hs2. exact Hmin.
  - clear - H2 Hle. induction H2 as [|e vl es vls He _ IH]; constructor.
    + inversion Hle; subst. rewrite He. assumption.
    + apply IH. now inversion Hle.
Qed.

(** ** Feasibility of the selection problem and coverage of the cargo *)

Lemma leg_model_wf available leg total objective :
  Lp.wf (build_model available leg total objective).
Proof.
  split.
  - intros k c Hin. cbn [build_model Lp.objective Lp.variables] in *.
    apply in_map_iff in Hin. destruct Hin as [iv [E Hin]]. inversion E; subst.
    now apply in_map.
  - cbn [build_model Lp.constraints Lp.variables]. constructor; [|constructor].
    intros k c Hin. cbn [Lp.lhs] in Hin.
    apply in_map_iff in Hin. destruct Hin as [iv [E Hin]]. inversion E; subst.
    now apply in_map.
Qed.

Lemma assignment_of_solved solve df leg total objective x :
  let available := available_at df (PyStr.lower (from leg)) in
  available <> [] ->
  solve (build_model available leg total objective) = Lp.Solved 1 x ->
  raises_among leg (walk_loads x available total) = false ->
  assign_vehicles_for_leg solve df leg total objective =
    Returns (Some (mkAssignment (from leg) (to leg)
                     (map (entry_of leg) (walk_loads x available total))
                     (distance leg) (time leg)
                     (option_map PyTime.strftime_HM
                        (latest (map (fun vl => arrival_of leg (fst vl))
                                   (walk_loads x available total)))))).
Proof.
  cbv zeta. intros Hne Hs Hr. unfold assign_vehicles_for_leg.
  destruct (available_at df (PyStr.lower (from leg))) as [|iv rest] eqn:Ea;
    [now contradiction Hne|].
  rewrite Hs. cbn [Z.eqb Pos.eqb negb]. rewrite walk_as_loads, Hr. reflexivity.
Qed.

(** A solved model whose loop meets a schedule that raises: the call
    raises. *)
Lemma assignment_raises solve df leg total objective x :
  let available := available_at df (PyStr.lower (from leg)) in
  available <> [] ->
  solve (build_model available leg total objective) = Lp.Solved 1 x ->
  raises_among leg (walk_loads x available total) = true ->
  assign_vehicles_for_leg solve df leg total objective = Raises.
Proof.
  cbv zeta. intros Hne Hs Hr. unfold assign_vehicles_for_leg.
  destruct (available_at df (PyStr.lower (from leg))) as [|iv rest] eqn:Ea;
    [now contradiction Hne|].
  rewrite Hs. cbn [Z.eqb Pos.eqb negb]. rewrite walk_as_loads, Hr. reflexivity.
Qed.

Lemma indexed_lookup_from (l : list Vehicle) :
  forall s, Forall (fun iv => nth_error l (fst iv - s) = Some (snd iv) /\ (s <= fst iv)%nat)
              (combine (seq s (List.length l)) l).
Proof.
  induction l as [|v l IH]; intro s; cbn [List.length seq combine]; constructor.
  - cbn [fst snd]. rewrite Nat.sub_diag. split; [reflexivity|lia].
  - specialize (IH (S s)). rewrite Forall_forall in *. intros [i w] Hin.
    destruct (IH _ Hin) as [Hn Hle]. cbn [fst snd] in *. split; [|lia].
    replace (i - s)%nat with (S (i - S s)) by lia. exact Hn.
Qed.

Lemma available_lookup df city :
  Forall (fun iv => nth_error df (fst iv) = Some (snd iv)) (available_at df city).
Proof.
  unfold available_at, indexed. apply Forall_forall. intros iv Hin.
  apply filter_In in Hin. destruct Hin as [Hin _].
  pose proof (indexed_lookup_from df 0) as F. rewrite Forall_forall in F.
  destruct (F _ Hin) as [Hn _]. now rewrite Nat.sub_0_r in Hn.
Qed.

Definition capacity_terms (available : list (nat * Vehicle)) : Lp.LpAffineExpression nat :=
  map (fun iv => (fst iv, capacity_kg (snd iv))) available.

(** The combined capacity of the vehicles the solver selected. *)
Definition selected_capacity (x : nat -> Q) (available : list (nat * Vehicle)) : Q :=
  PyNum.Qsum (map (fun iv => if Qeq_bool (x (fst iv)) 1 then capacity_kg (snd iv) else 0)
                available).

Lemma selected_capacity_cons x iv l :
  selected_capacity x (iv :: l) ==
    (if Qeq_bool (x (fst iv)) 1 then capacity_kg (snd iv) else 0) + selected_capacity x l.
Proof. reflexivity. Qed.

Lemma value_selected x available :
  Lp.binary x (map fst available) ->
  Lp.value x (capacity_terms available) == selected_capacity x available.
Proof.
  induction available as [|[i v] rest IH]; intro B.
  - reflexivity.
  - unfold capacity_terms. cbn [map fst snd]. fold (capacity_terms rest).
    rewrite Lp.value_cons, selected_capacity_cons. cbn [fst snd].
    rewrite IH by (intros k Hk; apply B; now right).
    destruct (B i (or_introl eq_refl)) as [Z0|Z1].
    + assert (E : Qeq_bool (x i) 1 = false).
      { destruct (Qeq_bool (x i) 1) eqn:E; [|reflexivity].
        apply Qeq_bool_iff in E. rewrite Z0 in E. discriminate. }
      rewrite E, Z0. lra.
    + assert (E : Qeq_bool (x i) 1 = true) by now apply Qeq_bool_iff.
      rewrite E, Z1. lra.
Qed.

(** With enough capacity at the origin, selecting the vehicles of
    non-negative capacity satisfies the model. *)
Lemma enough_capacity_feasible df leg total objective :
  let available := available_at df (PyStr.lower (from leg)) in
  total <= PyNum.Qsum (map (fun iv => capacity_kg (snd iv)) available) ->
  exists x, Lp.feasible (build_model available leg total objective) x.
Proof.
  cbv zeta. intro Hcap.
  set (available := available_at df (PyStr.lower (from leg))) in *.
  set (x0 := fun i : nat =>
               match nth_error df i with
               | Some v => if Qle_bool 0 (capacity_kg v) then 1 else 0
               | None => 0
               end).
  exists x0. split.
  - intros k _. unfold x0. destruct (nth_error df k) as [v|]; [|now left].
    destruct (Qle_bool 0 (capacity_kg v)); [now right|now left].
  - cbn [build_model Lp.constraints]. constructor; [|constructor].
    unfold Lp.satisfies. cbn [Lp.sense Lp.rhs Lp.lhs].
    fold (capacity_terms available).
    assert (G : PyNum.Qsum (map (fun iv => capacity_kg (snd iv)) available)
                <= Lp.value x0 (capacity_terms available)).
    { pose proof (available_lookup df (PyStr.lower (from leg))) as F.
      fold available in F. clear Hcap.
      induction F as [|[i v] rest Hiv _ IH].
      - cbn. lra.
      - unfold capacity_terms. cbn [map fst snd]. fold (capacity_terms rest).
        rewrite Lp.value_cons. cbn [PyNum.Qsum fold_right].
        fold (PyNum.Qsum (map (fun iv => capacity_kg (snd iv)) rest)).
        cbn [fst snd] in Hiv. unfold x0 at 1. rewrite Hiv.
        destruct (Qle_bool 0 (capacity_kg v)) eqn:E.
        + lra.
        + assert (N : capacity_kg v < 0).
          { apply Qnot_le_lt. intro L. apply Qle_bool_iff in L. congruence. }
          lra. }
    lra.
Qed.

(** What holds of the loop state against the capacity selected so far. *)
Definition covering (total : Q) (sel : Q) (st : list (Vehicle * Q) * Q) : Prop :=
  let (taken, remaining) := st in
  0 <= remaining /\
  remaining == total - PyNum.Qsum (loads taken) /\
  (0 < remaining -> PyNum.Qsum (loads taken) == sel).

Lemma covering_fold total x available :
  forall sel st,
    covering total sel st ->
    covering total (sel + selected_capacity x available)
      (fold_left (load_step x) available st).
Proof.
  induction available as [|[i v] rest IH]; intros sel [taken remaining] C.
  - cbn [fold_left]. destruct C as (C1 & C2 & C3). split; [|split]; try assumption.
    intro P. rewrite (C3 P). unfold selected_capacity. cbn. lra.
  - cbn [fold_left].
    assert (S : covering total
                  (sel + (if Qeq_bool (x i) 1 then capacity_kg v else 0))
                  (load_step x (taken, remaining) (i, v))).
    { destruct C as (C1 & C2 & C3). unfold load_step.
      destruct (Qeq_bool (x i) 1) eqn:Ex; cbn [andb].
      - destruct (PyNum.Qgtb remaining 0) eqn:Er.
        + apply PyNum.Qgtb_true in Er. cbv zeta. unfold covering, loads.
          rewrite map_app. cbn [map snd]. fold (loads taken).
          specialize (C3 Er).
          destruct (PyNum.py_min_cases (capacity_kg v) remaining) as [[Lt ->]|[Le ->]];
            (split; [|split]); rewrite ?Qsum_snoc; try lra; intro P; lra.
        + apply PyNum.Qgtb_false in Er. split; [|split]; try assumption.
          intro P. lra.
      - split; [|split]; try assumption. intro P. rewrite (C3 P). lra. }
    specialize (IH _ _ S).
    destruct (fold_left (load_step x) rest (load_step x (taken, remaining) (i, v)))
      as [taken' remaining'].
    destruct IH as (I1 & I2 & I3). split; [|split]; try assumption.
    intro P. rewrite (I3 P), selected_capacity_cons. cbn [fst snd]. lra.
Qed.

Lemma covered_loads total x available :
  0 <= total -> total <= selected_capacity x available ->
  PyNum.Qsum (loads (walk_loads x available total)) == total.
Proof.
  intros Hnn Hsel.
  assert (C0 : covering total 0 ([], total)).
  { unfold covering, loads. cbn [map PyNum.Qsum fold_right].
    split; [assumption|]. split; [lra|]. intro P. lra. }
  pose proof (covering_fold total x available _ _ C0) as C.
  unfold walk_loads.
  destruct (fold_left (load_step x) available ([], total)) as [taken remaining].
  cbn [fst]. destruct C as (C1 & C2 & C3).
  destruct (Qlt_le_dec 0 remaining) as [P|N].
  - specialize (C3 P). lra.
  - lra.
Qed.

(** With no cargo left to place the loop takes no vehicle. *)
Lemma nothing_to_load x available total :
  total <= 0 -> fold_left (load_step x) available ([], total) = ([], total).
Proof.
  intro Hle. induction available as [|[i v] rest IH]; [reflexivity|].
  cbn [fold_left]. unfold load_step at 2.
  assert (E : PyNum.Qgtb total 0 = false) by now apply PyNum.Qgtb_false.
  rewrite E, andb_false_r. exact IH.
Qed.

(** C2. When the vehicles at the leg's origin have at least the capacity of
    a positive cargo weight and none of them has a schedule that raises
    (speed zero, or an arrival outside the range of [datetime]), an exact
    solver makes the allocator return an assignment, and the loads given to
    its vehicles (before the entries round them) add up to exactly the
    cargo weight.  Every reported [load_kg] is within 0.005 of its load; the
    reported loads add up to the cargo weight when cargo and capacities have
    at most two decimals. *)
Theorem enough_capacity_carries_whole_cargo :
  forall (solve : Lp.LpProblem nat -> Lp.Outcome nat),
    Lp.exact solve ->
    forall (df : DataFrame) (leg : Edge) (total_goods : Q) (objective : string),
      let available := available_at df (PyStr.lower (from leg)) in
      0 < total_goods ->
      total_goods <= PyNum.Qsum (map (fun iv => capacity_kg (snd iv)) available) ->
      Forall (fun iv => schedule_raises leg (snd iv) = false) available ->
      exists (a : Assignment) (x : nat -> Q),
        let taken := walk_loads x available total_goods in
        assign_vehicles_for_leg solve df leg total_goods objective = Returns (Some a) /\
        solve (build_model available leg total_goods objective) = Lp.Solved 1 x /\
        PyNum.Qsum (loads taken) == total_goods /\
        Forall2 (fun e vl =>
                   a_vehicle_id e = vehicle_id (fst vl) /\
                   PyNum.hundredths (load_kg e) /\
                   - (1 # 200) <= load_kg e - snd vl /\ load_kg e - snd vl <= 1 # 200)
                (vehicles a) taken /\
        (PyNum.hundredths total_goods ->
         Forall (fun iv => PyNum.hundredths (capacity_kg (snd iv))) available ->
         PyNum.Qsum (reported_loads (vehicles a)) == total_goods).
Proof.
  intros solve [Sound Complete] df leg total objective available Hpos Hcap Hsch.
  assert (Hne : available <> []).
  { intro E. rewrite E in Hcap. cbn in Hcap. lra. }
  pose proof (leg_model_wf available leg total objective) as W.
  destruct (Complete _ W (@enough_capacity_feasible df leg total objective Hcap))
    as [x Hs].
  destruct (Sound _ _ W Hs) as [[B S] _].
  pose proof (@assignment_of_solved solve df leg total objective x Hne Hs
                (@no_raise_among leg x available total Hsch)) as Ha.
  eexists. exists x. cbv zeta. split; [exact Ha|]. split; [exact Hs|].
  cbn [vehicles].
  assert (Hsum : PyNum.Qsum (loads (walk_loads x available total)) == total).
  { apply covered_loads; [lra|].
    cbn [build_model Lp.constraints Lp.variables] in B, S.
    inversion S as [|c cs Hc _]; subst. unfold Lp.satisfies in Hc.
    cbn [Lp.sense Lp.rhs Lp.lhs] in Hc. fold (capacity_terms available) in Hc.
    now rewrite (@value_selected x available B) in Hc. }
  split; [exact Hsum|]. split; [apply reported_loads_close|].
  intros Ht Hc.
  destruct (reported_loads_exact leg (walk_loads_hundredths x Ht Hc)) as [_ Hr].
  exact (Qeq_trans _ _ _ Hr Hsum).
Qed.

(** C9. With at least one vehicle at the leg's origin and a cargo weight
    that is zero or negative, a complete solver makes the allocator return an
    assignment (not the infeasible result) that lists no vehicle and has no
    last arrival. *)
Theorem no_cargo_gives_empty_assignment :
  forall (solve : Lp.LpProblem nat -> Lp.Outcome nat),
    Lp.complete solve ->
    forall (df : DataFrame) (leg : Edge) (total_goods : Q) (objective : string),
      available_at df (PyStr.lower (from leg)) <> [] ->
      total_goods <= 0 ->
      exists a : Assignment,
        assign_vehicles_for_leg solve df leg total_goods objective = Returns (Some a) /\
        vehicles a = [] /\
        last_arrival a = None.
Proof.
  intros solve Complete df leg total objective Hne Hle.
  set (available := available_at df (PyStr.lower (from leg))) in *.
  pose proof (leg_model_wf available leg total objective) as W.
  assert (F : exists x, Lp.feasible (build_model available leg total objective) x).
  { exists (fun _ => 0). split.
    - intros k _. now left.
    - cbn [build_model Lp.constraints]. constructor; [|constructor].
      unfold Lp.satisfies. cbn [Lp.sense Lp.rhs Lp.lhs].
      assert (Z : Lp.value (fun _ : nat => 0)
                    (map (fun iv => (fst iv, capacity_kg (snd iv))) available) == 0).
      { clear. induction available as [|[i v] rest IH]; [reflexivity|].
        cbn [map fst snd]. rewrite Lp.value_cons, IH. lra. }
      rewrite Z. exact Hle. }
  destruct (Complete _ W F) as [x Hs].
  assert (E : walk_loads x available total = []).
  { unfold walk_loads. now rewrite nothing_to_load. }
  assert (R : raises_among leg (walk_loads x available total) = false).
  { now rewrite E. }
  pose proof (@assignment_of_solved solve df leg total objective x Hne Hs R) as Ha.
  fold available in Ha.
  rewrite E in Ha. eexists. split; [exact Ha|]. split; reflexivity.
Qed.

(** ** Schedules *)

Lemma later_fold l :
  forall m0, exists m,
    fold_left later l (Some m0) = Some m /\
    In m (m0 :: l) /\ (m0 <= m)%Z /\ Forall (fun t => (t <= m)%Z) l.
Proof.
  induction l as [|t l IH]; intro m0.
  - exists m0. cbn. repeat split; auto with zarith.
  - cbn [fold_left later]. destruct (t >? m0)%Z eqn:E.
    + destruct (IH t) as (m & Hf & Hin & Hle & Hall).
      exists m. split; [exact Hf|]. split; [now right|].
      assert (m0 < t)%Z by (apply Z.gtb_lt; exact E).
      split; [lia|]. constructor; assumption.
    + destruct (IH m0) as (m & Hf & Hin & Hle & Hall).
      exists m. split; [exact Hf|]. split.
      * destruct Hin as [->|Hin]; [now left|now right; right].
      * split; [assumption|]. constructor; [|assumption].
        assert (~ (m0 < t)%Z) by (rewrite <- Z.gtb_lt; congruence). lia.
Qed.

(** The running [last_arrival] ends as the greatest of the instants. *)
Lemma latest_is_maximum l :
  l <> [] ->
  exists m, latest l = Some m /\ In m l /\ Forall (fun t => (t <= m)%Z) l.
Proof.
  destruct l as [|t l]; intro Hne; [now contradiction Hne|].
  unfold latest. cbn [fold_left later].
  destruct (later_fold l t) as (m & Hf & Hin & Hle & Hall).
  exists m. split; [exact Hf|]. split; [exact Hin|]. now constructor.
Qed.

Lemma latest_nil_iff l : latest l = None <-> l = [].
Proof.
  split.
  - destruct l as [|t l]; [reflexivity|]. intro H.
    destruct (@latest_is_maximum (t :: l)) as (m & Hm & _); [discriminate|congruence].
  - intros ->. reflexivity.
Qed.

(** The arrival instants of the recorded vehicles. *)
Definition arrivals (leg : Edge) (taken : list (Vehicle * Q)) : list PyTime.datetime :=
  map (fun vl => arrival_of leg (fst vl)) taken.


(** Reported times are clock readings of the instants; the last arrival is
    chosen among the instants. *)
Lemma reported_times_are_clock_readings :
  forall (solve : Lp.LpProblem nat -> Lp.Outcome nat) (df : DataFrame) (leg : Edge)
         (total_goods : Q) (objective : string) (a : Assignment),
    assign_vehicles_for_leg solve df leg total_goods objective = Returns (Some a) ->
    exists x : nat -> Q,
      let taken := walk_loads x (available_at df (PyStr.lower (from leg))) total_goods in
      Forall2
        (fun (e : AssignedVehicle) (vl : Vehicle * Q) =>
           let t := arrival_of leg (fst vl) in
           departure e = PyTime.strftime_HM (departure_of (fst vl)) /\
           arrival e = PyTime.strftime_HM (t mod PyTime.us_per_day)%Z)
        (vehicles a) taken /\
      (vehicles a <> [] ->
       exists m : PyTime.datetime,
         last_arrival a = Some (PyTime.strftime_HM (m mod PyTime.us_per_day)%Z) /\
         In m (arrivals leg taken) /\
         Forall (fun t => (t <= m)%Z) (arrivals leg taken)).
Proof.
  intros solve df leg total objective a H.
  destruct (assignment_inversion _ _ _ _ _ H) as (x & _ & _ & Ha).
  exists x. intro taken. fold taken in Ha. subst a. cbn [vehicles last_arrival].
  split.
  - clear. induction taken as [|[v l] rest IH]; cbn [map]; constructor; [|exact IH].
    cbn [fst]. unfold entry_of, entry. cbn [fst snd departure arrival].
    split; [reflexivity|]. apply PyTime.strftime_HM_wraps.
  - intro Hne.
    assert (Hne' : arrivals leg taken <> []).
    { intro E. apply map_eq_nil in E. apply Hne. now rewrite E. }
    destruct (latest_is_maximum Hne') as (m & Hm & Hin & Hall).
    exists m. unfold arrivals in Hm. rewrite Hm. cbn [option_map].
    rewrite <- PyTime.strftime_HM_wraps. now split.
Qed.

(** The loop reads the solution only through the tests [varValue == 1]. *)
Lemma walk_loads_ext x y available total :
  (forall i, In i (map fst available) -> Qeq_bool (x i) 1 = Qeq_bool (y i) 1) ->
  walk_loads x available total = walk_loads y available total.
Proof.
  intro E. unfold walk_loads. f_equal.
  generalize (@nil (Vehicle * Q), total).
  induction available as [|[i v] rest IH]; intro st; [reflexivity|].
  cbn [fold_left].
  assert (S : load_step x st (i, v) = load_step y st (i, v)).
  { unfold load_step. destruct st as [taken remaining].
    rewrite (E i) by now left. reflexivity. }
  rewrite S. apply IH. intros j Hj. apply E. now right.
Qed.

(** An exact solver on a coverable leg: the outcome, the solution it rests
    on, and the assignment built from it. *)
Lemma exact_solver_assigns solve df leg total objective :
  Lp.exact solve ->
  let available := available_at df (PyStr.lower (from leg)) in
  available <> [] ->
  total <= PyNum.Qsum (map (fun iv => capacity_kg (snd iv)) available) ->
  Forall (fun iv => schedule_raises leg (snd iv) = false) available ->
  exists x,
    Lp.binary x (map fst available) /\
    total <= selected_capacity x available /\
    assign_vehicles_for_leg solve df leg total objective =
      Returns (Some (mkAssignment (from leg) (to leg)
                       (map (entry_of leg) (walk_loads x available total))
                       (distance leg) (time leg)
                       (option_map PyTime.strftime_HM
                          (latest (arrivals leg (walk_loads x available total)))))).
Proof.
  intros [Sound Complete] available Hne Hcap Hsch.
  pose proof (leg_model_wf available leg total objective) as W.
  destruct (Complete _ W (@enough_capacity_feasible df leg total objective Hcap))
    as [x Hs].
  destruct (Sound _ _ W Hs) as [[B S] _].
  exists x. split; [exact B|]. split.
  - cbn [build_model Lp.constraints] in S.
    inversion S as [|c cs Hc _]; subst. unfold Lp.satisfies in Hc.
    cbn [Lp.sense Lp.rhs Lp.lhs] in Hc. fold (capacity_terms available) in Hc.
    now rewrite (@value_selected x available B) in Hc.
  - exact (@assignment_of_solved solve df leg total objective x Hne Hs
             (@no_raise_among leg x available total Hsch)).
Qed.

(** The same when a vehicle the loop records has a schedule that raises:
    the call raises. *)
Lemma exact_solver_raises solve df leg total objective :
  Lp.exact solve ->
  let available := available_at df (PyStr.lower (from leg)) in
  available <> [] ->
  total <= PyNum.Qsum (map (fun iv => capacity_kg (snd iv)) available) ->
  (forall x, Lp.binary x (map fst available) ->
             total <= selected_capacity x available ->
             raises_among leg (walk_loads x available total) = true) ->
  assign_vehicles_for_leg solve df leg total objective = Raises.
Proof.
  intros [Sound Complete] available Hne Hcap Hr.
  pose proof (leg_model_wf available leg total objective) as W.
  destruct (Complete _ W (@enough_capacity_feasible df leg total objective Hcap))
    as [x Hs].
  destruct (Sound _ _ W Hs) as [[B S] _].
  apply (@assignment_raises solve df leg total objective x Hne Hs).
  apply Hr; [exact B|].
  cbn [build_model Lp.constraints] in S.
  inversion S as [|c cs Hc _]; subst. unfold Lp.satisfies in Hc.
  cbn [Lp.sense Lp.rhs Lp.lhs] in Hc. fold (capacity_terms available) in Hc.
  now rewrite (@value_selected x available B) in Hc.
Qed.

(** A leg whose origin has one vehicle that can take the whole of a
    positive cargo: every exact solver selects it. *)
Lemma sole_vehicle_selected solve df leg total objective i v :
  Lp.exact solve ->
  available_at df (PyStr.lower (from leg)) = [(i, v)] ->
  0 < total -> total <= capacity_kg v ->
  exists x,
    solve (build_model [(i, v)] leg total objective) = Lp.Solved 1 x /\
    walk_loads x [(i, v)] total = [(v, PyNum.py_min (capacity_kg v) total)].
Proof.
  intros [Sound Complete] Ea Hpos Hcap.
  pose proof (leg_model_wf [(i, v)] leg total objective) as W.
  assert (F : exists x, Lp.feasible (build_model [(i, v)] leg total objective) x).
  { pose proof (@enough_capacity_feasible df leg total objective) as G.
    cbv zeta in G. rewrite Ea in G. apply G.
    cbn [map snd PyNum.Qsum fold_right]. lra. }
  destruct (Complete _ W F) as [x Hs].
  destruct (Sound _ _ W Hs) as [[B S] _].
  exists x. split; [exact Hs|].
  cbn [build_model Lp.constraints Lp.variables] in B, S.
  inversion S as [|c cs Hc _]; subst. unfold Lp.satisfies in Hc.
  cbn [Lp.sense Lp.rhs Lp.lhs] in Hc. fold (capacity_terms [(i, v)]) in Hc.
  rewrite (@value_selected x [(i, v)] B) in Hc.
  unfold selected_capacity in Hc. cbn [map fst snd PyNum.Qsum fold_right] in Hc.
  assert (E : Qeq_bool (x i) 1 = true).
  { destruct (Qeq_bool (x i) 1); [reflexivity|exfalso; lra]. }
  assert (P : PyNum.Qgtb total 0 = true) by now apply PyNum.Qgtb_true.
  unfold walk_loads. cbn [fold_left load_step]. rewrite E, P. reflexivity.
Qed.

Lemma sole_vehicle_assignment solve df leg total objective i v :
  Lp.exact solve ->
  available_at df (PyStr.lower (from leg)) = [(i, v)] ->
  0 < total -> total <= capacity_kg v ->
  schedule_raises leg v = false ->
  assign_vehicles_for_leg solve df leg total objective =
    Returns (Some (mkAssignment (from leg) (to leg)
                     [entry leg v (PyNum.py_min (capacity_kg v) total)]
                     (distance leg) (time leg)
                     (Some (PyTime.strftime_HM (arrival_of leg v))))).
Proof.
  intros Ex Ea Hpos Hcap Hr.
  destruct (@sole_vehicle_selected solve df leg total objective i v Ex Ea Hpos Hcap)
    as (x & Hs & Hw).
  pose proof (@assignment_of_solved solve df leg total objective x) as A.
  cbv zeta in A. rewrite Ea in A. rewrite Hw in A.
  apply A; [discriminate|exact Hs|].
  unfold raises_among. cbn [existsb fst]. now rewrite Hr.
Qed.

Lemma sole_vehicle_raises solve df leg total objective i v :
  Lp.exact solve ->
  available_at df (PyStr.lower (from leg)) = [(i, v)] ->
  0 < total -> total <= capacity_kg v ->
  schedule_raises leg v = true ->
  assign_vehicles_for_leg solve df leg total objective = Raises.
Proof.
  intros Ex Ea Hpos Hcap Hr.
  destruct (@sole_vehicle_selected solve df leg total objective i v Ex Ea Hpos Hcap)
    as (x & Hs & Hw).
  pose proof (@assignment_raises solve df leg total objective x) as A.
  cbv zeta in A. rewrite Ea in A. rewrite Hw in A.
  apply A; [discriminate|exact Hs|].
  unfold raises_among. cbn [existsb fst]. now rewrite Hr.
Qed.


End CapacityFacts.

(* ------------------------------------------------------------------ *)
(** * A worked leg *)

Module CapacityExamples.

Import Graph CapacityAllocator CapacityFacts.
Open Scope Q_scope.

(** Two trucks at "a", one leaving late in the evening. *)
Definition truck1 : Vehicle :=
  mkVehicle "A-TRU-01" "a" 500 80 (1 # 2) (Some "08:00"%string) "truck".
Definition truck2 : Vehicle :=
  mkVehicle "A-TRU-02" "a" 800 80 (1 # 2) (Some "23:00"%string) "truck".
Definition pool : DataFrame := [truck1; truck2].

Definition leg_ab : Edge :=
  mkEdge "a" "b" road 100 2 50 0 0 0 0 [(0, 0); (0, 0)].

(** The reference solver on vehicle models. *)
Definition reference_leg_solve : Lp.LpProblem nat -> Lp.Outcome nat :=
  Lp.enumerate_solve Nat.eqb.

Lemma reference_leg_solve_exact : Lp.exact reference_leg_solve.
Proof. apply Lp.enumerate_solve_exact. apply Nat.eqb_eq. Qed.

Lemma pool_available :
  available_at pool (PyStr.lower (from leg_ab)) = [(0%nat, truck1); (1%nat, truck2)].
Proof. reflexivity. Qed.

Lemma pool_schedulable :
  Forall (fun iv => schedule_raises leg_ab (snd iv) = false)
         (available_at pool (PyStr.lower (from leg_ab))).
Proof. rewrite pool_available. repeat constructor. Qed.

(** 1000 kg needs both trucks, whatever the solver. *)
Lemma both_trucks_forced (x : nat -> Q) :
  Lp.binary x [0%nat; 1%nat] ->
  1000 <= selected_capacity x [(0%nat, truck1); (1%nat, truck2)] ->
  forall i, In i [0%nat; 1%nat] -> Qeq_bool (x i) 1 = Qeq_bool 1 1.
Proof.
  intros B C i Hi.
  unfold selected_capacity in C. cbn [map fst snd PyNum.Qsum fold_right] in C.
  change (capacity_kg truck1) with 500 in C. change (capacity_kg truck2) with 800 in C.
  destruct (Qeq_bool (x 0%nat) 1) eqn:E0, (Qeq_bool (x 1%nat) 1) eqn:E1;
    try (exfalso; lra).
  destruct Hi as [<-|[<-|[]]]; assumption.
Qed.

(** The assignment of 1000 kg on the leg, for any exact solver. *)
Lemma full_load_assignment solve :
  Lp.exact solve ->
  assign_vehicles_for_leg solve pool leg_ab 1000 "cost" =
    Returns (Some (mkAssignment "a" "b"
                     (map (entry_of leg_ab)
                        (walk_loads (fun _ => 1) [(0%nat, truck1); (1%nat, truck2)] 1000))
                     100 2
                     (option_map PyTime.strftime_HM
                        (latest (arrivals leg_ab
                           (walk_loads (fun _ => 1) [(0%nat, truck1); (1%nat, truck2)] 1000)))))).
Proof.
  intro Ex.
  destruct (@exact_solver_assigns solve pool leg_ab 1000 "cost" Ex) as (x & B & C & Ha).
  - rewrite pool_available. discriminate.
  - rewrite pool_available. apply Qle_bool_iff. reflexivity.
  - exact pool_schedulable.
  - rewrite pool_available in *. cbn [map fst] in B.
    rewrite (@walk_loads_ext x (fun _ => 1) [(0%nat, truck1); (1%nat, truck2)] 1000
               (both_trucks_forced B C)) in Ha.
    exact Ha.
Qed.

Example full_load_entries solve :
  Lp.exact solve ->
  exists a e1 e2,
    assign_vehicles_for_leg solve pool leg_ab 1000 "cost" = Returns (Some a) /\
    vehicles a = [e1; e2] /\
    (departure e1, arrival e1) = ("08:00", "09:15")%string /\
    (departure e2, arrival e2) = ("23:00", "00:15")%string /\
    last_arrival a = Some "00:15"%string.
Proof.
  intro Ex. eexists. eexists. eexists.
  split; [exact (full_load_assignment Ex)|].
  vm_compute. repeat split.
Qed.

(** C10. Entries carry clock readings, not instants: a reported departure
    is the HH:MM of the departure instant and a reported arrival is the
    HH:MM of the arrival instant taken modulo 24 hours, while the leg's last
    arrival is the HH:MM of the greatest arrival instant, compared before
    any wrapping.  On the worked leg the second truck leaves at 23:00 and is
    reported to arrive at 00:15, which reads earlier than its departure and
    earlier than the first truck's 09:15, and 00:15 is the leg's last
    arrival. *)
Theorem clock_times_wrap_at_midnight :
  (forall (solve : Lp.LpProblem nat -> Lp.Outcome nat) (df : DataFrame) (leg : Edge)
          (total_goods : Q) (objective : string) (a : Assignment),
      assign_vehicles_for_leg solve df leg total_goods objective = Returns (Some a) ->
      exists x : nat -> Q,
        let taken := walk_loads x (available_at df (PyStr.lower (from leg))) total_goods in
        Forall2
          (fun (e : AssignedVehicle) (vl : Vehicle * Q) =>
             let t := arrival_of leg (fst vl) in
             departure e = PyTime.strftime_HM (departure_of (fst vl)) /\
             arrival e = PyTime.strftime_HM (t mod PyTime.us_per_day)%Z)
          (vehicles a) taken /\
        (vehicles a <> [] ->
         exists m : PyTime.datetime,
           last_arrival a = Some (PyTime.strftime_HM (m mod PyTime.us_per_day)%Z) /\
           In m (arrivals leg taken) /\
           Forall (fun t => (t <= m)%Z) (arrivals leg taken)))
  /\
  (forall solve : Lp.LpProblem nat -> Lp.Outcome nat,
      Lp.exact solve ->
      exists a e1 e2,
        assign_vehicles_for_leg solve pool leg_ab 1000 "cost" = Returns (Some a) /\
        vehicles a = [e1; e2] /\
        (arrival e2 <? departure e2)%string = true /\
        (arrival e2 <? arrival e1)%string = true /\
        last_arrival a = Some (arrival e2) /\
        (arrival_of leg_ab truck1 < arrival_of leg_ab truck2)%Z).
Proof.
  split.
  - exact reported_times_are_clock_readings.
  - intros solve Ex. eexists. eexists. eexists.
    split; [exact (full_load_assignment Ex)|].
    vm_compute. repeat split.
Qed.

(** ** Reported values against loads *)

(** A van of 16 g capacity, a van of 5 kg, and a van whose speed is zero. *)
Definition tiny_van : Vehicle :=
  mkVehicle "A-VAN-01" "a" (16 # 1000) 90 (2 # 5) (Some "08:00"%string) "van".
Definition roomy_van : Vehicle :=
  mkVehicle "A-VAN-01" "a" 5 90 (2 # 5) (Some "08:00"%string) "van".
Definition stalled_van : Vehicle :=
  mkVehicle "A-VAN-01" "a" 500 0 (2 # 5) (Some "08:00"%string) "van".

(** C1 as first stated fails on the reported loads: the van of capacity
    0.016 carries a cargo of 0.016; its load is 0.016 and the entry reports
    [round(0.016, 2)], that is 0.02, more than the capacity and more than the
    cargo. *)
Lemma reported_load_above_capacity :
  capacity_kg tiny_van == 16 # 1000 /\
  (forall solve : Lp.LpProblem nat -> Lp.Outcome nat,
      Lp.exact solve ->
      exists a e,
        assign_vehicles_for_leg solve [tiny_van] leg_ab (16 # 1000) "cost"
        = Returns (Some a) /\
        vehicles a = [e] /\
        load_kg e == 2 # 100 /\
        capacity_kg tiny_van < load_kg e /\
        ~ PyNum.Qsum (reported_loads (vehicles a))
          == Qmin (16 # 1000) (capacity_kg tiny_van)).
Proof.
  split; [reflexivity|]. intros solve Ex. eexists. eexists.
  split.
  - apply (@sole_vehicle_assignment solve [tiny_van] leg_ab (16 # 1000) "cost"
             0%nat tiny_van Ex); reflexivity || (vm_compute; discriminate).
  - split; [reflexivity|]. split; [reflexivity|]. split; [reflexivity|].
    vm_compute. discriminate.
Qed.

(** C2 as first stated fails in two ways.  A cargo of 1.234 on the van of
    5 kg is reported as a load of 1.23, so the reported loads do not add up
    to the cargo; and with the van whose speed is zero the call raises
    instead of returning an assignment, although the capacity covers the
    cargo. *)
Lemma cargo_misreported_or_call_raises :
  (forall solve : Lp.LpProblem nat -> Lp.Outcome nat,
      Lp.exact solve ->
      exists a e,
        assign_vehicles_for_leg solve [roomy_van] leg_ab (1234 # 1000) "cost"
        = Returns (Some a) /\
        vehicles a = [e] /\
        load_kg e == 123 # 100 /\
        ~ PyNum.Qsum (reported_loads (vehicles a)) == 1234 # 1000) /\
  (forall solve : Lp.LpProblem nat -> Lp.Outcome nat,
      Lp.exact solve ->
      100 <= capacity_kg stalled_van /\
      assign_vehicles_for_leg solve [stalled_van] leg_ab 100 "cost" = Raises).
Proof.
  split.
  - intros solve Ex. eexists. eexists. split.
    + apply (@sole_vehicle_assignment solve [roomy_van] leg_ab (1234 # 1000) "cost"
               0%nat roomy_van Ex); reflexivity || (vm_compute; discriminate).
    + split; [reflexivity|]. split; [reflexivity|]. vm_compute. discriminate.
  - intros solve Ex. split; [vm_compute; discriminate|].
    apply (@sole_vehicle_raises solve [stalled_van] leg_ab 100 "cost"
             0%nat stalled_van Ex); reflexivity || (vm_compute; discriminate).
Qed.

(** ** The theorems at the worked leg *)

Lemma assigned_loads_meet_cargo_and_capacity_at_worked_leg :
  exists (a : Assignment) (e1 e2 : AssignedVehicle),
    assign_vehicles_for_leg reference_leg_solve pool leg_ab 1000 "cost" = Returns (Some a) /\
    vehicles a = [e1; e2] /\
    load_kg e1 == 500 /\ load_kg e2 == 500 /\
    exists taken : list (Vehicle * Q),
      Forall2 (fun e vl => a_vehicle_id e = vehicle_id (fst vl) /\
                           - (1 # 200) <= load_kg e - snd vl /\
                           load_kg e - snd vl <= 1 # 200)
              (vehicles a) taken /\
      PyNum.Qsum (loads taken) == Qmin 1000 (PyNum.Qsum (capacities taken)) /\
      Forall (fun vl => snd vl <= capacity_kg (fst vl)) taken.
Proof.
  eexists. eexists. eexists.
  split; [exact (full_load_assignment reference_leg_solve_exact)|].
  split; [reflexivity|]. split; [reflexivity|]. split; [reflexivity|].
  destruct (@assigned_loads_meet_cargo_and_capacity reference_leg_solve pool leg_ab 1000
              "cost" _ (full_load_assignment reference_leg_solve_exact))
    as (x & _ & Hsum & Hle & Hrep & _).
  - vm_compute. discriminate.
  - eexists. split; [|split; [exact Hsum|exact Hle]].
    eapply Forall2_impl; [|exact Hrep].
      intros e vl (A & _ & B & C). now repeat split.
Defined.

Lemma enough_capacity_carries_whole_cargo_at_worked_leg :
  exists a : Assignment,
    assign_vehicles_for_leg reference_leg_solve pool leg_ab 1000 "cost" = Returns (Some a) /\
    PyNum.Qsum (reported_loads (vehicles a)) == 1000 /\
    exists taken : list (Vehicle * Q),
      Forall2 (fun e vl => a_vehicle_id e = vehicle_id (fst vl) /\
                           - (1 # 200) <= load_kg e - snd vl /\
                           load_kg e - snd vl <= 1 # 200)
              (vehicles a) taken /\
      PyNum.Qsum (loads taken) == 1000.
Proof.
  destruct (@enough_capacity_carries_whole_cargo reference_leg_solve reference_leg_solve_exact
              pool leg_ab 1000 "cost")
    as (a & x & Ha & _ & Hsum & Hrep & Hexact).
  - reflexivity.
  - apply Qle_bool_iff. reflexivity.
  - exact pool_schedulable.
  - exists a. split; [exact Ha|]. split.
    + apply Hexact.
      * exists 100000%Z. reflexivity.
      * rewrite pool_available. repeat constructor; cbn [snd].
        -- exists 50000%Z. reflexivity.
        -- exists 80000%Z. reflexivity.
    + eexists. split; [|exact Hsum].
      eapply Forall2_impl; [|exact Hrep].
      intros e vl (A & _ & B & C). now repeat split.
Defined.

Lemma no_cargo_gives_empty_assignment_at_worked_leg :
  exists a : Assignment,
    assign_vehicles_for_leg reference_leg_solve pool leg_ab (-5) "cost" = Returns (Some a) /\
    vehicles a = [] /\ last_arrival a = None.
Proof.
  apply (@no_cargo_gives_empty_assignment reference_leg_solve (proj2 reference_leg_solve_exact)
           pool leg_ab (-5) "cost").
  - rewrite pool_available. discriminate.
  - apply Qle_bool_iff. reflexivity.
Defined.

Lemma clock_times_wrap_at_midnight_at_worked_leg :
  exists (a : Assignment) (m : PyTime.datetime),
    assign_vehicles_for_leg reference_leg_solve pool leg_ab 1000 "cost" = Returns (Some a) /\
    last_arrival a = Some (PyTime.strftime_HM (m mod PyTime.us_per_day)%Z).
Proof.
  destruct (proj1 clock_times_wrap_at_midnight reference_leg_solve pool leg_ab 1000
              "cost"%string _ (full_load_assignment reference_leg_solve_exact))
    as (x & _ & Hlast).
  destruct Hlast as (m & Hm & _).
  - vm_compute. discriminate.
  - eexists. exists m. split; [exact (full_load_assignment reference_leg_solve_exact)|exact Hm].
Defined.

End CapacityExamples.


(* ------------------------------------------------------------------ *)
(** * Properties of the Plan Aggregator *)

Module PlanFacts.

Import Graph CapacityAllocator Plan.
Open Scope Q_scope.

(** The loop over the legs: one assignment per leg, in the order of the
    legs, and [final_arrival] left at the last one's. *)
Lemma assign_legs_spec solve_leg vdf goods_kg objective route :
  forall legs_output final_arrival legs_out final,
    assign_legs solve_leg vdf goods_kg objective route legs_output final_arrival
      = Returns (Some (legs_out, final)) ->
    exists new : list Assignment,
      legs_out = legs_output ++ new /\
      Forall2 (fun leg a =>
                 assign_vehicles_for_leg solve_leg vdf leg goods_kg objective
                   = Returns (Some a))
              route new /\
      final = match rev new with
              | [] => final_arrival
              | a :: _ => last_arrival a
              end.
Proof.
  induction route as [|leg rest IH]; intros legs_output final_arrival legs_out final H.
  - cbn [assign_legs] in H. injection H as <- <-. exists [].
    split; [now rewrite app_nil_r|]. split; [constructor|reflexivity].
  - cbn [assign_legs] in H.
    destruct (assign_vehicles_for_leg solve_leg vdf leg goods_kg objective)
      as [|[a|]] eqn:Ea; try discriminate.
    destruct (IH _ _ _ _ H) as (new & El & F2 & Ef).
    exists (a :: new). split; [now rewrite El, <- app_assoc|].
    split; [now constructor|].
    cbn [rev]. destruct (rev new) as [|b r] eqn:Er; cbn [app]; exact Ef.
Qed.

Lemma plan_inversion solve_route solve_leg nodes edges vehicles_df source destination
      goods_kg objective plan :
  optimize_with_capacity solve_route solve_leg nodes edges vehicles_df source destination
    goods_kg objective = Success plan ->
  exists vdf,
    vehicles_df = Some vdf /\
    let path := PathOptimizer.optimize solve_route nodes edges
                  (PyStr.lower source) (PyStr.lower destination) objective None in
    path <> [] /\
    assign_legs solve_leg vdf goods_kg objective path [] None
      = Returns (Some (legs plan, final_delivery_time plan)) /\
    route plan = route_nodes path /\
    total_goods_kg plan = goods_kg.
Proof.
  unfold optimize_with_capacity. intro H.
  destruct (negb (node_mem nodes source) || negb (node_mem nodes destination));
    [discriminate|].
  destruct vehicles_df as [[|v vdf]|]; try discriminate.
  exists (v :: vdf). split; [reflexivity|]. cbv zeta.
  destruct (PathOptimizer.optimize solve_route nodes edges (PyStr.lower source)
              (PyStr.lower destination) objective None) as [|leg rest] eqn:Ep;
    [discriminate|].
  split; [discriminate|].
  destruct (assign_legs solve_leg (v :: vdf) goods_kg objective (leg :: rest) [] None)
    as [|[[legs_output final_arrival]|]] eqn:El; try discriminate.
  injection H as <-. cbn [legs final_delivery_time route total_goods_kg].
  repeat split; reflexivity.
Qed.

(** The completion time of a built plan is the last arrival of its last
    leg, and the legs of the plan follow the list returned by [optimize]. *)
Lemma final_delivery_is_last_leg :
  forall solve_route solve_leg nodes edges vehicles_df source destination
         goods_kg objective plan,
    optimize_with_capacity solve_route solve_leg nodes edges vehicles_df source
      destination goods_kg objective = Success plan ->
    exists (processed : list Assignment) (final_leg : Assignment),
      legs plan = processed ++ [final_leg] /\
      final_delivery_time plan = last_arrival final_leg /\
      Forall2 (fun leg a => leg_from a = from leg /\ leg_to a = to leg)
        (PathOptimizer.optimize solve_route nodes edges
           (PyStr.lower source) (PyStr.lower destination) objective None)
        (legs plan).
Proof.
  intros solve_route solve_leg nodes edges vehicles_df source destination
         goods_kg objective plan H.
  destruct (plan_inversion _ _ _ _ _ _ _ _ _ H) as (vdf & _ & Hne & Hl & _).
  cbv zeta in Hne, Hl.
  destruct (assign_legs_spec _ _ _ _ _ _ _ Hl) as (new & El & F2 & Ef).
  cbn [app] in El. rewrite El.
  assert (Hnew : new <> []).
  { intro E. rewrite E in F2. inversion F2 as [E0|]. apply Hne. now symmetry. }
  destruct (@exists_last _ new Hnew) as (processed & final_leg & Ep).
  exists processed, final_leg. split; [exact Ep|]. split.
  - rewrite Ef, Ep, rev_app_distr. reflexivity.
  - clear - F2. induction F2 as [|leg a route new Ha _ IH]; constructor; [|exact IH].
    destruct (CapacityFacts.assignment_inversion _ _ _ _ _ Ha) as (x & _ & _ & ->).
    split; reflexivity.
Qed.

End PlanFacts.


(* ------------------------------------------------------------------ *)
(** * A worked plan *)

Module PlanExamples.

Import Graph CapacityAllocator Plan.
Open Scope Q_scope.

(** A road from "c" through "a" to "b", and one truck at each of "c" and
    "a". *)
Definition cab_nodes : Nodes := [("c", (0, 0)); ("a", (0, 0)); ("b", (0, 0))]%string.
Definition edge_ca : Edge := mkEdge "c" "a" road 100 2 50 0 0 0 0 [(0, 0); (0, 0)].
Definition edge_ab : Edge := mkEdge "a" "b" road 150 3 75 0 0 0 0 [(0, 0); (0, 0)].
Definition cab_edges : Edges := [(("c", "a")%string, edge_ca); (("a", "b")%string, edge_ab)].

Definition truck_c : Vehicle :=
  mkVehicle "C-TRU-01" "c" 800 80 (1 # 2) (Some "09:05"%string) "truck".
Definition truck_a : Vehicle :=
  mkVehicle "A-TRU-01" "a" 800 80 (1 # 2) (Some "12:00"%string) "truck".
Definition fleet : DataFrame := [truck_c; truck_a].

(** The only path from "c" to "b" takes both edges; [optimize] returns
    them sorted by origin, "a" before "c". *)
Lemma cab_route solve_route :
  Lp.exact solve_route ->
  PathOptimizer.optimize solve_route cab_nodes cab_edges "c" "b" "cost" None
    = [edge_ab; edge_ca].
Proof.
  intro Ex.
  rewrite (@PathFacts.forced_route solve_route cab_nodes cab_edges "c" "b" "cost" None Ex).
  - reflexivity.
  - apply PathFacts.feasible_by_check; [intros k _; now right|reflexivity].
  - intros x [B S] k Hk.
    cbv [PathOptimizer.build_model Lp.constraints cab_nodes cab_edges edge_ca edge_ab
         Dict.keys map fst snd PathOptimizer.flow_constraint
         PathOptimizer.via_constraint PathOptimizer.via_nodes PathOptimizer.via_truthy
         PathOptimizer.inflow PathOptimizer.outflow filter
         app negb String.eqb Ascii.eqb Bool.eqb Lp.sub Lp.neg] in S.
    inversion S as [|c1 r1 S1 T1]; subst. inversion T1 as [|c2 r2 S2 T2]; subst.
    inversion T2 as [|c3 r3 S3 _]; subst.
    unfold Lp.satisfies in S1, S2, S3. cbn [Lp.sense Lp.lhs Lp.rhs] in S1, S2, S3.
    unfold Lp.value in S1, S2, S3. cbn [fold_right fst snd] in S1, S2, S3.
    apply Qeq_bool_iff. cbv [Dict.keys cab_edges map fst] in Hk.
    destruct Hk as [<-|[<-|[]]]; lra.
Qed.

(** A leg whose origin has one vehicle, larger than a positive cargo: every
    exact solver selects it. *)
Lemma lone_vehicle_assignment solve_leg df leg total objective i v :
  Lp.exact solve_leg ->
  available_at df (PyStr.lower (from leg)) = [(i, v)] ->
  0 < total -> total < capacity_kg v ->
  schedule_raises leg v = false ->
  assign_vehicles_for_leg solve_leg df leg total objective =
    Returns (Some (mkAssignment (from leg) (to leg)
                     [entry leg v total] (distance leg) (time leg)
                     (Some (PyTime.strftime_HM (arrival_of leg v))))).
Proof.
  intros Ex Ea Hpos Hcap Hr.
  rewrite (@CapacityFacts.sole_vehicle_assignment solve_leg df leg total objective i v
             Ex Ea Hpos (Qlt_le_weak _ _ Hcap) Hr).
  assert (M : PyNum.py_min (capacity_kg v) total = total).
  { destruct (PyNum.py_min_cases (capacity_kg v) total) as [[_ ->]|[L _]];
      [reflexivity|exfalso; lra]. }
  now rewrite M.
Qed.

Definition reference_route_solver : Lp.LpProblem PathOptimizer.Key -> Lp.Outcome PathOptimizer.Key :=
  Lp.enumerate_solve PyStr.pair_eqb.
Definition reference_leg_solver : Lp.LpProblem nat -> Lp.Outcome nat :=
  Lp.enumerate_solve Nat.eqb.

Lemma reference_route_solver_exact : Lp.exact reference_route_solver.
Proof. apply Lp.enumerate_solve_exact. apply PyStr.pair_eqb_eq. Qed.

Lemma reference_leg_solver_exact : Lp.exact reference_leg_solver.
Proof. apply Lp.enumerate_solve_exact. apply Nat.eqb_eq. Qed.

(** The plan for 600 kg from "c" to "b", for any pair of exact solvers. *)
Definition cab_plan : CapacityPlan :=
  mkPlan 600 ["a"; "c"; "a"]%string "cost"
    [mkAssignment "a" "b" [entry edge_ab truck_a 600] 150 3
       (Some (PyTime.strftime_HM (arrival_of edge_ab truck_a)));
     mkAssignment "c" "a" [entry edge_ca truck_c 600] 100 2
       (Some (PyTime.strftime_HM (arrival_of edge_ca truck_c)))]
    (Some (PyTime.strftime_HM (arrival_of edge_ca truck_c))).

Lemma cab_plan_built solve_route solve_leg :
  Lp.exact solve_route -> Lp.exact solve_leg ->
  optimize_with_capacity solve_route solve_leg cab_nodes cab_edges (Some fleet)
    "c" "b" 600 "cost" = Success cab_plan.
Proof.
  intros Er El. unfold optimize_with_capacity.
  change (negb (node_mem cab_nodes "c") || negb (node_mem cab_nodes "b")) with false.
  cbv iota. unfold fleet at 1.
  change (PyStr.lower "c") with "c"%string. change (PyStr.lower "b") with "b"%string.
  rewrite (cab_route Er). cbn [assign_legs].
  rewrite (@lone_vehicle_assignment solve_leg fleet edge_ab 600 "cost" 1%nat truck_a El);
    [|reflexivity|reflexivity|reflexivity|reflexivity].
  rewrite (@lone_vehicle_assignment solve_leg fleet edge_ca 600 "cost" 0%nat truck_c El);
    [|reflexivity|reflexivity|reflexivity|reflexivity].
  reflexivity.
Qed.

Example cab_plan_times :
  map last_arrival (legs cab_plan) = [Some "13:52"; Some "10:20"]%string /\
  final_delivery_time cab_plan = Some "10:20"%string.
Proof. split; reflexivity. Qed.

(** C3. The completion time of every built plan is the last arrival of the
    last leg processed, the legs being processed in the order of the list
    [optimize] returned.  It is not the greatest last arrival: in the worked
    plan the first leg processed ends at 13:52 and the completion time is
    the 10:20 of the last one. *)
Theorem final_delivery_time_is_last_processed_leg :
  (forall solve_route solve_leg nodes edges vehicles_df source destination
          goods_kg objective plan,
      optimize_with_capacity solve_route solve_leg nodes edges vehicles_df source
        destination goods_kg objective = Success plan ->
      exists (processed : list Assignment) (final_leg : Assignment),
        legs plan = processed ++ [final_leg] /\
        final_delivery_time plan = last_arrival final_leg /\
        Forall2 (fun leg a => leg_from a = from leg /\ leg_to a = to leg)
          (PathOptimizer.optimize solve_route nodes edges
             (PyStr.lower source) (PyStr.lower destination) objective None)
          (legs plan))
  /\
  (forall solve_route solve_leg,
      Lp.exact solve_route -> Lp.exact solve_leg ->
      exists plan first_leg final_leg,
        optimize_with_capacity solve_route solve_leg cab_nodes cab_edges (Some fleet)
          "c" "b" 600 "cost" = Success plan /\
        legs plan = [first_leg; final_leg] /\
        last_arrival first_leg = Some "13:52"%string /\
        last_arrival final_leg = Some "10:20"%string /\
        final_delivery_time plan = Some "10:20"%string).
Proof.
  split.
  - exact PlanFacts.final_delivery_is_last_leg.
  - intros solve_route solve_leg Er El. eexists. eexists. eexists.
    split; [exact (cab_plan_built Er El)|]. repeat split.
Qed.

(** C4, at the plan from "c" to "b".  The path is c, a, b; the legs come back
    from [optimize] sorted by origin, so the node sequence the plan reports
    is a, c, a. *)
Theorem plan_route_lists_sorted_origins :
  forall solve_route solve_leg,
    Lp.exact solve_route -> Lp.exact solve_leg ->
    exists plan,
      optimize_with_capacity solve_route solve_leg cab_nodes cab_edges (Some fleet)
        "c" "b" 600 "cost" = Success plan /\
      map (fun a => (leg_from a, leg_to a)) (legs plan)
        = [("a", "b"); ("c", "a")]%string /\
      route plan = ["a"; "c"; "a"]%string /\
      route plan <> ["c"; "a"; "b"]%string.
Proof.
  intros solve_route solve_leg Er El. exists cab_plan.
  split; [exact (cab_plan_built Er El)|]. repeat split. discriminate.
Qed.

Lemma final_delivery_time_is_last_processed_leg_at_cab :
  exists plan final_leg,
    optimize_with_capacity reference_route_solver reference_leg_solver
      cab_nodes cab_edges (Some fleet) "c" "b" 600 "cost" = Success plan /\
    final_delivery_time plan = last_arrival final_leg.
Proof.
  destruct (proj1 final_delivery_time_is_last_processed_leg
              reference_route_solver reference_leg_solver cab_nodes cab_edges
              (Some fleet) "c"%string "b"%string 600 "cost"%string cab_plan
              (cab_plan_built reference_route_solver_exact reference_leg_solver_exact))
    as (processed & final_leg & _ & Hf & _).
  exists cab_plan, final_leg.
  split; [exact (cab_plan_built reference_route_solver_exact reference_leg_solver_exact)|].
  exact Hf.
Defined.

Lemma plan_route_lists_sorted_origins_at_reference :
  exists plan,
    optimize_with_capacity reference_route_solver reference_leg_solver
      cab_nodes cab_edges (Some fleet) "c" "b" 600 "cost" = Success plan /\
    route plan = ["a"; "c"; "a"]%string.
Proof.
  destruct (@plan_route_lists_sorted_origins reference_route_solver reference_leg_solver
              reference_route_solver_exact reference_leg_solver_exact)
    as (plan & Hp & _ & Hr & _).
  exists plan. split; [exact Hp|exact Hr].
Defined.

End PlanExamples.

(* ------------------------------------------------------------------ *)
(** * Further facts about numbers and names *)

Module PyFacts.

Open Scope Q_scope.

Lemma round_half_even_nonneg q : 0 <= q -> (0 <= PyNum.round_half_even q)%Z.
Proof.
  intro H. unfold PyNum.round_half_even.
  assert (F : (0 <= Qfloor q)%Z).
  { change 0%Z with (Qfloor 0). now apply Qfloor_resp_le. }
  destruct (Qcompare (q - inject_Z (Qfloor q)) (1 # 2));
    [destruct (Z.even (Qfloor q))| |]; lia.
Qed.

Lemma round2_nonneg q : 0 <= q -> 0 <= PyNum.round2 q.
Proof.
  intro H. unfold PyNum.round2.
  assert (R : (0 <= PyNum.round_half_even (q * 100))%Z).
  { apply round_half_even_nonneg.
    setoid_replace 0 with (0 * 100) by ring.
    apply Qmult_le_compat_r; [exact H|discriminate]. }
  apply Qle_shift_div_l; [reflexivity|].
  setoid_replace (0 * 100) with (inject_Z 0) by reflexivity.
  now rewrite <- Zle_Qle.
Qed.

Lemma lower_ascii_idempotent c :
  PyStr.lower_ascii (PyStr.lower_ascii c) = PyStr.lower_ascii c.
Proof. destruct c as [[] [] [] [] [] [] [] []]; reflexivity. Qed.

Lemma is_space_lower_ascii c : PyStr.is_space (PyStr.lower_ascii c) = PyStr.is_space c.
Proof. destruct c as [[] [] [] [] [] [] [] []]; reflexivity. Qed.

Lemma lower_idempotent s : PyStr.lower (PyStr.lower s) = PyStr.lower s.
Proof.
  induction s as [|c s IH]; [reflexivity|].
  cbn [PyStr.lower]. now rewrite lower_ascii_idempotent, IH.
Qed.

Lemma lower_lstrip s : PyStr.lower (PyStr.lstrip s) = PyStr.lstrip (PyStr.lower s).
Proof.
  induction s as [|c s IH]; [reflexivity|].
  cbn [PyStr.lstrip PyStr.lower]. rewrite is_space_lower_ascii.
  destruct (PyStr.is_space c); [exact IH|reflexivity].
Qed.

Lemma lower_rstrip s : PyStr.lower (PyStr.rstrip s) = PyStr.rstrip (PyStr.lower s).
Proof.
  induction s as [|c s IH]; [reflexivity|].
  cbn [PyStr.rstrip PyStr.lower]. rewrite <- IH, is_space_lower_ascii.
  destruct (PyStr.rstrip s) as [|d t]; cbn [PyStr.lower].
  - destruct (PyStr.is_space c); reflexivity.
  - reflexivity.
Qed.

Lemma lower_strip s : PyStr.lower (PyStr.strip s) = PyStr.strip (PyStr.lower s).
Proof. unfold PyStr.strip. now rewrite lower_rstrip, lower_lstrip. Qed.

(** A name that went through [lower] and [strip], in either order, is
    left alone by [lower]. *)
Lemma lower_strip_lower s :
  PyStr.lower (PyStr.strip (PyStr.lower s)) = PyStr.strip (PyStr.lower s).
Proof. now rewrite lower_strip, lower_idempotent. Qed.

End PyFacts.

(* ------------------------------------------------------------------ *)
(** * The graph an upload leaves *)

Module UploadMore.

Import Graph Upload UploadFacts.
Open Scope Q_scope.

(** The last row of a file that names the pair [k]. *)
Definition last_for (k : string * string) (rows : list Row) : option Row :=
  fold_left (fun acc r => if PyStr.pair_eqb (row_key r) k then Some r else acc) rows None.

Lemma last_for_snoc k rows r :
  last_for k (rows ++ [r]) =
    if PyStr.pair_eqb (row_key r) k then Some r else last_for k rows.
Proof. unfold last_for. now rewrite fold_left_app. Qed.

Lemma values_set_in (edges : Edges) k e e' :
  In e' (Dict.values (Dict.set PyStr.pair_eqb edges k e)) ->
  e' = e \/ In e' (Dict.values edges).
Proof.
  unfold Dict.values. induction edges as [|[k0 e0] rest IH]; cbn [Dict.set map snd].
  - intros [<-|[]]. now left.
  - destruct (PyStr.pair_eqb k0 k); cbn [map snd].
    + intros [<-|H]; [now left|right; now right].
    + intros [<-|H]; [right; now left|].
      destruct (IH H) as [->|H']; [now left|right; now right].
Qed.

Section WithDistance.

Variable haversine : Q -> Q -> Q -> Q -> Q.
Variable country : string.

#[local] Abbreviation process_air := (process_air haversine country).
#[local] Abbreviation process_road := (process_road haversine country).
#[local] Abbreviation air_edge := (air_edge haversine country).
#[local] Abbreviation road_edge := (road_edge haversine country).
#[local] Abbreviation upload := (upload haversine country).

Lemma air_fold_edge rows k :
  forall st : Nodes * Edges,
    edge_get (snd (fold_left process_air rows st)) k =
      match last_for k rows with
      | Some r => Some (air_edge r)
      | None => edge_get (snd st) k
      end.
Proof.
  induction rows as [|r rows IH] using rev_ind; intro st; [reflexivity|].
  rewrite fold_left_app, last_for_snoc. cbn [fold_left].
  rewrite process_air_edges.
  destruct (PyStr.pair_eqb (row_key r) k) eqn:E.
  - apply PyStr.pair_eqb_eq in E. subst k. apply edge_get_set_same.
  - rewrite edge_get_set_other; [apply IH|].
    intro Ek. rewrite Ek, PyStr.pair_eqb_refl in E. discriminate.
Qed.

Lemma road_fold_edge rows k :
  forall st : Nodes * Edges,
    edge_get (snd (fold_left process_road rows st)) k =
      match edge_get (snd st) k with
      | Some e =>
          if mode_eqb (mode e) air then Some e
          else match last_for k rows with
               | Some r => Some (road_edge r)
               | None => Some e
               end
      | None => option_map road_edge (last_for k rows)
      end.
Proof.
  induction rows as [|r rows IH] using rev_ind; intro st.
  - cbn [fold_left last_for option_map].
    destruct (edge_get (snd st) k) as [e|]; [|reflexivity].
    now destruct (mode_eqb (mode e) air).
  - rewrite fold_left_app, last_for_snoc. cbn [fold_left].
    set (st' := fold_left process_road rows st) in *.
    specialize (IH st). fold st' in IH.
    destruct (PyStr.pair_eqb (row_key r) k) eqn:E.
    + apply PyStr.pair_eqb_eq in E. subst k.
      destruct (edge_get (snd st) (row_key r)) as [e|] eqn:G.
      * destruct (mode_eqb (mode e) air) eqn:M.
        -- apply road_row_keeps_air; [exact IH|]. now destruct (mode e).
        -- destruct (last_for (row_key r) rows) as [r'|].
           ++ apply (@road_row_overwrites_road haversine country st' r _ IH). apply road_edge_mode.
           ++ apply (@road_row_overwrites_road haversine country st' r _ IH). now destruct (mode e).
      * cbn [option_map]. destruct (last_for (row_key r) rows) as [r'|];
          cbn [option_map] in IH.
        -- apply (@road_row_overwrites_road haversine country st' r _ IH). apply road_edge_mode.
        -- now apply road_row_fills_gap.
    + rewrite process_road_edges.
      assert (Keep : forall (edges : Edges) e,
                 edge_get (Dict.set PyStr.pair_eqb edges (row_key r) e) k = edge_get edges k).
      { intros edges e. apply edge_get_set_other.
        intro Ek. rewrite Ek, PyStr.pair_eqb_refl in E. discriminate. }
      destruct (edge_get (snd st') (row_key r)) as [e'|];
        [destruct (mode_eqb (mode e') air)|]; rewrite ?Keep; exact IH.
Qed.

(** X1. The edge an upload stores for a pair is built from the last air row
    naming the pair if there is one, and otherwise from the last road row
    naming it; a pair no row names has no edge. *)
Theorem upload_edge_is_last_air_else_last_road :
  forall (air_rows road_rows : list Row) (k : string * string),
    edge_get (snd (upload air_rows road_rows)) k =
      match last_for k air_rows with
      | Some r => Some (air_edge r)
      | None => option_map road_edge (last_for k road_rows)
      end.
Proof.
  intros air_rows road_rows k. unfold Upload.upload.
  rewrite road_fold_edge, air_fold_edge. cbn [snd edge_get Dict.get].
  destruct (last_for k air_rows) as [r|]; [|reflexivity].
  now rewrite air_edge_mode.
Qed.

(** ** Node names *)

Definition row_names (rows : list Row) : list string :=
  flat_map (fun r => [node_name (source r); node_name (destination r)]) rows.

Lemma process_air_nodes (st : Nodes * Edges) r :
  fst (process_air st r) = add_nodes (fst st) r.
Proof. now destruct st. Qed.

Lemma process_road_nodes (st : Nodes * Edges) r :
  fst (process_road st r) = add_nodes (fst st) r.
Proof. now destruct st. Qed.

Lemma fold_nodes (step : Nodes * Edges -> Row -> Nodes * Edges) rows :
  (forall st r, fst (step st r) = add_nodes (fst st) r) ->
  forall (st : Nodes * Edges) n,
    In n (Dict.keys (fst (fold_left step rows st))) <->
    In n (row_names rows) \/ In n (Dict.keys (fst st)).
Proof.
  intro Hstep. induction rows as [|r rows IH]; intros st n; cbn [fold_left row_names flat_map].
  - cbn [In]. tauto.
  - rewrite IH, Hstep, add_nodes_keys. fold (row_names rows).
    cbn [app In]. split; intro H; intuition (subst; auto).
Qed.

(** The shape of an uploaded graph. *)
Lemma uploaded_graph_shape :
  forall (air_rows road_rows : list Row),
    let nodes := fst (upload air_rows road_rows) in
    let edges := snd (upload air_rows road_rows) in
    (forall n, In n (Dict.keys nodes) <->
               In n (row_names air_rows) \/ In n (row_names road_rows)) /\
    NoDup (Dict.keys nodes) /\
    (forall n, In n (Dict.keys nodes) -> PyStr.lower n = n) /\
    closed nodes edges /\
    keyed edges.
Proof.
  intros air_rows road_rows nodes edges.
  assert (Names : forall n, In n (Dict.keys nodes) <->
                            In n (row_names air_rows) \/ In n (row_names road_rows)).
  { intro n. unfold nodes, Upload.upload.
    rewrite (fold_nodes process_road road_rows process_road_nodes).
    rewrite (fold_nodes process_air air_rows process_air_nodes).
    cbn [fst Dict.keys map In]. tauto. }
  pose proof (ingested_graph_shape haversine country
                (map (AirRow) air_rows ++ map (RoadRow) road_rows)) as S.
  cbv zeta in S. rewrite <- upload_as_ingestion in S.
  destruct S as (Wn & _ & Kd & C).
  split; [exact Names|]. split; [exact Wn|]. split; [|split; assumption].
  intros n Hn. apply Names in Hn.
  assert (L : forall rows, In n (row_names rows) -> PyStr.lower n = n).
  { intros rows H. unfold row_names in H. apply in_flat_map in H.
    destruct H as [r [_ [<-|[<-|[]]]]]; apply PyFacts.lower_strip_lower. }
  destruct Hn as [H|H]; now apply (L _ H).
Qed.

(** X2. The nodes of an uploaded graph are exactly the normalised endpoint
    names of the rows of both files (a road row counts even when its edge
    gives way to an air edge); names are distinct and already lowercase;
    every edge joins two nodes and is stored under its own endpoints. *)
Theorem uploaded_graph_is_well_formed :
  forall (air_rows road_rows : list Row),
    let nodes := fst (upload air_rows road_rows) in
    let edges := snd (upload air_rows road_rows) in
    (forall n, In n (Dict.keys nodes) <->
               In n (row_names air_rows) \/ In n (row_names road_rows)) /\
    NoDup (Dict.keys nodes) /\
    (forall n, In n (Dict.keys nodes) -> PyStr.lower n = n) /\
    closed nodes edges /\
    keyed edges.
Proof. exact uploaded_graph_shape. Qed.

(** ** Weights *)

Lemma get_fuel_price_positive c f : 0 < get_fuel_price c f.
Proof.
  unfold get_fuel_price.
  repeat match goal with
         | |- context [if ?b then _ else _] => destruct b
         end; reflexivity.
Qed.

Definition nonneg_edge (e : Edge) : Prop :=
  0 <= distance e /\ 0 <= time e /\ 0 <= fuel e.

Hypothesis haversine_nonneg : forall a b c d, 0 <= haversine a b c d.

Lemma air_edge_nonneg r : nonneg_edge (air_edge r).
Proof.
  unfold Upload.air_edge, air_metrics, make_edge, nonneg_edge.
  cbn [distance time fuel].
  set (d := haversine (r_lat_src r) (r_lon_src r) (r_lat_dst r) (r_lon_dst r)).
  assert (Hd : 0 <= d) by apply haversine_nonneg.
  pose proof (get_fuel_price_positive country "jet") as Hp.
  repeat split; repeat apply PyFacts.round2_nonneg; try assumption.
  - apply Qle_shift_div_l; [reflexivity|]. lra.
  - apply Qmult_le_0_compat; [|lra]. apply Qmult_le_0_compat; [assumption|discriminate].
Qed.

Lemma road_edge_nonneg r : nonneg_edge (road_edge r).
Proof.
  unfold Upload.road_edge, road_metrics, make_edge, nonneg_edge.
  cbn [distance time fuel].
  set (d := haversine (r_lat_src r) (r_lon_src r) (r_lat_dst r) (r_lon_dst r)).
  assert (Hd : 0 <= d) by apply haversine_nonneg.
  pose proof (get_fuel_price_positive country "diesel") as Hp.
  repeat split; repeat apply PyFacts.round2_nonneg; try assumption.
  - apply Qle_shift_div_l; [reflexivity|]. lra.
  - apply Qmult_le_0_compat; [|lra]. apply Qle_shift_div_l; [reflexivity|]. lra.
Qed.

Lemma fold_nonneg (step : Nodes * Edges -> Row -> Nodes * Edges) (make : Row -> Edge) rows :
  (forall r, nonneg_edge (make r)) ->
  (forall st r e, In e (Dict.values (snd (step st r))) ->
                  e = make r \/ In e (Dict.values (snd st))) ->
  forall st : Nodes * Edges,
    (forall e, In e (Dict.values (snd st)) -> nonneg_edge e) ->
    forall e, In e (Dict.values (snd (fold_left step rows st))) -> nonneg_edge e.
Proof.
  intros Hmake Hstep. induction rows as [|r rows IH]; intros st Hst; [exact Hst|].
  cbn [fold_left]. apply IH. intros e He.
  destruct (Hstep st r e He) as [->|Hin]; [apply Hmake|now apply Hst].
Qed.

End WithDistance.

(** X3. When the distance function is never negative, every edge of an
    uploaded graph has non-negative distance, time and fuel cost, so the
    Path Optimizer minimises non-negative weights whatever the objective. *)
Theorem uploaded_weights_are_nonnegative :
  forall (haversine : Q -> Q -> Q -> Q -> Q) (country : string),
    (forall a b c d, 0 <= haversine a b c d) ->
    forall (air_rows road_rows : list Row) (e : Edge),
      In e (Dict.values (snd (Upload.upload haversine country air_rows road_rows))) ->
      0 <= distance e /\ 0 <= time e /\ 0 <= fuel e /\
      forall objective, 0 <= PathOptimizer.weight objective e.
Proof.
  intros haversine country Hh air_rows road_rows e He.
  assert (N : nonneg_edge e).
  { revert e He. unfold Upload.upload.
    apply (fold_nonneg (Upload.process_road haversine country)
                       (Upload.road_edge haversine country) road_rows).
    - intro r. now apply road_edge_nonneg.
    - intros st r e He. rewrite process_road_edges in He.
      destruct (edge_get (snd st) (row_key r)) as [e'|];
        [destruct (mode_eqb (mode e') air); [now right|]|];
        now apply values_set_in in He.
    - apply (fold_nonneg (Upload.process_air haversine country)
                         (Upload.air_edge haversine country) air_rows).
      + intro r. now apply air_edge_nonneg.
      + intros st r e He. rewrite process_air_edges in He.
        now apply values_set_in in He.
      + intros e []. }
  destruct N as (Hd & Ht & Hf). repeat split; try assumption.
  intro objective. unfold PathOptimizer.weight.
  destruct ((objective =? "time")%string || (objective =? "fastest")%string);
    [assumption|]. now destruct (objective =? "distance")%string.
Qed.

End UploadMore.

(* ------------------------------------------------------------------ *)
(** * The shape of a returned route *)

Module PathMore.

Import Graph PathOptimizer PathFacts.
Open Scope Q_scope.

(** The number of edges of a route that leave node [v]. *)
Definition route_outflow (route : list Edge) (v : string) : nat :=
  List.length (filter (fun e => (from e =? v)%string) route).

Lemma selected_outflow_count (edges : Edges) (x : Key -> Q) (v : string) :
  keyed edges ->
  route_outflow (selected edges x) v =
    List.length (filter (fun k => Qeq_bool (x k) 1)
                   (filter (fun k : Key => (fst k =? v)%string) (Dict.keys edges))).
Proof.
  unfold route_outflow, selected, Dict.keys.
  induction edges as [|[k e] rest IH]; intro Kd; [reflexivity|].
  assert (Kr : keyed rest) by (intros k' e' H; apply Kd; now right).
  specialize (IH Kr).
  assert (Ek : fst k = from e) by (rewrite (Kd k e (or_introl eq_refl)); reflexivity).
  cbn [map filter fst snd]. rewrite Ek.
  destruct (Qeq_bool (x k) 1) eqn:Ex; cbn [map filter snd].
  - destruct (from e =? v)%string; cbn [filter List.length].
    + rewrite Ex. cbn [List.length]. now rewrite IH.
    + exact IH.
  - destruct (from e =? v)%string; cbn [filter].
    + rewrite Ex. exact IH.
    + exact IH.
Qed.

Lemma route_outflow_perm r1 r2 v :
  Permutation r1 r2 -> route_outflow r1 v = route_outflow r2 v.
Proof.
  intro P. unfold route_outflow. apply Permutation_length.
  induction P as [|x l l' _ IH|x y l|l l' l'' _ IH1 _ IH2]; cbn [filter].
  - constructor.
  - destruct (from x =? v)%string; [now constructor|exact IH].
  - destruct (from x =? v)%string, (from y =? v)%string;
      try reflexivity. apply perm_swap.
  - now transitivity (filter (fun e => (from e =? v)%string) l').
Qed.

(** Inflow and outflow of the route, as the solution's constraint sees
    them. *)
Lemma route_flows solve nodes (edges : Edges) start end_ objective via x :
  Lp.sound solve -> keyed edges ->
  solve (build_model nodes edges start end_ objective via) = Lp.Solved 1 x ->
  forall n,
    Lp.value x (inflow edges n)
      == inject_Z (Z.of_nat (route_inflow
                               (optimize solve nodes edges start end_ objective via) n)) /\
    Lp.value x (outflow edges n)
      == inject_Z (Z.of_nat (route_outflow
                               (optimize solve nodes edges start end_ objective via) n)).
Proof.
  intros Sound Kd Hs n.
  destruct (Sound _ _ (route_model_wf nodes edges start end_ objective via) Hs)
    as [[B _] _].
  cbn [build_model Lp.variables] in B.
  assert (E : optimize solve nodes edges start end_ objective via
              = sorted (selected edges x)).
  { unfold optimize. now rewrite Hs. }
  rewrite E.
  rewrite (route_inflow_perm n (sorted_perm _)), (route_outflow_perm n (sorted_perm _)).
  rewrite selected_inflow_count, selected_outflow_count by assumption.
  unfold inflow, outflow. split; apply unit_terms_count;
    intros k Hk; apply B; now apply filter_In in Hk.
Qed.

(** X4. A route returned by a sound solver is a unit flow from [start] to
    [end_] over the nodes: at the start node one more edge leaves than
    enters, at the end node one more enters than leaves, and at every other
    node as many enter as leave. *)
Theorem returned_route_conserves_flow :
  forall (solve : Lp.LpProblem Key -> Lp.Outcome Key),
    Lp.sound solve ->
    forall (nodes : Nodes) (edges : Edges) (start end_ objective : string)
           (via : option Via),
      keyed edges ->
      let route := optimize solve nodes edges start end_ objective via in
      route <> [] ->
      forall n, In n (Dict.keys nodes) ->
        if (n =? start)%string then
          route_outflow route n = S (route_inflow route n)
        else if (n =? end_)%string then
          route_inflow route n = S (route_outflow route n)
        else
          route_inflow route n = route_outflow route n.
Proof.
  intros solve Sound nodes edges start end_ objective via Kd route Hne n Hn.
  destruct (optimize_cases solve nodes edges start end_ objective via)
    as [[E _]|[x [Hs _]]]; [now contradiction Hne|].
  destruct (@route_flows solve nodes edges start end_ objective via x Sound Kd Hs n)
    as [Hin Hout].
  fold route in Hin, Hout.
  destruct (Sound _ _ (route_model_wf nodes edges start end_ objective via) Hs)
    as [[_ S] _].
  cbn [build_model Lp.constraints] in S. apply Forall_app in S. destruct S as [S _].
  rewrite Forall_forall in S.
  assert (C : Lp.satisfies x (flow_constraint edges start end_ n)).
  { apply S. now apply in_map. }
  apply flow_constraint_net in C. unfold net, demand in C. rewrite Hin, Hout in C.
  destruct (n =? start)%string; [|destruct (n =? end_)%string].
  - assert (Z : (Z.of_nat (route_outflow route n)
                 = Z.of_nat (route_inflow route n) + 1)%Z).
    { apply (proj1 (inject_Z_injective _ _)). rewrite inject_Z_plus.
      change (inject_Z 1) with 1. lra. }
    lia.
  - assert (Z : (Z.of_nat (route_inflow route n)
                 = Z.of_nat (route_outflow route n) + 1)%Z).
    { apply (proj1 (inject_Z_injective _ _)). rewrite inject_Z_plus.
      change (inject_Z 1) with 1. lra. }
    lia.
  - assert (Z : Z.of_nat (route_inflow route n) = Z.of_nat (route_outflow route n)).
    { apply (proj1 (inject_Z_injective _ _)). lra. }
    lia.
Qed.

(** A result is a selection of the dictionary's entries. *)
Lemma route_within_graph :
  forall (solve : Lp.LpProblem Key -> Lp.Outcome Key)
         (nodes : Nodes) (edges : Edges) (start end_ objective : string)
         (via : option Via),
    let route := optimize solve nodes edges start end_ objective via in
    (forall e, In e route -> In e (Dict.values edges)) /\
    (List.length route <= List.length edges)%nat /\
    (Dict.wf edges -> keyed edges -> NoDup route).
Proof.
  intros solve nodes edges start end_ objective via route.
  destruct (optimize_cases solve nodes edges start end_ objective via)
    as [[E _]|[x [_ E]]]; fold route in E; rewrite E.
  - split; [intros e []|]. split; [cbn; lia|]. constructor.
  - pose proof (sorted_perm (selected edges x)) as P.
    assert (Sub : forall e, In e (selected edges x) -> In e (Dict.values edges)).
    { intros e He. unfold selected in He. apply in_map_iff in He.
      destruct He as [ke [<- Hke]]. apply filter_In in Hke.
      unfold Dict.values. apply in_map. tauto. }
    split; [|split].
    + intros e He. apply Sub. now apply (Permutation_in _ P).
    + rewrite (Permutation_length P). unfold selected. rewrite length_map.
      apply filter_length_le.
    + intros W Kd. apply (Permutation_NoDup (Permutation_sym P)).
      unfold selected.
      assert (V : NoDup (map snd edges)).
      { unfold Dict.wf, Dict.keys in W. clear - W Kd.
        induction edges as [|[k e] rest IH]; cbn [map snd]; [constructor|].
        inversion W as [|? ? Hn Hr]; subst. constructor.
        - intro Hin. apply in_map_iff in Hin. destruct Hin as [[k' e'] [Ee Hin]].
          cbn [snd] in Ee. subst e'. apply Hn.
          assert (k' = k).
          { rewrite (Kd k e (or_introl eq_refl)).
            apply (Kd k' e). now right. }
          subst k'. change k with (fst (k, e)). now apply in_map.
        - apply IH; [assumption|]. intros k' e' H. apply Kd. now right. }
      clear - V. induction edges as [|ke rest IH]; cbn [filter map]; [constructor|].
      inversion V as [|? ? Hn Hr]; subst.
      match goal with |- context [if ?b then _ else _] => destruct b end;
        cbn [map]; [|now apply IH].
      constructor; [|now apply IH].
      intro Hin. apply Hn. apply in_map_iff. apply in_map_iff in Hin.
      destruct Hin as [ke' [Ee Hin]]. apply filter_In in Hin.
      exists ke'. split; [exact Ee|tauto].
Qed.

(** X5. Every edge of a result is an edge of the graph; when the dictionary
    is keyed by endpoints, with one entry per key, no edge is returned
    twice. *)
Theorem returned_route_is_made_of_graph_edges :
  forall (solve : Lp.LpProblem Key -> Lp.Outcome Key)
         (nodes : Nodes) (edges : Edges) (start end_ objective : string)
         (via : option Via),
    let route := optimize solve nodes edges start end_ objective via in
    (forall e, In e route -> In e (Dict.values edges)) /\
    (List.length route <= List.length edges)%nat /\
    (Dict.wf edges -> keyed edges -> NoDup route).
Proof. exact route_within_graph. Qed.

(** A sound solver returns nothing for a model without feasible point. *)
Lemma infeasible_gives_empty solve nodes edges start end_ objective via :
  Lp.sound solve ->
  (forall x, ~ Lp.feasible (build_model nodes edges start end_ objective via) x) ->
  optimize solve nodes edges start end_ objective via = [].
Proof.
  intros Sound None_.
  destruct (optimize_cases solve nodes edges start end_ objective via)
    as [[E _]|[x [Hs _]]]; [exact E|].
  destruct (Sound _ _ (route_model_wf nodes edges start end_ objective via) Hs)
    as [F _].
  now contradiction (None_ x).
Qed.

(** No unit flow leads from a node to itself. *)
Lemma same_endpoints_give_nothing :
  forall (solve : Lp.LpProblem Key -> Lp.Outcome Key),
    Lp.sound solve ->
    forall (nodes : Nodes) (edges : Edges) (start objective : string)
           (via : option Via),
      closed nodes edges -> Dict.wf nodes -> node_mem nodes start = true ->
      optimize solve nodes edges start start objective via = [].
Proof.
  intros solve Sound nodes edges start objective via C W Ms.
  apply (@infeasible_gives_empty solve nodes edges start start objective via Sound).
  intros x [_ S].
  cbn [build_model Lp.constraints] in S. apply Forall_app in S. destruct S as [S _].
  rewrite Forall_forall in S.
  assert (N : PyNum.Qsum (map (net edges x) (Dict.keys nodes))
              == PyNum.Qsum (map (demand start start) (Dict.keys nodes))).
  { apply Qsum_map_ext. intros n Hn. apply flow_constraint_net. apply S.
    now apply in_map. }
  rewrite (net_sum_zero x C W) in N.
  rewrite (@Qsum_map_ext _ _ (fun n => if (start =? n)%string then - (1) else 0)) in N.
  - rewrite (Qsum_single start (- (1)) W) in N.
    apply node_mem_in in Ms.
    destruct (in_dec string_dec start (Dict.keys nodes)); [lra|contradiction].
  - intros n Hn. unfold demand. rewrite (String.eqb_sym start n).
    now destruct (n =? start)%string.
Qed.

(** X6. Asked for a route from a node to itself, on a graph whose edges
    join nodes, [optimize] returns the empty result. *)
Theorem route_to_itself_is_empty :
  forall (solve : Lp.LpProblem Key -> Lp.Outcome Key),
    Lp.sound solve ->
    forall (nodes : Nodes) (edges : Edges) (start objective : string)
           (via : option Via),
      closed nodes edges -> Dict.wf nodes -> node_mem nodes start = true ->
      optimize solve nodes edges start start objective via = [].
Proof. exact same_endpoints_give_nothing. Qed.

End PathMore.

(* ------------------------------------------------------------------ *)
(** * Preparing the vehicle frame ([prepare_vehicles_df]) *)

Module Fleet.

Import CapacityAllocator.
Open Scope Q_scope.

(** A row of the uploaded vehicle file.  [VehicleCapacity] is a number
    (a numeric column, which [pd.to_numeric] leaves as it is);
    [DepartureTime] is [None] for a cell that is not a string. *)
Record RawVehicle := mkRaw
  { WarehouseName : string;
    VehicleType : string;
    VehicleCapacity : Q;
    DepartureTime : option string }.

(** [VEHICLE_SPECS]: speed (km/h) and cost per km by vehicle type. *)
Definition VEHICLE_SPECS (vehicle_type : string) : option (Q * Q) :=
  if (vehicle_type =? "truck")%string then Some (80, 50 # 100)
  else if (vehicle_type =? "van")%string then Some (90, 40 # 100)
  else if (vehicle_type =? "car")%string then Some (100, 30 # 100)
  else if (vehicle_type =? "auto")%string then Some (60, 20 # 100)
  else if (vehicle_type =? "bike")%string then Some (80, 10 # 100)
  else if (vehicle_type =? "plane")%string then Some (900, 2)
  else None.

(** [VEHICLE_SPECS.get(x, {}).get("speed", 60)] *)
Definition speed_of (vehicle_type : string) : Q :=
  match VEHICLE_SPECS vehicle_type with
  | Some (speed, _) => speed
  | None => 60
  end.

(** [VEHICLE_SPECS.get(x, {}).get("cost", 0.50)] *)
Definition cost_of (vehicle_type : string) : Q :=
  match VEHICLE_SPECS vehicle_type with
  | Some (_, cost) => cost
  | None => 50 # 100
  end.

(** [str.upper] on an ASCII character. *)
Definition upper_ascii (c : ascii) : ascii :=
  let n := nat_of_ascii c in
  if ((97 <=? n) && (n <=? 122))%nat then ascii_of_nat (n - 32) else c.

Fixpoint upper (s : string) : string :=
  match s with
  | EmptyString => EmptyString
  | String c t => String (upper_ascii c) (upper t)
  end.

(** [f"{n:02d}"]: decimal, padded with a zero to two digits. *)
Definition format_02d (n : nat) : string :=
  let digits := NilEmpty.string_of_uint (Nat.to_uint n) in
  if (String.length digits <? 2)%nat then String "0" digits else digits.

(** [f"{base_city[:3].upper()}-{vehicle_type[:3].upper()}-{n:02d}"] *)
Definition make_vehicle_id (base_city vehicle_type : string) (n : nat) : string :=
  (upper (String.substring 0 3 base_city) ++ "-"
   ++ upper (String.substring 0 3 vehicle_type) ++ "-" ++ format_02d n)%string.

(** [groupby("base_city").cumcount()] at a row: how many earlier rows have
    the same base city. *)
Definition cumcount (seen : list string) (base_city : string) : nat :=
  count_occ string_dec seen base_city.

(** The rows one after the other, [seen] holding the base cities of the rows
    already done. *)
Fixpoint prepare_from (seen : list string) (rows : list RawVehicle) : DataFrame :=
  match rows with
  | [] => []
  | r :: rest =>
      let base_city := PyStr.strip (PyStr.lower (WarehouseName r)) in
      let vehicle_type := PyStr.strip (PyStr.lower (VehicleType r)) in
      let capacity_kg := VehicleCapacity r in
      let departure_time := option_map PyStr.strip (DepartureTime r) in
      let vehicle_id := make_vehicle_id base_city vehicle_type (cumcount seen base_city + 1) in
      mkVehicle vehicle_id base_city capacity_kg (speed_of vehicle_type)
                (cost_of vehicle_type) departure_time vehicle_type
      :: prepare_from (seen ++ [base_city]) rest
  end.

(** The frame [prepare_vehicles_df] returns, when it returns, on a frame
    that has the four columns and at least one row.  Names are ASCII:
    [lower], [upper] and [[:3]] work on the characters of the string. *)
Definition prepare_vehicles_df (vehicles_df : list RawVehicle) : DataFrame :=
  prepare_from [] vehicles_df.

(** [prepare_vehicles_df] as a call.  The cells of [WarehouseName] and
    [VehicleType] are strings.  [df["DepartureTime"].str] raises
    [AttributeError] unless the column holds a string: a column read from
    a file in which every cell is empty or a number is a numeric column.
    (A frame without rows is taken not to return either.) *)
Definition departure_column_has_string (vehicles_df : list RawVehicle) : bool :=
  existsb (fun r => match DepartureTime r with Some _ => true | None => false end)
          vehicles_df.

Definition prepare_vehicles_df_call (vehicles_df : list RawVehicle) : Py DataFrame :=
  if departure_column_has_string vehicles_df
  then Returns (prepare_vehicles_df vehicles_df)
  else Raises.

Example ids_of_three_rows :
  map vehicle_id
    (prepare_vehicles_df
       [mkRaw " New York" "Truck" 500 (Some " 08:00 "%string);
        mkRaw "Boston" "van" 300 None;
        mkRaw "new york" "e-bike" 20 (Some "9:30"%string)])
  = ["NEW-TRU-01"; "BOS-VAN-01"; "NEW-E-B-02"]%string.
Proof. reflexivity. Qed.

End Fleet.

Module FleetFacts.

Import CapacityAllocator Fleet.
Open Scope Q_scope.

Lemma speed_of_range t : 60 <= speed_of t /\ speed_of t <= 900.
Proof.
  unfold speed_of, VEHICLE_SPECS.
  repeat match goal with
         | |- context [if ?b then _ else _] => destruct b
         end; split; discriminate.
Qed.

Lemma cost_of_range t : 1 # 10 <= cost_of t /\ cost_of t <= 2.
Proof.
  unfold cost_of, VEHICLE_SPECS.
  repeat match goal with
         | |- context [if ?b then _ else _] => destruct b
         end; split; discriminate.
Qed.

(** What a prepared row is, against the raw row it comes from. *)
Definition prepared_from (r : RawVehicle) (v : Vehicle) : Prop :=
  base_city v = PyStr.strip (PyStr.lower (WarehouseName r)) /\
  vehicle_type v = PyStr.strip (PyStr.lower (VehicleType r)) /\
  capacity_kg v = VehicleCapacity r /\
  departure_time v = option_map PyStr.strip (DepartureTime r) /\
  PyStr.lower (base_city v) = base_city v /\
  60 <= speed_kmph v /\ speed_kmph v <= 900 /\
  1 # 10 <= cost_per_km v /\ cost_per_km v <= 2.

Lemma prepare_from_rows seen rows : Forall2 prepared_from rows (prepare_from seen rows).
Proof.
  revert seen. induction rows as [|r rows IH]; intro seen; cbn [prepare_from];
    constructor; [|apply IH].
  unfold prepared_from.
  cbn [base_city vehicle_type capacity_kg departure_time speed_kmph cost_per_km].
  pose proof (speed_of_range (PyStr.strip (PyStr.lower (VehicleType r)))) as [S1 S2].
  pose proof (cost_of_range (PyStr.strip (PyStr.lower (VehicleType r)))) as [C1 C2].
  repeat split; try assumption. apply PyFacts.lower_strip_lower.
Qed.







Lemma departure_column_cases rows :
  (departure_column_has_string rows = false
   <-> Forall (fun r => DepartureTime r = None) rows) /\
  (departure_column_has_string rows = true
   <-> Exists (fun r => DepartureTime r <> None) rows).
Proof.
  unfold departure_column_has_string.
  induction rows as [|r rows [IHf IHt]]; cbn [existsb].
  - split; split.
    + intros _. constructor.
    + reflexivity.
    + intro H. discriminate H.
    + intro H. inversion H.
  - destruct (DepartureTime r) as [s|] eqn:E; cbn [orb].
    + split; split.
      * intro H. discriminate H.
      * intro H. inversion H. congruence.
      * intros _. constructor. congruence.
      * reflexivity.
    + split; split.
      * intro H. constructor; [exact E|now apply IHf].
      * intro H. inversion H. now apply IHf.
      * intro H. apply Exists_cons_tl. now apply IHt.
      * intro H. inversion H as [? ? N|]; [congruence|now apply IHt].
Qed.


(** ** Vehicle identifiers *)

Fixpoint has_dash (s : string) : bool :=
  match s with
  | EmptyString => false
  | String c t => Ascii.eqb c "-" || has_dash t
  end.

Lemma digits_no_dash d : has_dash (NilEmpty.string_of_uint d) = false.
Proof. induction d; cbn [NilEmpty.string_of_uint has_dash]; auto. Qed.

Lemma format_02d_no_dash n : has_dash (format_02d n) = false.
Proof.
  unfold format_02d.
  destruct (String.length (NilEmpty.string_of_uint (Nat.to_uint n)) <? 2)%nat;
    cbn [has_dash]; now rewrite ?digits_no_dash.
Qed.

(** Reading [f"{n:02d}"] back as a number. *)
Definition parse_number (s : string) : option nat :=
  option_map Nat.of_uint (NilEmpty.uint_of_string s).

Lemma parse_format_02d n : parse_number (format_02d n) = Some n.
Proof.
  unfold format_02d, parse_number.
  destruct (String.length (NilEmpty.string_of_uint (Nat.to_uint n)) <? 2)%nat.
  - cbn [NilEmpty.uint_of_string]. rewrite NilEmpty.usu.
    cbn [uint_of_char option_map]. f_equal.
    transitivity (Nat.of_uint (Nat.to_uint n)); [reflexivity|apply Unsigned.of_to].
  - rewrite NilEmpty.usu. cbn [option_map]. f_equal. apply Unsigned.of_to.
Qed.

Lemma format_02d_injective n m : format_02d n = format_02d m -> n = m.
Proof.
  intro E. pose proof (parse_format_02d n) as P. rewrite E, parse_format_02d in P.
  congruence.
Qed.

Lemma has_dash_append s t : has_dash (s ++ String "-" t) = true.
Proof.
  induction s as [|c s IH]; cbn [append has_dash]; [reflexivity|].
  rewrite IH. apply orb_true_r.
Qed.

(** What follows the last dash of a string is determined by the string. *)
Lemma after_last_dash s1 s2 n1 n2 :
  has_dash n1 = false -> has_dash n2 = false ->
  (s1 ++ String "-" n1 = s2 ++ String "-" n2)%string -> n1 = n2.
Proof.
  intros H1 H2. revert s2.
  induction s1 as [|c s1 IH]; intros [|c' s2] E; cbn [append] in E.
  - now inversion E.
  - inversion E as [[Ec En]]. rewrite En, has_dash_append in H1. discriminate.
  - inversion E as [[Ec En]]. rewrite <- En, has_dash_append in H2. discriminate.
  - inversion E. now apply (IH s2).
Qed.

Lemma append_assoc (a b c : string) : ((a ++ b) ++ c = a ++ (b ++ c))%string.
Proof. induction a as [|x a IH]; cbn [append]; [reflexivity|now rewrite IH]. Qed.

Lemma make_vehicle_id_number c1 t1 n1 c2 t2 n2 :
  make_vehicle_id c1 t1 n1 = make_vehicle_id c2 t2 n2 -> n1 = n2.
Proof.
  unfold make_vehicle_id. intro E.
  apply format_02d_injective.
  apply (@after_last_dash
           (upper (String.substring 0 3 c1) ++ "-" ++ upper (String.substring 0 3 t1))
           (upper (String.substring 0 3 c2) ++ "-" ++ upper (String.substring 0 3 t2)));
    try apply format_02d_no_dash.
  rewrite !append_assoc. cbn [append] in *. rewrite ?append_assoc. exact E.
Qed.

(** The number in the identifier of a prepared row counts the rows of its
    base city up to and including it. *)
Lemma prepare_from_numbers seen rows :
  Forall (fun v => exists n,
              vehicle_id v = make_vehicle_id (base_city v) (vehicle_type v) n /\
              (cumcount seen (base_city v) < n)%nat)
         (prepare_from seen rows).
Proof.
  revert seen. induction rows as [|r rows IH]; intro seen; cbn [prepare_from];
    constructor.
  - cbn [vehicle_id base_city vehicle_type]. eexists. split; [reflexivity|lia].
  - specialize (IH (seen ++ [PyStr.strip (PyStr.lower (WarehouseName r))])).
    rewrite Forall_forall in *. intros v Hv.
    destruct (IH v Hv) as [n [E L]]. exists n. split; [exact E|].
    unfold cumcount in *. rewrite count_occ_app in L. lia.
Qed.

(** X8. Two vehicles of the same base city never get the same identifier.
    Across cities identifiers can coincide: they keep only three letters of
    the city, and the count restarts in every city. *)
Theorem vehicle_ids_are_distinct_within_a_city :
  (forall rows : list RawVehicle,
      rows <> [] ->
      ForallOrdPairs
        (fun v1 v2 => base_city v1 = base_city v2 -> vehicle_id v1 <> vehicle_id v2)
        (prepare_vehicles_df rows))
  /\
  map vehicle_id
    (prepare_vehicles_df [mkRaw "New York" "truck" 500 None;
                          mkRaw "New Delhi" "truck" 800 None])
  = ["NEW-TRU-01"; "NEW-TRU-01"]%string.
Proof.
  split; [|reflexivity].
  intros rows _. unfold prepare_vehicles_df. generalize (@nil string).
  induction rows as [|r rows IH]; intro seen; cbn [prepare_from]; constructor;
    [|apply IH].
  pose proof (prepare_from_numbers
                (seen ++ [PyStr.strip (PyStr.lower (WarehouseName r))]) rows) as N.
  rewrite Forall_forall in *. intros v Hv. cbn [base_city vehicle_id].
  intros Ec Eid. destruct (N v Hv) as [n [E L]].
  rewrite E in Eid. apply make_vehicle_id_number in Eid.
  unfold cumcount in L. rewrite count_occ_app, <- Ec in L.
  cbn [count_occ] in L.
  destruct (string_dec (PyStr.strip (PyStr.lower (WarehouseName r)))
                       (PyStr.strip (PyStr.lower (WarehouseName r)))) as [_|Ne];
    [|now contradiction Ne].
  unfold cumcount in Eid. lia.
Qed.

End FleetFacts.

(* ------------------------------------------------------------------ *)
(** * More on the Capacity Allocator *)

Module CapacityMore.

Import Graph CapacityAllocator CapacityFacts.
Open Scope Q_scope.

(** ** The loop, read front to back *)

Lemma load_fold_app x available :
  forall taken remaining,
    fold_left (load_step x) available (taken, remaining) =
      (taken ++ fst (fold_left (load_step x) available ([], remaining)),
       snd (fold_left (load_step x) available ([], remaining))).
Proof.
  induction available as [|[i v] rest IH]; intros taken remaining.
  - cbn [fold_left fst snd]. now rewrite app_nil_r.
  - cbn [fold_left]. unfold load_step at 2 4 6.
    destruct (Qeq_bool (x i) 1 && PyNum.Qgtb remaining 0); cbv zeta.
    + rewrite (IH (taken ++ _)), (IH ([] ++ _)). cbn [fst snd app].
      now rewrite <- app_assoc.
    + apply IH.
Qed.

Lemma walk_loads_nil x total : walk_loads x [] total = [].
Proof. reflexivity. Qed.

Lemma walk_loads_cons x i v rest total :
  walk_loads x ((i, v) :: rest) total =
    if Qeq_bool (x i) 1 && PyNum.Qgtb total 0 then
      (v, PyNum.py_min (capacity_kg v) total)
        :: walk_loads x rest (total - PyNum.py_min (capacity_kg v) total)
    else walk_loads x rest total.
Proof.
  unfold walk_loads. cbn [fold_left]. unfold load_step at 2.
  destruct (Qeq_bool (x i) 1 && PyNum.Qgtb total 0); cbv zeta; [|reflexivity].
  rewrite load_fold_app. reflexivity.
Qed.

(** ** Which vehicles are listed *)

(** [l1] is [l2] with some elements left out. *)
Inductive Subsequence (A : Type) : list A -> list A -> Prop :=
| sub_nil : Subsequence [] []
| sub_take a l1 l2 : Subsequence l1 l2 -> Subsequence (a :: l1) (a :: l2)
| sub_skip a l1 l2 : Subsequence l1 l2 -> Subsequence l1 (a :: l2).

Lemma subsequence_filter (A : Type) (p : A -> bool) l : Subsequence (filter p l) l.
Proof.
  induction l as [|a l IH]; cbn [filter]; [constructor|].
  destruct (p a); now constructor.
Qed.

Lemma subsequence_map (A B : Type) (f : A -> B) l1 l2 :
  Subsequence l1 l2 -> Subsequence (map f l1) (map f l2).
Proof. induction 1; cbn [map]; now constructor. Qed.

Lemma subsequence_trans (A : Type) (l1 l2 l3 : list A) :
  Subsequence l1 l2 -> Subsequence l2 l3 -> Subsequence l1 l3.
Proof.
  intros H12 H23. revert l1 H12.
  induction H23 as [|a l2 l3 _ IH|a l2 l3 _ IH]; intros l1 H12.
  - exact H12.
  - inversion H12; subst; constructor; now apply IH.
  - constructor. now apply IH.
Qed.

Lemma subsequence_in (A : Type) (l1 l2 : list A) a :
  Subsequence l1 l2 -> In a l1 -> In a l2.
Proof.
  induction 1 as [|b l1 l2 _ IH|b l1 l2 _ IH]; intro H.
  - exact H.
  - destruct H as [->|H]; [now left|right; now apply IH].
  - right. now apply IH.
Qed.

Lemma combine_seq_snd (A : Type) (l : list A) s :
  map snd (combine (seq s (List.length l)) l) = l.
Proof.
  revert s. induction l as [|a l IH]; intro s; [reflexivity|].
  cbn [List.length seq combine map snd]. now rewrite IH.
Qed.

Lemma available_subsequence df city : Subsequence (map snd (available_at df city)) df.
Proof.
  unfold available_at, indexed.
  pose proof (subsequence_map (@snd nat Vehicle)
                (subsequence_filter
                   (fun iv : nat * Vehicle =>
                      (PyStr.lower (base_city (snd iv)) =? city)%string)
                   (combine (seq 0 (List.length df)) df))) as S.
  now rewrite combine_seq_snd in S.
Qed.

Lemma walk_loads_subsequence x available :
  forall total,
    Subsequence (map fst (walk_loads x available total)) (map snd available) /\
    Forall (fun vl => exists i, In (i, fst vl) available /\ x i == 1)
           (walk_loads x available total).
Proof.
  induction available as [|[i v] rest IH]; intro total.
  - split; constructor.
  - rewrite walk_loads_cons. cbn [map snd].
    destruct (Qeq_bool (x i) 1) eqn:Ex; cbn [andb].
    + destruct (PyNum.Qgtb total 0).
      * destruct (IH (total - PyNum.py_min (capacity_kg v) total)) as [S F].
        split; [cbn [map fst]; now constructor|].
        constructor.
        -- exists i. split; [now left|now apply Qeq_bool_iff].
        -- rewrite Forall_forall in *. intros vl Hvl.
           destruct (F vl Hvl) as [j [Hj Xj]]. exists j. split; [now right|exact Xj].
      * destruct (IH total) as [S F]. split; [now constructor|].
        rewrite Forall_forall in *. intros vl Hvl.
        destruct (F vl Hvl) as [j [Hj Xj]]. exists j. split; [now right|exact Xj].
    + destruct (IH total) as [S F]. split; [now constructor|].
      rewrite Forall_forall in *. intros vl Hvl.
      destruct (F vl Hvl) as [j [Hj Xj]]. exists j. split; [now right|exact Xj].
Qed.

(** X9. The vehicles listed in an assignment are rows of the frame, in the
    frame's order and each row at most once; every one of them is based at
    the leg's origin (compared in lowercase) and was selected by the
    solver. *)
Theorem listed_vehicles_follow_the_frame :
  forall (solve : Lp.LpProblem nat -> Lp.Outcome nat) (df : DataFrame) (leg : Edge)
         (total_goods : Q) (objective : string) (a : Assignment),
    assign_vehicles_for_leg solve df leg total_goods objective = Returns (Some a) ->
    exists (x : nat -> Q) (listed : list Vehicle),
      solve (build_model (available_at df (PyStr.lower (from leg))) leg total_goods
               objective) = Lp.Solved 1 x /\
      Subsequence listed df /\
      map a_vehicle_id (vehicles a) = map vehicle_id listed /\
      map a_vehicle_type (vehicles a) = map vehicle_type listed /\
      Forall (fun v => PyStr.lower (base_city v) = PyStr.lower (from leg)) listed /\
      Forall (fun v => exists i, nth_error df i = Some v /\ x i == 1) listed.
Proof.
  intros solve df leg total objective a H.
  destruct (assignment_inversion _ _ _ _ _ H) as (x & _ & Hs & Ha).
  set (available := available_at df (PyStr.lower (from leg))) in *.
  destruct (walk_loads_subsequence x available total) as [S F].
  exists x, (map fst (walk_loads x available total)).
  split; [exact Hs|]. split.
  { apply (subsequence_trans S). apply available_subsequence. }
  subst a. cbn [vehicles]. rewrite !map_map. split; [reflexivity|]. split; [reflexivity|].
  assert (G : forall vl, In vl (walk_loads x available total) ->
                         exists i, In (i, fst vl) available /\ x i == 1).
  { now apply Forall_forall. }
  split; apply Forall_forall; intros v Hv; apply in_map_iff in Hv;
    destruct Hv as [vl [<- Hvl]]; destruct (G vl Hvl) as [i [Hi Xi]].
  - unfold available, available_at in Hi. apply filter_In in Hi.
    destruct Hi as [_ Hc]. cbn [snd] in Hc. now apply String.eqb_eq in Hc.
  - exists i. split; [|exact Xi].
    pose proof (available_lookup df (PyStr.lower (from leg))) as L.
    rewrite Forall_forall in L. exact (L _ Hi).
Qed.

(** ** How the cargo is spread *)

Lemma walk_loads_nonempty_positive x available :
  forall total, walk_loads x available total <> [] -> 0 < total.
Proof.
  induction available as [|[i v] rest IH]; intros total H.
  - now contradiction H.
  - rewrite walk_loads_cons in H.
    destruct (Qeq_bool (x i) 1); cbn [andb] in H; [|now apply IH].
    destruct (PyNum.Qgtb total 0) eqn:E; [now apply PyNum.Qgtb_true|now apply IH].
Qed.

Lemma snoc_of_cons (A : Type) (a : A) (t l : list A) (b : A) :
  a :: t = l ++ [b] -> (t = [] /\ l = [] /\ a = b) \/ (exists l', l = a :: l' /\ t = l' ++ [b]).
Proof.
  destruct l as [|c l']; cbn [app]; intro E.
  - left. inversion E. auto.
  - right. inversion E; subst. now exists l'.
Qed.

Definition full (vl : Vehicle * Q) : Prop := snd vl = capacity_kg (fst vl).

Lemma full_sum l : Forall full l -> PyNum.Qsum (loads l) == PyNum.Qsum (capacities l).
Proof.
  unfold loads, capacities. induction 1 as [|vl l H _ IH]; [reflexivity|].
  cbn [map PyNum.Qsum fold_right].
  fold (PyNum.Qsum (map snd l)).
  fold (PyNum.Qsum (map (fun vl => capacity_kg (fst vl)) l)).
  rewrite IH, H. reflexivity.
Qed.

Lemma capacities_cons vl l :
  PyNum.Qsum (capacities (vl :: l)) == capacity_kg (fst vl) + PyNum.Qsum (capacities l).
Proof. reflexivity. Qed.

Lemma capacities_nil : PyNum.Qsum (capacities []) == 0.
Proof. reflexivity. Qed.

Lemma filled_in_order x available :
  forall total l vl,
    walk_loads x available total = l ++ [vl] ->
    Forall full l /\
    snd vl == Qmin (capacity_kg (fst vl)) (total - PyNum.Qsum (capacities l)) /\
    0 < total - PyNum.Qsum (capacities l).
Proof.
  induction available as [|[i v] rest IH]; intros total l vl E.
  - rewrite walk_loads_nil in E. now destruct l.
  - rewrite walk_loads_cons in E.
    destruct (Qeq_bool (x i) 1 && PyNum.Qgtb total 0) eqn:C; [|now apply IH].
    apply andb_true_iff in C. destruct C as [_ Pos]. apply PyNum.Qgtb_true in Pos.
    apply snoc_of_cons in E. destruct E as [(Et & -> & <-)|(l' & -> & Et)].
    + split; [constructor|]. cbn [fst snd]. rewrite capacities_nil.
      split; [|lra]. rewrite PyNum.py_min_Qmin.
      apply Q.min_compat; [reflexivity|lra].
    + assert (Pos' : 0 < total - PyNum.py_min (capacity_kg v) total).
      { apply (walk_loads_nonempty_positive x rest). rewrite Et. now destruct l'. }
      assert (M : PyNum.py_min (capacity_kg v) total = capacity_kg v).
      { destruct (PyNum.py_min_cases (capacity_kg v) total) as [[_ M]|[_ M]];
          [|exact M]. rewrite M in Pos'. lra. }
      rewrite M in *.
      destruct (IH _ _ _ Et) as (F & L & P).
      rewrite capacities_cons. cbn [fst].
      split; [constructor; [reflexivity|exact F]|]. split.
      * rewrite L. apply Q.min_compat; [reflexivity|lra].
      * lra.
Qed.

Lemma walk_loads_positive x available :
  Forall (fun iv => 0 < capacity_kg (snd iv)) available ->
  forall total, Forall (fun vl => 0 < snd vl) (walk_loads x available total).
Proof.
  induction 1 as [|[i v] rest Hv _ IH]; intro total; [constructor|].
  rewrite walk_loads_cons.
  destruct (Qeq_bool (x i) 1 && PyNum.Qgtb total 0) eqn:C; [|apply IH].
  apply andb_true_iff in C. destruct C as [_ Pos]. apply PyNum.Qgtb_true in Pos.
  constructor; [|apply IH]. cbn [snd] in *.
  destruct (PyNum.py_min_cases (capacity_kg v) total) as [[_ ->]|[_ ->]]; assumption.
Qed.

(** X10. The cargo is placed in frame order, filling each listed vehicle
    before using the next: every listed vehicle but the last carries exactly
    its capacity, and the last carries what is then left of the cargo, or its
    capacity if that is less.  When the capacities at the origin are positive
    no listed vehicle travels empty. *)
Theorem cargo_fills_vehicles_in_order :
  forall (solve : Lp.LpProblem nat -> Lp.Outcome nat) (df : DataFrame) (leg : Edge)
         (total_goods : Q) (objective : string) (a : Assignment),
    assign_vehicles_for_leg solve df leg total_goods objective = Returns (Some a) ->
    let available := available_at df (PyStr.lower (from leg)) in
    exists x : nat -> Q,
      let taken := walk_loads x available total_goods in
      vehicles a = map (entry_of leg) taken /\
      (forall l vl, taken = l ++ [vl] ->
         Forall (fun wl => snd wl = capacity_kg (fst wl)) l /\
         snd vl == Qmin (capacity_kg (fst vl))
                        (total_goods - PyNum.Qsum (capacities l)) /\
         0 < total_goods - PyNum.Qsum (capacities l)) /\
      (Forall (fun iv => 0 < capacity_kg (snd iv)) available ->
       Forall (fun vl => 0 < snd vl) taken).
Proof.
  intros solve df leg total objective a H available.
  destruct (assignment_inversion _ _ _ _ _ H) as (x & _ & _ & Ha).
  exists x. intro taken. split; [now rewrite Ha|]. split.
  - intros l vl E. exact (filled_in_order x available total l vl E).
  - intro P. now apply walk_loads_positive.
Qed.

(** ** When a leg can be served *)

(** The capacity a vehicle can contribute: its capacity, if not negative. *)
Definition usable (capacity : Q) : Q := if Qle_bool 0 capacity then capacity else 0.

Definition usable_capacity (available : list (nat * Vehicle)) : Q :=
  PyNum.Qsum (map (fun iv => usable (capacity_kg (snd iv))) available).

Lemma usable_capacity_cons iv l :
  usable_capacity (iv :: l) == usable (capacity_kg (snd iv)) + usable_capacity l.
Proof. reflexivity. Qed.

Lemma usable_cases c : (0 <= c /\ usable c = c) \/ (c < 0 /\ usable c = 0).
Proof.
  unfold usable. destruct (Qle_bool 0 c) eqn:E.
  - left. split; [now apply Qle_bool_iff|reflexivity].
  - right. split; [|reflexivity]. apply Qnot_le_lt. intro L.
    apply Qle_bool_iff in L. congruence.
Qed.

Lemma selected_le_usable x available : selected_capacity x available <= usable_capacity available.
Proof.
  induction available as [|[i v] rest IH].
  - unfold selected_capacity, usable_capacity. cbn. lra.
  - rewrite selected_capacity_cons, usable_capacity_cons. cbn [fst snd].
    destruct (usable_cases (capacity_kg v)) as [[P ->]|[N ->]];
      destruct (Qeq_bool (x i) 1); lra.
Qed.

Lemma usable_capacity_feasible df leg total objective :
  let available := available_at df (PyStr.lower (from leg)) in
  total <= usable_capacity available ->
  exists x, Lp.feasible (build_model available leg total objective) x.
Proof.
  cbv zeta. intro Hcap.
  set (available := available_at df (PyStr.lower (from leg))) in *.
  set (x0 := fun i : nat =>
               match nth_error df i with
               | Some v => if Qle_bool 0 (capacity_kg v) then 1 else 0
               | None => 0
               end).
  exists x0. split.
  - intros k _. unfold x0. destruct (nth_error df k) as [v|]; [|now left].
    destruct (Qle_bool 0 (capacity_kg v)); [now right|now left].
  - cbn [build_model Lp.constraints]. constructor; [|constructor].
    unfold Lp.satisfies. cbn [Lp.sense Lp.rhs Lp.lhs].
    fold (capacity_terms available).
    assert (G : usable_capacity available == Lp.value x0 (capacity_terms available)).
    { pose proof (available_lookup df (PyStr.lower (from leg))) as F.
      fold available in F. clear Hcap.
      induction F as [|[i v] rest Hiv _ IH].
      - reflexivity.
      - unfold capacity_terms. cbn [map fst snd]. fold (capacity_terms rest).
        rewrite Lp.value_cons, usable_capacity_cons, IH. cbn [fst snd] in *.
        unfold x0 at 2. rewrite Hiv. unfold usable.
        destruct (Qle_bool 0 (capacity_kg v)); lra. }
    rewrite <- G. exact Hcap.
Qed.

Lemma served_needs_capacity solve df leg total objective a :
  Lp.sound solve ->
  assign_vehicles_for_leg solve df leg total objective = Returns (Some a) ->
  let available := available_at df (PyStr.lower (from leg)) in
  available <> [] /\ total <= usable_capacity available.
Proof.
  intros Sound H available.
  pose proof (leg_model_wf available leg total objective) as W.
  destruct (assignment_inversion _ _ _ _ _ H) as (x & Hne & Hs & _).
  fold available in Hne, Hs. split; [exact Hne|].
  destruct (Sound _ _ W Hs) as [[B S] _].
  cbn [build_model Lp.constraints Lp.variables] in B, S.
  inversion S as [|c cs Hc _]; subst. unfold Lp.satisfies in Hc.
  cbn [Lp.sense Lp.rhs Lp.lhs] in Hc. fold (capacity_terms available) in Hc.
  rewrite (@value_selected x available B) in Hc.
  pose proof (selected_le_usable x available). lra.
Qed.

Lemma capacity_gives_service solve df leg total objective :
  Lp.complete solve ->
  let available := available_at df (PyStr.lower (from leg)) in
  available <> [] -> total <= usable_capacity available ->
  Forall (fun iv => schedule_raises leg (snd iv) = false) available ->
  exists a, assign_vehicles_for_leg solve df leg total objective = Returns (Some a).
Proof.
  intros Complete available Hne Hcap Hsch.
  pose proof (leg_model_wf available leg total objective) as W.
  destruct (Complete _ W (@usable_capacity_feasible df leg total objective Hcap))
    as [x Hs].
  eexists.
  exact (@assignment_of_solved solve df leg total objective x Hne Hs
           (@no_raise_among leg x available total Hsch)).
Qed.

(** With a complete solver a servable leg is never answered with [None]:
    the call returns an assignment or raises. *)
Lemma servable_is_not_refused solve df leg total objective :
  Lp.complete solve ->
  let available := available_at df (PyStr.lower (from leg)) in
  available <> [] -> total <= usable_capacity available ->
  assign_vehicles_for_leg solve df leg total objective <> Returns None.
Proof.
  intros Complete available Hne Hcap.
  pose proof (leg_model_wf available leg total objective) as W.
  destruct (Complete _ W (@usable_capacity_feasible df leg total objective Hcap))
    as [x Hs].
  destruct (raises_among leg (walk_loads x available total)) eqn:R.
  - rewrite (@assignment_raises solve df leg total objective x Hne Hs R). discriminate.
  - rewrite (@assignment_of_solved solve df leg total objective x Hne Hs R). discriminate.
Qed.

(** X11. With an exact solver, and no vehicle at the leg's origin whose
    schedule raises (speed zero, or an arrival outside the range of
    [datetime]), a leg gets an assignment exactly when some vehicle is based
    at its origin and the usable capacity there (the sum of the non-negative
    capacities) is at least the cargo weight. *)
Theorem leg_is_served_iff_capacity_suffices :
  forall (solve : Lp.LpProblem nat -> Lp.Outcome nat),
    Lp.exact solve ->
    forall (df : DataFrame) (leg : Edge) (total_goods : Q) (objective : string),
      let available := available_at df (PyStr.lower (from leg)) in
      Forall (fun iv => schedule_raises leg (snd iv) = false) available ->
      ((exists a, assign_vehicles_for_leg solve df leg total_goods objective
                  = Returns (Some a))
       <->
       (available <> [] /\ total_goods <= usable_capacity available)).
Proof.
  intros solve [Sound Complete] df leg total objective available Hsch.
  split.
  - intros [a H]. exact (@served_needs_capacity solve df leg total objective a Sound H).
  - intros [Hne Hcap].
    exact (@capacity_gives_service solve df leg total objective Complete Hne Hcap Hsch).
Qed.

(** ** What the allocator minimises *)

Definition objective_terms (objective : string) (leg : Edge)
    (available : list (nat * Vehicle)) : Lp.LpAffineExpression nat :=
  map (fun iv => (fst iv, objective_coefficient objective leg (snd iv))) available.

(** The objective summed over the vehicles a 0/1 point selects. *)
Definition selected_cost (objective : string) (leg : Edge) (x : nat -> Q)
    (available : list (nat * Vehicle)) : Q :=
  PyNum.Qsum (map (fun iv => if Qeq_bool (x (fst iv)) 1
                             then objective_coefficient objective leg (snd iv) else 0)
                available).

(** The objective summed over the vehicles listed in the assignment. *)
Definition listed_cost (objective : string) (leg : Edge) (taken : list (Vehicle * Q)) : Q :=
  PyNum.Qsum (map (fun vl => objective_coefficient objective leg (fst vl)) taken).

Lemma selected_cost_cons objective leg x iv l :
  selected_cost objective leg x (iv :: l) ==
    (if Qeq_bool (x (fst iv)) 1 then objective_coefficient objective leg (snd iv) else 0)
    + selected_cost objective leg x l.
Proof. reflexivity. Qed.

Lemma listed_cost_cons objective leg vl l :
  listed_cost objective leg (vl :: l) ==
    objective_coefficient objective leg (fst vl) + listed_cost objective leg l.
Proof. reflexivity. Qed.

Lemma value_selected_cost objective leg x available :
  Lp.binary x (map fst available) ->
  Lp.value x (objective_terms objective leg available)
    == selected_cost objective leg x available.
Proof.
  induction available as [|[i v] rest IH]; intro B.
  - reflexivity.
  - unfold objective_terms. cbn [map fst snd]. fold (objective_terms objective leg rest).
    rewrite Lp.value_cons, selected_cost_cons. cbn [fst snd].
    rewrite IH by (intros k Hk; apply B; now right).
    destruct (B i (or_introl eq_refl)) as [Z0|Z1].
    + assert (E : Qeq_bool (x i) 1 = false).
      { destruct (Qeq_bool (x i) 1) eqn:E; [|reflexivity].
        apply Qeq_bool_iff in E. rewrite Z0 in E. discriminate. }
      rewrite E, Z0. lra.
    + assert (E : Qeq_bool (x i) 1 = true) by now apply Qeq_bool_iff.
      rewrite E, Z1. lra.
Qed.

Lemma selected_cost_nonneg objective leg x available :
  Forall (fun iv => 0 <= objective_coefficient objective leg (snd iv)) available ->
  0 <= selected_cost objective leg x available.
Proof.
  induction 1 as [|[i v] rest H _ IH].
  - unfold selected_cost. cbn. lra.
  - rewrite selected_cost_cons. cbn [fst snd] in *.
    destruct (Qeq_bool (x i) 1); lra.
Qed.

Lemma listed_within_selected objective leg x available :
  Forall (fun iv => 0 <= objective_coefficient objective leg (snd iv)) available ->
  forall total,
    listed_cost objective leg (walk_loads x available total)
      <= selected_cost objective leg x available.
Proof.
  induction 1 as [|[i v] rest H F IH]; intro total.
  - rewrite walk_loads_nil. unfold listed_cost, selected_cost. cbn. lra.
  - rewrite walk_loads_cons, selected_cost_cons. cbn [fst snd] in *.
    destruct (Qeq_bool (x i) 1); cbn [andb].
    + destruct (PyNum.Qgtb total 0).
      * rewrite listed_cost_cons. cbn [fst].
        specialize (IH (total - PyNum.py_min (capacity_kg v) total)). lra.
      * specialize (IH total). lra.
    + specialize (IH total). lra.
Qed.

(** X12. With a sound solver, and objective coefficients that are not
    negative, the vehicles listed for a leg cost no more in total (fuel cost
    per km times distance, or travel time under the "time" objective) than
    any other choice of vehicles at the origin whose capacities cover the
    cargo. *)
Theorem listed_vehicles_are_a_cheapest_cover :
  forall (solve : Lp.LpProblem nat -> Lp.Outcome nat),
    Lp.sound solve ->
    forall (df : DataFrame) (leg : Edge) (total_goods : Q) (objective : string)
           (a : Assignment),
      assign_vehicles_for_leg solve df leg total_goods objective = Returns (Some a) ->
      let available := available_at df (PyStr.lower (from leg)) in
      Forall (fun iv => 0 <= objective_coefficient objective leg (snd iv)) available ->
      exists x : nat -> Q,
        let taken := walk_loads x available total_goods in
        vehicles a = map (entry_of leg) taken /\
        forall choice : nat -> Q,
          Lp.binary choice (map fst available) ->
          total_goods <= selected_capacity choice available ->
          listed_cost objective leg taken <= selected_cost objective leg choice available.
Proof.
  intros solve Sound df leg total objective a H available Pos.
  destruct (assignment_inversion _ _ _ _ _ H) as (x & _ & Hs & Ha).
  fold available in Hs, Ha.
  exists x. intro taken. split; [now rewrite Ha|].
  intros choice B Cover.
  destruct (Sound _ _ (leg_model_wf available leg total objective) Hs) as [[Bx _] Best].
  cbn [build_model Lp.variables] in Bx.
  assert (F : Lp.feasible (build_model available leg total objective) choice).
  { split; [exact B|]. cbn [build_model Lp.constraints].
    constructor; [|constructor]. unfold Lp.satisfies. cbn [Lp.sense Lp.rhs Lp.lhs].
    fold (capacity_terms available). now rewrite (@value_selected choice available B). }
  specialize (Best choice F). cbn [build_model Lp.objective] in Best.
  fold (objective_terms objective leg available) in Best.
  rewrite (@value_selected_cost objective leg x available Bx) in Best.
  rewrite (@value_selected_cost objective leg choice available B) in Best.
  pose proof (@listed_within_selected objective leg x available Pos total) as L.
  fold taken in L. lra.
Qed.

(** ** When nothing is listed *)

Lemma walk_loads_without_cargo x available total :
  total <= 0 -> walk_loads x available total = [].
Proof.
  intro Hle. induction available as [|[i v] rest IH]; [apply walk_loads_nil|].
  rewrite walk_loads_cons.
  assert (E : PyNum.Qgtb total 0 = false) by now apply PyNum.Qgtb_false.
  now rewrite E, andb_false_r.
Qed.

Lemma none_selected_no_capacity x available :
  existsb (fun iv => Qeq_bool (x (fst iv)) 1) available = false ->
  selected_capacity x available == 0.
Proof.
  induction available as [|[i v] rest IH]; intro E; [reflexivity|].
  cbn [existsb fst] in E. apply orb_false_iff in E. destruct E as [E1 E2].
  rewrite selected_capacity_cons. cbn [fst snd]. rewrite E1, (IH E2). lra.
Qed.

Lemma walk_loads_with_cargo x available total :
  0 < total ->
  existsb (fun iv => Qeq_bool (x (fst iv)) 1) available = true ->
  walk_loads x available total <> [].
Proof.
  intro Pos. induction available as [|[i v] rest IH]; intro E; [discriminate|].
  rewrite walk_loads_cons. cbn [existsb fst] in E.
  destruct (Qeq_bool (x i) 1); cbn [orb andb] in *.
  - apply PyNum.Qgtb_true in Pos. rewrite Pos. discriminate.
  - now apply IH.
Qed.

(** X13. With a sound solver, an assignment lists no vehicle exactly when
    there is no cargo to carry (weight zero or negative), and that is also
    exactly when its last arrival is missing. *)
Theorem no_vehicle_is_listed_iff_no_cargo :
  forall (solve : Lp.LpProblem nat -> Lp.Outcome nat),
    Lp.sound solve ->
    forall (df : DataFrame) (leg : Edge) (total_goods : Q) (objective : string)
           (a : Assignment),
      assign_vehicles_for_leg solve df leg total_goods objective = Returns (Some a) ->
      (vehicles a = [] <-> total_goods <= 0) /\
      (last_arrival a = None <-> total_goods <= 0).
Proof.
  intros solve Sound df leg total objective a H.
  destruct (assignment_inversion _ _ _ _ _ H) as (x & _ & Hs & Ha).
  set (available := available_at df (PyStr.lower (from leg))) in *.
  set (taken := walk_loads x available total) in *.
  assert (T : taken = [] <-> total <= 0).
  { split.
    - intro E. apply Qnot_lt_le. intro Pos.
      destruct (Sound _ _ (leg_model_wf available leg total objective) Hs)
        as [[B S] _].
      cbn [build_model Lp.constraints Lp.variables] in B, S.
      inversion S as [|c cs Hc _]; subst c cs. unfold Lp.satisfies in Hc.
      cbn [Lp.sense Lp.rhs Lp.lhs] in Hc. fold (capacity_terms available) in Hc.
      rewrite (@value_selected x available B) in Hc.
      destruct (existsb (fun iv => Qeq_bool (x (fst iv)) 1) available) eqn:Ex.
      + exact (@walk_loads_with_cargo x available total Pos Ex E).
      + rewrite (@none_selected_no_capacity x available Ex) in Hc. lra.
    - intro Hle. now apply walk_loads_without_cargo. }
  rewrite Ha. cbn [vehicles last_arrival]. split.
  - rewrite <- T. split; intro E; [|now rewrite E].
    destruct taken; [reflexivity|discriminate].
  - rewrite <- T. split; intro E; [|now rewrite E].
    destruct (latest (map (fun vl => arrival_of leg (fst vl)) taken)) eqn:L;
      [discriminate|].
    apply latest_nil_iff in L. destruct taken; [reflexivity|discriminate].
Qed.

End CapacityMore.

(* ================================================================= *)
(** * Clock readings of the schedule *)

Module ScheduleMore.

Import Graph CapacityAllocator CapacityFacts.
Open Scope Z_scope.

Definition of_clock (h m : Z) : PyTime.datetime :=
  h * PyTime.us_per_hour + m * PyTime.us_per_minute.

(** Reading back the clock reading of minute [n] of the day. *)
Definition clock_ok (n : nat) : bool :=
  let h := Z.of_nat n / 60 in
  let m := Z.of_nat n mod 60 in
  match PyTime.strptime_HM (PyTime.two_digits h ++ ":" ++ PyTime.two_digits m) with
  | Some t => t =? of_clock h m
  | None => false
  end.

Lemma every_minute_reads_back : forallb clock_ok (seq 0 1440) = true.
Proof. vm_compute. reflexivity. Qed.

Lemma clock_reads_back h m :
  0 <= h < 24 -> 0 <= m < 60 ->
  PyTime.strptime_HM (PyTime.two_digits h ++ ":" ++ PyTime.two_digits m)
  = Some (of_clock h m).
Proof.
  intros Hh Hm.
  pose proof (proj1 (forallb_forall clock_ok (seq 0 1440)) every_minute_reads_back
                (Z.to_nat (h * 60 + m))) as F.
  assert (I : In (Z.to_nat (h * 60 + m)) (seq 0 1440)).
  { apply in_seq. lia. }
  specialize (F I). unfold clock_ok in F.
  rewrite Z2Nat.id in F by lia.
  assert (D : (h * 60 + m) / 60 = h).
  { symmetry. apply (Z.div_unique _ _ h m); lia. }
  assert (M : (h * 60 + m) mod 60 = m).
  { symmetry. apply (Z.mod_unique _ _ h m); lia. }
  rewrite D, M in F.
  destruct (PyTime.strptime_HM _) as [t|]; [|discriminate].
  apply Z.eqb_eq in F. now subst.
Qed.

Lemma hour_of_range t : 0 <= PyTime.hour_of t < 24.
Proof. unfold PyTime.hour_of. apply Z.mod_pos_bound. lia. Qed.

Lemma minute_of_range t : 0 <= PyTime.minute_of t < 60.
Proof. unfold PyTime.minute_of. apply Z.mod_pos_bound. lia. Qed.

Lemma strftime_reads_back t :
  PyTime.strptime_HM (PyTime.strftime_HM t)
  = Some (of_clock (PyTime.hour_of t) (PyTime.minute_of t)).
Proof.
  unfold PyTime.strftime_HM.
  apply clock_reads_back; [apply hour_of_range|apply minute_of_range].
Qed.

Lemma digit_range c x : PyTime.digit c = Some x -> 0 <= x <= 9.
Proof.
  unfold PyTime.digit.
  destruct ((48 <=? nat_of_ascii c)%nat && (nat_of_ascii c <=? 57)%nat) eqn:E;
    [|discriminate].
  apply andb_true_iff in E. destruct E as [L U].
  apply Nat.leb_le in L. apply Nat.leb_le in U.
  intro H. inversion H. lia.
Qed.

Lemma parse_H_range s h r : PyTime.parse_H s = Some (h, r) -> 0 <= h <= 23.
Proof.
  destruct s as [|a rest]; [discriminate|]. cbn [PyTime.parse_H].
  destruct (PyTime.digit a) as [x|] eqn:Da; [|discriminate].
  apply digit_range in Da.
  destruct rest as [|b r'].
  - intros [= <- <-]. lia.
  - destruct (PyTime.digit b) as [y|] eqn:Db.
    + apply digit_range in Db.
      destruct (10 * x + y <=? 23) eqn:L; [|discriminate].
      apply Z.leb_le in L. intro H.
      assert (E : 10 * x + y = h) by congruence. lia.
    + intros [= <- <-]. lia.
Qed.

Lemma parse_M_range s m r : PyTime.parse_M s = Some (m, r) -> 0 <= m <= 59.
Proof.
  destruct s as [|a rest]; [discriminate|]. cbn [PyTime.parse_M].
  destruct (PyTime.digit a) as [x|] eqn:Da; [|discriminate].
  apply digit_range in Da.
  destruct rest as [|b r'].
  - intros [= <- <-]. lia.
  - destruct (PyTime.digit b) as [y|] eqn:Db.
    + apply digit_range in Db.
      destruct (x <=? 5) eqn:L.
      * apply Z.leb_le in L. intro H.
        assert (E : 10 * x + y = m) by congruence. lia.
      * intros [= <- <-]. lia.
    + intros [= <- <-]. lia.
Qed.

Lemma strptime_is_a_clock s t :
  PyTime.strptime_HM s = Some t ->
  exists h m, 0 <= h <= 23 /\ 0 <= m <= 59 /\ t = of_clock h m.
Proof.
  unfold PyTime.strptime_HM.
  destruct (PyTime.parse_H s) as [[h r]|] eqn:EH; [|discriminate].
  apply parse_H_range in EH.
  destruct r as [|c r]; [discriminate|].
  destruct (PyTime.parse_M r) as [[m r']|] eqn:EM.
  - apply parse_M_range in EM.
    destruct c as [[] [] [] [] [] [] [] []]; try discriminate.
    destruct r'; [|discriminate].
    intro H. inversion H. exists h, m. auto.
  - destruct c as [[] [] [] [] [] [] [] []]; discriminate.
Qed.

Lemma hour_of_clock h m :
  0 <= h <= 23 -> 0 <= m <= 59 -> PyTime.hour_of (of_clock h m) = h.
Proof.
  intros Hh Hm. unfold PyTime.hour_of, of_clock, PyTime.us_per_hour, PyTime.us_per_minute.
  assert (D : (h * 3600000000 + m * 60000000) / 3600000000 = h).
  { symmetry. apply (Z.div_unique _ _ h (m * 60000000)); lia. }
  rewrite D. apply Z.mod_small. lia.
Qed.

Lemma minute_of_clock h m :
  0 <= h <= 23 -> 0 <= m <= 59 -> PyTime.minute_of (of_clock h m) = m.
Proof.
  intros Hh Hm. unfold PyTime.minute_of, of_clock, PyTime.us_per_hour, PyTime.us_per_minute.
  assert (D : (h * 3600000000 + m * 60000000) / 60000000 = h * 60 + m).
  { symmetry. apply (Z.div_unique _ _ (h * 60 + m) 0); lia. }
  rewrite D. symmetry. apply (Z.mod_unique _ _ h m); lia.
Qed.

(** X14. Reading a formatted instant back with the same format gives the
    instant cut to its minute within its day; an instant that [strptime]
    produced lies within the first day and is read back unchanged, whatever
    spelling it was parsed from. *)
Theorem clock_format_round_trip :
  (forall t : PyTime.datetime,
     PyTime.strptime_HM (PyTime.strftime_HM t)
     = Some (PyTime.hour_of t * PyTime.us_per_hour
             + PyTime.minute_of t * PyTime.us_per_minute)) /\
  (forall (s : string) (t : PyTime.datetime),
     PyTime.strptime_HM s = Some t ->
     0 <= t < PyTime.us_per_day /\
     t mod PyTime.us_per_minute = 0 /\
     PyTime.strptime_HM (PyTime.strftime_HM t) = Some t).
Proof.
  split.
  - exact strftime_reads_back.
  - intros s t H.
    destruct (strptime_is_a_clock s H) as (h & m & Hh & Hm & ->).
    split; [|split].
    + unfold of_clock, PyTime.us_per_day, PyTime.us_per_hour, PyTime.us_per_minute. lia.
    + unfold of_clock, PyTime.us_per_hour, PyTime.us_per_minute.
      replace (h * 3600000000 + m * 60000000) with ((h * 60 + m) * 60000000) by lia.
      apply Z.mod_mul. lia.
    + rewrite strftime_reads_back, hour_of_clock, minute_of_clock by assumption.
      reflexivity.
Qed.

Lemma clock_format_round_trip_at_short_spelling :
  PyTime.strptime_HM "7:5"%string = Some (of_clock 7 5) /\
  PyTime.strftime_HM (of_clock 7 5) = "07:05"%string /\
  PyTime.strptime_HM (PyTime.strftime_HM (of_clock 7 5)) = Some (of_clock 7 5).
Proof.
  split; [reflexivity|]. split; [reflexivity|].
  apply (proj2 clock_format_round_trip "7:5"%string (of_clock 7 5)). reflexivity.
Defined.

Lemma departure_of_is_a_clock v :
  exists h m, 0 <= h <= 23 /\ 0 <= m <= 59 /\ departure_of v = of_clock h m.
Proof.
  unfold departure_of.
  assert (D : exists h m, 0 <= h <= 23 /\ 0 <= m <= 59 /\ default_departure = of_clock h m).
  { exists 8, 0. repeat split; lia. }
  destruct (departure_time v) as [s|]; [|exact D].
  destruct (PyTime.strptime_HM s) as [t|] eqn:E; [|exact D].
  exact (strptime_is_a_clock s E).
Qed.

(** X15. The departure reported for a listed vehicle is a well-formed
    [HH:MM] reading which parses back to the instant the schedule was
    computed from: the vehicle's own departure time when that parses, and
    08:00 when it is missing or malformed. *)
Theorem reported_departure_reads_back :
  forall (solve : Lp.LpProblem nat -> Lp.Outcome nat) (df : DataFrame) (leg : Edge)
         (total_goods : Q) (objective : string) (a : Assignment),
    assign_vehicles_for_leg solve df leg total_goods objective = Returns (Some a) ->
    exists x : nat -> Q,
      let taken := walk_loads x (available_at df (PyStr.lower (from leg))) total_goods in
      Forall2
        (fun (e : AssignedVehicle) (vl : Vehicle * Q) =>
           let v := fst vl in
           PyTime.strptime_HM (departure e) = Some (departure_of v) /\
           match departure_time v with
           | Some s =>
               match PyTime.strptime_HM s with
               | Some t => departure_of v = t
               | None => departure e = "08:00"%string
               end
           | None => departure e = "08:00"%string
           end)
        (vehicles a) taken.
Proof.
  intros solve df leg total objective a H.
  destruct (assignment_inversion _ _ _ _ _ H) as (x & _ & _ & Ha).
  exists x. intro taken. rewrite Ha. cbn [vehicles].
  fold taken. clear Ha H.
  induction taken as [|[v l] rest IH]; cbn [map]; constructor; [|exact IH].
  unfold entry_of. cbn [fst snd entry departure]. split.
  - rewrite strftime_reads_back.
    destruct (departure_of_is_a_clock v) as (h & m & Hh & Hm & E).
    rewrite E, hour_of_clock, minute_of_clock by assumption. reflexivity.
  - unfold departure_of.
    destruct (departure_time v) as [s|]; [|reflexivity].
    destruct (PyTime.strptime_HM s); reflexivity.
Qed.

Lemma travel_time_nonneg leg v :
  (0 <= distance leg)%Q -> (0 < speed_kmph v)%Q -> (0 <= travel_time_of leg v)%Q.
Proof.
  intros D S. unfold travel_time_of. apply Qle_shift_div_l; [exact S|lra].
Qed.

Lemma timedelta_hours_nonneg t : (0 <= t)%Q -> 0 <= PyTime.timedelta_hours t.
Proof.
  intro H. unfold PyTime.timedelta_hours. apply PyFacts.round_half_even_nonneg.
  apply Qmult_le_0_compat; [exact H|]. unfold PyTime.us_per_hour. discriminate.
Qed.

Lemma taken_in_frame x df city total vl :
  In vl (walk_loads x (available_at df city) total) -> In (fst vl) df.
Proof.
  intro H.
  apply (@CapacityMore.subsequence_in _ (map snd (available_at df city)) df);
    [apply CapacityMore.available_subsequence|].
  apply (@CapacityMore.subsequence_in _
           (map fst (walk_loads x (available_at df city) total))
           (map snd (available_at df city)));
    [apply CapacityMore.walk_loads_subsequence|].
  now apply in_map.
Qed.

(** X16. For a fleet made by [prepare_vehicles_df] and a leg of non-negative
    length, no listed vehicle arrives before it leaves: the arrival instant
    is at or after the departure instant (even when the reported clock
    readings wrap past midnight), and the reported travel time and fuel
    cost are not negative. *)
Theorem prepared_vehicles_do_not_arrive_before_they_leave :
  forall (solve : Lp.LpProblem nat -> Lp.Outcome nat) (rows : list Fleet.RawVehicle)
         (leg : Edge) (total_goods : Q) (objective : string) (a : Assignment),
    (0 <= distance leg)%Q ->
    assign_vehicles_for_leg solve (Fleet.prepare_vehicles_df rows) leg total_goods
      objective = Returns (Some a) ->
    exists x : nat -> Q,
      let taken :=
        walk_loads x (available_at (Fleet.prepare_vehicles_df rows)
                        (PyStr.lower (from leg))) total_goods in
      Forall2
        (fun (e : AssignedVehicle) (vl : Vehicle * Q) =>
           e = entry leg (fst vl) (snd vl) /\
           departure_of (fst vl) <= arrival_of leg (fst vl) /\
           (0 <= travel_time_hours e)%Q /\
           (0 <= fuel_cost e)%Q)
        (vehicles a) taken.
Proof.
  intros solve rows leg total objective a D H.
  destruct (assignment_inversion _ _ _ _ _ H) as (x & _ & _ & Ha).
  exists x. intro taken. rewrite Ha. cbn [vehicles]. fold taken.
  assert (P : Forall (fun vl => (0 < speed_kmph (fst vl))%Q
                                /\ (0 < cost_per_km (fst vl))%Q) taken).
  { apply Forall_forall. intros vl Hvl. apply taken_in_frame in Hvl.
    assert (F : Forall (fun v => (0 < speed_kmph v)%Q /\ (0 < cost_per_km v)%Q)
                       (Fleet.prepare_vehicles_df rows)).
    { pose proof (FleetFacts.prepare_from_rows [] rows) as F2.
      fold (Fleet.prepare_vehicles_df rows) in F2. clear - F2.
      induction F2 as [|r0 v0 rs0 vs0 H0 _ IH]; constructor; [|exact IH].
      destruct H0 as (_ & _ & _ & _ & _ & S & _ & C & _). split; lra. }
    exact (proj1 (Forall_forall _ _) F _ Hvl). }
  clear Ha H. induction P as [|[v l] rest [S C] _ IH]; cbn [map]; constructor;
    [|exact IH].
  unfold entry_of. cbn [fst snd] in *. split; [reflexivity|].
  pose proof (travel_time_nonneg leg v D S) as T.
  split; [|split].
  - unfold arrival_of. pose proof (timedelta_hours_nonneg T). lia.
  - cbn [entry travel_time_hours]. now apply PyFacts.round2_nonneg.
  - cbn [entry fuel_cost]. unfold fuel_cost_of. apply PyFacts.round2_nonneg.
    apply Qmult_le_0_compat; [lra|exact D].
Qed.

End ScheduleMore.

(* ================================================================= *)
(** * The schedule of a listed vehicle *)

Module ScheduleFacts.

Import Graph CapacityAllocator CapacityFacts ScheduleMore.
Open Scope Z_scope.

(** The string [s] is the [HH:MM] reading of the instant [t]: [t] lies [h]
    hours, [m] minutes and less than a minute after a midnight. *)
Definition reads_as (t : PyTime.datetime) (s : string) : Prop :=
  exists d h m r : Z,
    t = d * PyTime.us_per_day + h * PyTime.us_per_hour + m * PyTime.us_per_minute + r /\
    0 <= h < 24 /\ 0 <= m < 60 /\ 0 <= r < PyTime.us_per_minute /\
    s = (PyTime.two_digits h ++ ":" ++ PyTime.two_digits m)%string.

Lemma strftime_reads_as t : reads_as t (PyTime.strftime_HM t).
Proof.
  exists (t / PyTime.us_per_day), (PyTime.hour_of t), (PyTime.minute_of t),
         (t mod PyTime.us_per_minute).
  split; [|split; [apply hour_of_range|split; [apply minute_of_range|split]]].
  - unfold PyTime.hour_of, PyTime.minute_of, PyTime.us_per_day, PyTime.us_per_hour,
      PyTime.us_per_minute.
    pose proof (Z.div_mod t 60000000 ltac:(lia)) as E1.
    pose proof (Z.div_mod (t / 60000000) 60 ltac:(lia)) as E2.
    pose proof (Z.div_mod (t / 3600000000) 24 ltac:(lia)) as E3.
    assert (D2 : t / 60000000 / 60 = t / 3600000000).
    { rewrite Z.div_div by lia. reflexivity. }
    assert (D3 : t / 3600000000 / 24 = t / 86400000000).
    { rewrite Z.div_div by lia. reflexivity. }
    rewrite D2 in E2. rewrite D3 in E3. lia.
  - apply Z.mod_pos_bound. unfold PyTime.us_per_minute. lia.
  - reflexivity.
Qed.

Lemma departure_of_configured v s t :
  departure_time v = Some s -> PyTime.strptime_HM s = Some t -> departure_of v = t.
Proof. intros E P. unfold departure_of. now rewrite E, P. Qed.

Lemma departure_of_default v :
  departure_time v = None \/
  (exists s, departure_time v = Some s /\ PyTime.strptime_HM s = None) ->
  departure_of v = 8 * PyTime.us_per_hour.
Proof.
  unfold departure_of. intros [E|(s & E & P)].
  - now rewrite E.
  - now rewrite E, P.
Qed.

(** The interval between departure and arrival is the travel time, to the
    nearest microsecond. *)
Lemma arrival_after_travel_time leg v :
  (- (1 # 2) <= inject_Z (arrival_of leg v - departure_of v)
                - distance leg / speed_kmph v * inject_Z PyTime.us_per_hour /\
   inject_Z (arrival_of leg v - departure_of v)
   - distance leg / speed_kmph v * inject_Z PyTime.us_per_hour <= 1 # 2)%Q.
Proof.
  unfold arrival_of.
  replace (departure_of v + PyTime.timedelta_hours (travel_time_of leg v) - departure_of v)
    with (PyTime.timedelta_hours (travel_time_of leg v)) by lia.
  unfold PyTime.timedelta_hours, travel_time_of.
  apply round_half_even_close.
Qed.

Lemma schedule_raises_false leg v :
  schedule_raises leg v = false ->
  ~ (speed_kmph v == 0)%Q /\
  PyTime.datetime_min <= arrival_of leg v <= PyTime.datetime_max.
Proof.
  unfold schedule_raises, PyTime.representable. intro H.
  apply orb_false_iff in H. destruct H as [S R].
  apply negb_false_iff in R. apply andb_true_iff in R. destruct R as [L U].
  apply Z.leb_le in L. apply Z.leb_le in U.
  split; [|lia].
  intro E. apply Qeq_bool_iff in E. congruence.
Qed.

(** C7. Every vehicle the allocator lists (the call having returned, which
    it does only when no listed vehicle has speed zero and every arrival is
    a date [datetime] can hold):
    - departs at its configured time: [HH:MM] configured as two digits each
      gives the instant HH hours MM minutes, any value [strptime] accepts
      gives the instant it denotes, and a missing or unparseable value gives
      08:00; the entry reports the HH:MM reading of that instant;
    - arrives at its departure plus [distance / speed] hours, taken to the
      nearest microsecond; the entry reports the HH:MM reading of that
      instant, which drops the date;
    - is reported with a travel time and a fuel cost that are numbers of
      hundredths within 0.005 of [distance / speed] and of
      [cost_per_km * distance].
    The leg's last arrival is the HH:MM reading of the greatest arrival
    instant among the listed vehicles, and is absent when none is listed. *)
Theorem assigned_vehicle_schedule :
  forall (solve : Lp.LpProblem nat -> Lp.Outcome nat) (df : DataFrame) (leg : Edge)
         (total_goods : Q) (objective : string) (a : Assignment),
    assign_vehicles_for_leg solve df leg total_goods objective = Returns (Some a) ->
    exists x : nat -> Q,
      let available := available_at df (PyStr.lower (from leg)) in
      let taken := walk_loads x available total_goods in
      solve (build_model available leg total_goods objective) = Lp.Solved 1 x /\
      Forall2
        (fun (e : AssignedVehicle) (vl : Vehicle * Q) =>
           let v := fst vl in
           let dep := departure_of v in
           let arr := arrival_of leg v in
           a_vehicle_id e = vehicle_id v /\
           (forall h m : Z,
              0 <= h < 24 -> 0 <= m < 60 ->
              departure_time v
              = Some (PyTime.two_digits h ++ ":" ++ PyTime.two_digits m)%string ->
              dep = h * PyTime.us_per_hour + m * PyTime.us_per_minute) /\
           (forall (s : string) (t : PyTime.datetime),
              departure_time v = Some s -> PyTime.strptime_HM s = Some t -> dep = t) /\
           (departure_time v = None \/
            (exists s, departure_time v = Some s /\ PyTime.strptime_HM s = None) ->
            dep = 8 * PyTime.us_per_hour) /\
           reads_as dep (departure e) /\
           ~ (speed_kmph v == 0)%Q /\
           (- (1 # 2) <= inject_Z (arr - dep)
                         - distance leg / speed_kmph v * inject_Z PyTime.us_per_hour)%Q /\
           (inject_Z (arr - dep)
            - distance leg / speed_kmph v * inject_Z PyTime.us_per_hour <= 1 # 2)%Q /\
           PyTime.datetime_min <= arr <= PyTime.datetime_max /\
           reads_as arr (arrival e) /\
           PyNum.hundredths (travel_time_hours e) /\
           (- (1 # 200) <= travel_time_hours e - distance leg / speed_kmph v)%Q /\
           (travel_time_hours e - distance leg / speed_kmph v <= 1 # 200)%Q /\
           PyNum.hundredths (fuel_cost e) /\
           (- (1 # 200) <= fuel_cost e - cost_per_km v * distance leg)%Q /\
           (fuel_cost e - cost_per_km v * distance leg <= 1 # 200)%Q)
        (vehicles a) taken /\
      (vehicles a = [] -> last_arrival a = None) /\
      (vehicles a <> [] ->
       exists (m : PyTime.datetime) (s : string),
         In m (map (fun vl => arrival_of leg (fst vl)) taken) /\
         Forall (fun t => t <= m) (map (fun vl => arrival_of leg (fst vl)) taken) /\
         last_arrival a = Some s /\
         reads_as m s).
Proof.
  intros solve df leg total objective a H.
  destruct (assignment_inversion_schedule _ _ _ _ _ H) as (x & _ & Hx & Ha & Hs).
  exists x. intros available taken. fold available in Hx, Ha, Hs. fold taken in Ha, Hs.
  subst a. cbn [vehicles last_arrival].
  split; [exact Hx|]. split; [|split].
  - clear H. induction Hs as [|[v l] rest Hv _ IH]; cbn [map]; constructor; [|exact IH].
    cbn [fst] in *. destruct (schedule_raises_false leg v Hv) as [Hspeed Hrange].
    destruct (arrival_after_travel_time leg v) as [Lo Hi].
    destruct (round2_close (distance leg / speed_kmph v)) as (T1 & T2 & T3).
    destruct (round2_close (cost_per_km v * distance leg)) as (F1 & F2 & F3).
    unfold entry_of. cbn [fst snd].
    split; [reflexivity|]. split.
    { intros h m Hh Hm E.
      apply (@departure_of_configured v _ _ E).
      apply clock_reads_back; assumption. }
    split; [apply departure_of_configured|].
    split; [apply departure_of_default|].
    split; [apply strftime_reads_as|].
    split; [exact Hspeed|]. split; [exact Lo|]. split; [exact Hi|].
    split; [exact Hrange|]. split; [apply strftime_reads_as|].
    cbn [entry travel_time_hours fuel_cost]. unfold travel_time_of, fuel_cost_of.
    repeat split; assumption.
  - intro E. apply map_eq_nil in E. rewrite E. reflexivity.
  - intro Hne.
    assert (Hne' : map (fun vl => arrival_of leg (fst vl)) taken <> []).
    { intro E. apply map_eq_nil in E. apply Hne. now rewrite E. }
    destruct (latest_is_maximum Hne') as (m & Hm & Hin & Hall).
    exists m, (PyTime.strftime_HM m). rewrite Hm.
    split; [exact Hin|]. split; [exact Hall|]. split; [reflexivity|].
    apply strftime_reads_as.
Qed.

End ScheduleFacts.

Module ScheduleExamples.

Import Graph CapacityAllocator CapacityFacts CapacityExamples ScheduleFacts.
Open Scope Q_scope.

(** A van of speed 90 km/h. *)
Definition swift_van : Vehicle :=
  mkVehicle "A-VAN-01" "a" 5 90 (2 # 5) (Some "08:00"%string) "van".

(** C7 as first stated fails on the reported values.  On the 100 km leg the
    van of speed 90 is reported with a travel time of 1.11 hours, which is
    not 100 / 90; and with the two trucks, of which the second leaves at
    23:00, the leg's last arrival is the second truck's 00:15, a reading
    that is not the greatest of the reported arrivals 09:15 and 00:15. *)
Lemma reported_schedule_is_rounded_and_wraps :
  (forall solve : Lp.LpProblem nat -> Lp.Outcome nat,
      Lp.exact solve ->
      exists a e,
        assign_vehicles_for_leg solve [swift_van] leg_ab 1 "cost" = Returns (Some a) /\
        vehicles a = [e] /\
        travel_time_hours e == 111 # 100 /\
        ~ travel_time_hours e == distance leg_ab / speed_kmph swift_van) /\
  (forall solve : Lp.LpProblem nat -> Lp.Outcome nat,
      Lp.exact solve ->
      exists a e1 e2,
        assign_vehicles_for_leg solve pool leg_ab 1000 "cost" = Returns (Some a) /\
        vehicles a = [e1; e2] /\
        arrival e1 = "09:15"%string /\
        arrival e2 = "00:15"%string /\
        last_arrival a = Some "00:15"%string /\
        (arrival e2 <? arrival e1)%string = true).
Proof.
  split.
  - intros solve Ex. eexists. eexists. split.
    + apply (@sole_vehicle_assignment solve [swift_van] leg_ab 1 "cost"
               0%nat swift_van Ex); reflexivity || (vm_compute; discriminate).
    + split; [reflexivity|]. split; [reflexivity|]. vm_compute. discriminate.
  - intros solve Ex. eexists. eexists. eexists.
    split; [exact (full_load_assignment Ex)|].
    vm_compute. repeat split.
Qed.

(** The theorem at the worked leg: the first truck leaves at 08:00, takes
    100 / 80 hours and arrives at 09:15 for a fuel cost of 50; the second
    leaves at 23:00 and arrives at 00:15 of the next day, which is the leg's
    last arrival. *)
Lemma assigned_vehicle_schedule_at_worked_leg :
  exists (a : Assignment) (e1 e2 : AssignedVehicle) (m : PyTime.datetime),
    assign_vehicles_for_leg reference_leg_solve pool leg_ab 1000 "cost" = Returns (Some a) /\
    vehicles a = [e1; e2] /\
    (departure e1, arrival e1) = ("08:00", "09:15")%string /\
    travel_time_hours e1 == 5 # 4 /\
    fuel_cost e1 == 50 /\
    (departure e2, arrival e2) = ("23:00", "00:15")%string /\
    last_arrival a = Some "00:15"%string /\
    m = (24 * PyTime.us_per_hour + 15 * PyTime.us_per_minute)%Z /\
    reads_as m "00:15".
Proof.
  destruct (@assigned_vehicle_schedule reference_leg_solve pool leg_ab 1000 "cost" _
              (full_load_assignment reference_leg_solve_exact))
    as (x & Hx & _ & _ & Hlast).
  destruct Hlast as (m & s & Hin & Hall & Hs & Hm).
  - vm_compute. discriminate.
  - eexists. eexists. eexists. exists m.
    split; [exact (full_load_assignment reference_leg_solve_exact)|].
    split; [reflexivity|]. split; [reflexivity|]. split; [reflexivity|].
    split; [reflexivity|]. split; [reflexivity|]. split; [reflexivity|].
    cbn [last_arrival] in Hs.
    assert (Es : s = "00:15"%string).
    { vm_compute in Hs. congruence. }
    rewrite <- Es. split; [|exact Hm].
    rewrite pool_available in Hx, Hin, Hall.
    assert (EA : match reference_leg_solve
                         (build_model [(0%nat, truck1); (1%nat, truck2)] leg_ab 1000 "cost")
                 with
                 | Lp.Solved _ x' =>
                     map (fun vl => arrival_of leg_ab (fst vl))
                       (walk_loads x' [(0%nat, truck1); (1%nat, truck2)] 1000)
                 | _ => []
                 end = [33300000000; 87300000000]%Z).
    { vm_compute. reflexivity. }
    rewrite Hx in EA. rewrite EA in Hin, Hall.
    inversion Hall as [|t1 l1 H1 Hall']. inversion Hall' as [|t2 l2 H2 _].
    unfold PyTime.us_per_hour, PyTime.us_per_minute.
    destruct Hin as [<-|[<-|[]]]; lia.
Defined.

End ScheduleExamples.

(* ================================================================= *)
(** * What the solvers minimise *)

Module OptimalityMore.

Import Graph PathOptimizer PathFacts.
Open Scope Q_scope.

(** The total weight of a list of edges under an objective. *)
Definition route_weight (objective : string) (route : list Edge) : Q :=
  PyNum.Qsum (map (weight objective) route).

Lemma route_weight_cons objective e route :
  route_weight objective (e :: route) == weight objective e + route_weight objective route.
Proof. reflexivity. Qed.

Lemma route_weight_perm objective l l' :
  Permutation l l' -> route_weight objective l == route_weight objective l'.
Proof.
  induction 1 as [|e l l' _ IH|a b l|l1 l2 l3 _ IH1 _ IH2].
  - reflexivity.
  - rewrite !route_weight_cons, IH. reflexivity.
  - rewrite !route_weight_cons. lra.
  - now rewrite IH1.
Qed.

Lemma binary_tail (x : Key -> Q) (ke : Key * Edge) (rest : Edges) :
  Lp.binary x (Dict.keys (ke :: rest)) -> Lp.binary x (Dict.keys rest).
Proof. intros B k Hk. apply B. now right. Qed.

(** The objective at a 0/1 point is the weight of the edges it selects. *)
Lemma objective_is_selected_weight objective (edges : Edges) x :
  Lp.binary x (Dict.keys edges) ->
  Lp.value x (objective_terms objective edges)
    == route_weight objective (selected edges x).
Proof.
  induction edges as [|[k e] rest IH]; intro B; [reflexivity|].
  unfold objective_terms. cbn [map fst snd]. fold (objective_terms objective rest).
  rewrite Lp.value_cons, (IH (@binary_tail x (k, e) rest B)).
  unfold selected. cbn [filter fst]. fold (selected rest x).
  destruct (B k (or_introl eq_refl)) as [Z0|Z1].
  - assert (E : Qeq_bool (x k) 1 = false).
    { destruct (Qeq_bool (x k) 1) eqn:E; [|reflexivity].
      apply Qeq_bool_iff in E. rewrite Z0 in E. discriminate. }
    rewrite E, Z0. unfold selected. lra.
  - assert (E : Qeq_bool (x k) 1 = true) by now apply Qeq_bool_iff.
    rewrite E, Z1. cbn [map snd]. rewrite route_weight_cons. unfold selected. lra.
Qed.

(** The selection of one key. *)
Definition only (k0 : Key) : Key -> Q :=
  fun k => if PyStr.pair_eqb k k0 then 1 else 0.

Lemma only_binary k0 ks : Lp.binary (only k0) ks.
Proof. intros k _. unfold only. destruct (PyStr.pair_eqb k k0); [now right|now left]. Qed.

Lemma only_absent k0 (p : Key -> bool) (ks : list Key) :
  ~ In k0 ks -> Lp.value (only k0) (map (fun k => (k, 1)) (filter p ks)) == 0.
Proof.
  induction ks as [|k ks IH]; intro N; [reflexivity|].
  assert (Nk : k <> k0) by (intro E; apply N; now left).
  assert (Nr : ~ In k0 ks) by (intro H; apply N; now right).
  cbn [filter]. destruct (p k); [|now apply IH].
  cbn [map]. rewrite Lp.value_cons, (IH Nr). unfold only at 1.
  rewrite (@Dict.eqb_neq _ PyStr.pair_eqb PyStr.pair_eqb_eq k k0 Nk). lra.
Qed.

Lemma only_present k0 (p : Key -> bool) (ks : list Key) :
  NoDup ks -> In k0 ks ->
  Lp.value (only k0) (map (fun k => (k, 1)) (filter p ks))
    == if p k0 then 1 else 0.
Proof.
  induction 1 as [|k ks Hk Hd IH]; intro Hin; [destruct Hin|].
  cbn [filter]. destruct Hin as [->|Hin].
  - destruct (p k0).
    + cbn [map]. rewrite Lp.value_cons, (@only_absent k0 p ks Hk). unfold only.
      rewrite PyStr.pair_eqb_refl. lra.
    + now apply only_absent.
  - assert (Nk : k <> k0) by (intro E; subst; contradiction).
    destruct (p k); [|now apply IH].
    cbn [map]. rewrite Lp.value_cons, (IH Hin). unfold only at 1.
    rewrite (@Dict.eqb_neq _ PyStr.pair_eqb PyStr.pair_eqb_eq k k0 Nk). lra.
Qed.

Lemma only_weight_absent objective k0 (edges : Edges) :
  ~ In k0 (Dict.keys edges) ->
  Lp.value (only k0) (objective_terms objective edges) == 0.
Proof.
  induction edges as [|[k e] rest IH]; intro N; [reflexivity|].
  assert (Nk : k <> k0) by (intro E; apply N; now left).
  assert (Nr : ~ In k0 (Dict.keys rest)) by (intro H; apply N; now right).
  unfold objective_terms. cbn [map fst snd]. fold (objective_terms objective rest).
  rewrite Lp.value_cons, (IH Nr). unfold only at 1.
  rewrite (@Dict.eqb_neq _ PyStr.pair_eqb PyStr.pair_eqb_eq k k0 Nk). lra.
Qed.

Lemma only_weight objective k0 e0 (edges : Edges) :
  Dict.wf edges -> In (k0, e0) edges ->
  Lp.value (only k0) (objective_terms objective edges) == weight objective e0.
Proof.
  unfold Dict.wf, Dict.keys.
  induction edges as [|[k e] rest IH]; intros W Hin; [destruct Hin|].
  cbn [map fst] in W. inversion W as [|? ? Hk Hd]; subst.
  unfold objective_terms. cbn [map fst snd]. fold (objective_terms objective rest).
  rewrite Lp.value_cons.
  destruct Hin as [E|Hin].
  - inversion E; subst. rewrite (@only_weight_absent objective k0 rest Hk).
    unfold only. rewrite PyStr.pair_eqb_refl. lra.
  - assert (Nk : k <> k0).
    { intro E; subst. apply Hk. change k0 with (fst (k0, e0)). now apply in_map. }
    rewrite (IH Hd Hin). unfold only at 1.
    rewrite (@Dict.eqb_neq _ PyStr.pair_eqb PyStr.pair_eqb_eq k k0 Nk). lra.
Qed.

(** With distinct endpoints and no via node, taking only the direct edge
    conserves the flow. *)
Lemma direct_edge_feasible nodes (edges : Edges) start end_ objective via e :
  Dict.wf edges -> In ((start, end_), e) edges -> start <> end_ ->
  via_nodes via = [] ->
  Lp.feasible (build_model nodes edges start end_ objective via) (only (start, end_)).
Proof.
  intros W Hin Ne Hv. split; [apply only_binary|].
  cbn [build_model Lp.constraints]. rewrite Hv. cbn [map]. rewrite app_nil_r.
  assert (Hk : In (start, end_) (Dict.keys edges)).
  { change (start, end_) with (fst ((start, end_), e)). now apply in_map. }
  assert (In_ : forall n, Lp.value (only (start, end_)) (inflow edges n)
                          == if (end_ =? n)%string then 1 else 0).
  { intro n. unfold inflow.
    now rewrite (@only_present (start, end_) (fun k : Key => (snd k =? n)%string) _ W Hk). }
  assert (Out_ : forall n, Lp.value (only (start, end_)) (outflow edges n)
                           == if (start =? n)%string then 1 else 0).
  { intro n. unfold outflow.
    now rewrite (@only_present (start, end_) (fun k : Key => (fst k =? n)%string) _ W Hk). }
  apply Forall_forall. intros c Hc. apply in_map_iff in Hc.
  destruct Hc as [n [<- _]].
  unfold flow_constraint, Lp.satisfies.
  destruct (n =? start)%string eqn:Es; [|destruct (n =? end_)%string eqn:Ee];
    cbn [Lp.sense Lp.lhs Lp.rhs]; rewrite Lp.value_sub, In_, Out_.
  - apply String.eqb_eq in Es. subst n. rewrite String.eqb_refl.
    assert (F : (end_ =? start)%string = false).
    { apply String.eqb_neq. congruence. }
    rewrite F. lra.
  - apply String.eqb_eq in Ee. subst n. rewrite String.eqb_refl.
    rewrite String.eqb_sym in Es. rewrite Es. lra.
  - rewrite String.eqb_sym in Es. rewrite String.eqb_sym in Ee.
    rewrite Es, Ee. lra.
Qed.

(** X17. A non-empty result of [optimize] with a sound solver weighs no
    more, under the chosen objective, than any other selection of edges
    that satisfies the flow and via constraints; in particular, with distinct
    endpoints and no via node, it never weighs more than a direct edge from
    [start] to [end_]. *)
Theorem returned_route_is_cheapest :
  forall (solve : Lp.LpProblem Key -> Lp.Outcome Key),
    Lp.sound solve ->
    forall (nodes : Nodes) (edges : Edges) (start end_ objective : string)
           (via : option Via),
      let model := build_model nodes edges start end_ objective via in
      let route := optimize solve nodes edges start end_ objective via in
      route <> [] ->
      (forall x', Lp.feasible model x' ->
         route_weight objective route <= route_weight objective (selected edges x')) /\
      (forall e, Dict.wf edges -> In ((start, end_), e) edges -> start <> end_ ->
                 via_nodes via = [] ->
                 route_weight objective route <= weight objective e).
Proof.
  intros solve Sound nodes edges start end_ objective via model route Hne.
  destruct (optimize_cases solve nodes edges start end_ objective via)
    as [[E _]|[x [Hs E]]]; [now contradiction Hne|].
  destruct (Sound _ _ (route_model_wf nodes edges start end_ objective via) Hs)
    as [[B _] Best].
  cbn [build_model Lp.variables] in B.
  assert (R : route_weight objective route
              == Lp.value x (objective_terms objective edges)).
  { unfold route. rewrite E, (@route_weight_perm objective _ _ (sorted_perm _)).
    symmetry. exact (@objective_is_selected_weight objective edges x B). }
  split.
  - intros x' F. rewrite R.
    rewrite <- (@objective_is_selected_weight objective edges x' (proj1 F)).
    exact (Best x' F).
  - intros e W Hin Ne Hv. rewrite R.
    rewrite <- (@only_weight objective (start, end_) e edges W Hin).
    apply (Best (only (start, end_))).
    exact (@direct_edge_feasible nodes edges start end_ objective via e W Hin Ne Hv).
Qed.

End OptimalityMore.

(* ================================================================= *)
(** * The capacity plan, leg by leg *)

Module PlanMore.

Import Graph CapacityAllocator Plan PlanFacts.
Open Scope Q_scope.

(** A leg the fleet can serve: a vehicle is based at its origin and the
    usable capacity there covers the cargo. *)
Definition servable (vdf : DataFrame) (goods_kg : Q) (leg : Edge) : Prop :=
  let available := available_at vdf (PyStr.lower (from leg)) in
  available <> [] /\ goods_kg <= CapacityMore.usable_capacity available.

(** No vehicle at the origin of the leg has a schedule that raises on it. *)
Definition schedulable (vdf : DataFrame) (leg : Edge) : Prop :=
  Forall (fun iv => schedule_raises leg (snd iv) = false)
         (available_at vdf (PyStr.lower (from leg))).

Lemma assign_legs_servable solve_leg vdf goods_kg objective route :
  Lp.complete solve_leg ->
  Forall (servable vdf goods_kg) route ->
  Forall (schedulable vdf) route ->
  forall legs_output final_arrival,
  exists legs_out final,
    assign_legs solve_leg vdf goods_kg objective route legs_output final_arrival
      = Returns (Some (legs_out, final)).
Proof.
  intros Complete. induction 1 as [|leg rest [Hne Hcap] _ IH];
    intros Hs legs_output final_arrival; cbn [assign_legs].
  - now exists legs_output, final_arrival.
  - inversion Hs as [|? ? Hleg Hrest]; subst.
    destruct (@CapacityMore.capacity_gives_service solve_leg vdf leg goods_kg objective
                Complete Hne Hcap Hleg) as [a Ha].
    rewrite Ha. now apply IH.
Qed.

(** X18. With an exact leg solver, and no vehicle whose schedule raises at
    the origin of a leg of the route (speed zero, or an arrival outside the
    range of [datetime]), [optimize_with_capacity] answers with a plan
    exactly when source and destination are nodes, the fleet is not empty, a
    route is found, and every leg of the route can be served by the vehicles
    based at its origin.  Every leg of the plan is what the allocator
    returns for that leg with the whole fleet and the whole cargo: vehicles
    used on one leg are not withheld from the next. *)
Theorem plan_is_returned_iff_every_leg_is_servable :
  forall (solve_route : Lp.LpProblem PathOptimizer.Key -> Lp.Outcome PathOptimizer.Key)
         (solve_leg : Lp.LpProblem nat -> Lp.Outcome nat),
    Lp.exact solve_leg ->
    forall (nodes : Nodes) (edges : Edges) (vdf : DataFrame)
           (source destination : string) (goods_kg : Q) (objective : string),
      let path := PathOptimizer.optimize solve_route nodes edges
                    (PyStr.lower source) (PyStr.lower destination) objective None in
      Forall (schedulable vdf) path ->
      ((exists plan,
          optimize_with_capacity solve_route solve_leg nodes edges (Some vdf)
            source destination goods_kg objective = Success plan)
       <->
       (node_mem nodes source = true /\ node_mem nodes destination = true /\
        vdf <> [] /\ path <> [] /\ Forall (servable vdf goods_kg) path)) /\
      (forall plan,
          optimize_with_capacity solve_route solve_leg nodes edges (Some vdf)
            source destination goods_kg objective = Success plan ->
          Forall2 (fun leg a =>
                     assign_vehicles_for_leg solve_leg vdf leg goods_kg objective
                       = Returns (Some a))
                  path (legs plan)).
Proof.
  intros solve_route solve_leg [Sound Complete] nodes edges vdf source destination
         goods_kg objective path Hsch.
  assert (Legs : forall plan,
             optimize_with_capacity solve_route solve_leg nodes edges (Some vdf)
               source destination goods_kg objective = Success plan ->
             path <> [] /\
             Forall2 (fun leg a =>
                        assign_vehicles_for_leg solve_leg vdf leg goods_kg objective
                          = Returns (Some a))
                     path (legs plan)).
  { intros plan H.
    destruct (plan_inversion _ _ _ _ _ _ _ _ _ H) as (vdf' & Ev & Hp & Ha & _).
    inversion Ev; subst vdf'. fold path in Hp, Ha. split; [exact Hp|].
    destruct (assign_legs_spec _ _ _ _ _ _ _ Ha) as (new & E & F & _).
    cbn [app] in E. now rewrite E. }
  split; [split|].
  - intros [plan H]. destruct (Legs plan H) as [Hp F].
    unfold optimize_with_capacity in H.
    destruct (node_mem nodes source); [|discriminate].
    destruct (node_mem nodes destination); [|discriminate].
    cbn [negb orb] in H.
    split; [reflexivity|]. split; [reflexivity|].
    split; [now destruct vdf|]. split; [exact Hp|].
    clear - F Sound. induction F as [|leg a path' legs' Ha _ IH]; constructor;
      [|exact IH].
    exact (@CapacityMore.served_needs_capacity solve_leg vdf leg goods_kg objective a
             Sound Ha).
  - intros (Hs & Hd & Hv & Hp & Hserv).
    unfold optimize_with_capacity. rewrite Hs, Hd. cbn [negb orb].
    destruct vdf as [|v vdf']; [now contradiction Hv|].
    fold path.
    destruct (@assign_legs_servable solve_leg (v :: vdf') goods_kg objective path
                Complete Hserv Hsch [] None) as (legs_out & final & Ha).
    rewrite Ha. destruct path; [now contradiction Hp|]. eexists. reflexivity.
  - intros plan H. exact (proj2 (Legs plan H)).
Qed.

End PlanMore.

(* ================================================================= *)
(** * The fuel price cache ([utils.py]) *)

Module FuelCache.

Import Upload.
Open Scope Q_scope.

(** [FUEL_PRICE_CACHE]: prices by cache key. *)
Definition Cache := Dict.t string Q.

(** [f"{country_code}_{fuel_type}"] *)
Definition cache_key (country_code fuel_type : string) : string :=
  (country_code ++ "_" ++ fuel_type)%string.

(** [get_fuel_price] with the module-level cache threaded through: a cached
    key answers from the cache; otherwise the table is consulted and its
    answer stored. *)
Definition get_fuel_price_cached (cache : Cache) (country_code fuel_type : string)
  : Q * Cache :=
  let key := cache_key country_code fuel_type in
  match Dict.get String.eqb cache key with
  | Some price => (price, cache)
  | None =>
      let price := get_fuel_price country_code fuel_type in
      (price, Dict.set String.eqb cache key price)
  end.

(** A run of calls from a given cache: the prices returned, and the cache
    left behind. *)
Fixpoint calls (cache : Cache) (queries : list (string * string)) : list Q * Cache :=
  match queries with
  | [] => ([], cache)
  | (country_code, fuel_type) :: rest =>
      let (price, cache') := get_fuel_price_cached cache country_code fuel_type in
      let (prices, final) := calls cache' rest in
      (price :: prices, final)
  end.

Fixpoint has_underscore (s : string) : bool :=
  match s with
  | EmptyString => false
  | String c t => Ascii.eqb c "_" || has_underscore t
  end.

Lemma has_underscore_app a b :
  has_underscore (a ++ b) = has_underscore a || has_underscore b.
Proof.
  induction a as [|c a IH]; [reflexivity|].
  cbn [String.append has_underscore]. rewrite IH. now rewrite orb_assoc.
Qed.

(** Two ways of cutting the same key differ only if the longer country and
    the longer fuel name both contain an underscore. *)
Lemma cache_key_collision c f c' f' :
  cache_key c f = cache_key c' f' ->
  (c = c' /\ f = f') \/
  (has_underscore c' = true /\ has_underscore f = true) \/
  (has_underscore c = true /\ has_underscore f' = true).
Proof.
  unfold cache_key. revert c'. induction c as [|a c IH]; intros [|a' c'] E;
    cbn [String.append] in E.
  - left. inversion E. now split.
  - right. left. inversion E; subst. split; [reflexivity|].
    rewrite has_underscore_app. cbn [has_underscore]. cbn. now rewrite orb_true_r.
  - right. right. inversion E; subst. split; [reflexivity|].
    rewrite has_underscore_app. cbn [has_underscore]. cbn. now rewrite orb_true_r.
  - inversion E; subst. destruct (IH c' H1) as [[-> ->]|[[U1 U2]|[U1 U2]]].
    + now left.
    + right. left. cbn [has_underscore]. rewrite U1. now rewrite orb_true_r.
    + right. right. cbn [has_underscore]. rewrite U1. now rewrite orb_true_r.
Qed.

Lemma underscored_country c f : has_underscore c = true -> get_fuel_price c f = 12 # 10.
Proof.
  intro U. unfold get_fuel_price.
  repeat match goal with
         | |- context [(c =? ?s)%string] =>
             let E := fresh "E" in
             destruct (c =? s)%string eqn:E;
             [apply String.eqb_eq in E; subst c; discriminate U|]
         end.
  reflexivity.
Qed.

Lemma underscored_fuel c f : has_underscore f = true -> get_fuel_price c f = 12 # 10.
Proof.
  intro U. unfold get_fuel_price.
  assert (D : (f =? "diesel")%string = false).
  { destruct (f =? "diesel")%string eqn:E; [|reflexivity].
    apply String.eqb_eq in E. subst f. discriminate U. }
  assert (J : (f =? "jet")%string = false).
  { destruct (f =? "jet")%string eqn:E; [|reflexivity].
    apply String.eqb_eq in E. subst f. discriminate U. }
  rewrite D, J.
  repeat match goal with
         | |- context [if ?b then _ else _] => destruct b
         end; reflexivity.
Qed.

Lemma same_key_same_price c f c' f' :
  cache_key c f = cache_key c' f' -> get_fuel_price c f = get_fuel_price c' f'.
Proof.
  intro E. destruct (@cache_key_collision c f c' f' E) as [[-> ->]|[[U1 U2]|[U1 U2]]].
  - reflexivity.
  - now rewrite (@underscored_fuel c f U2), (@underscored_country c' f' U1).
  - now rewrite (@underscored_country c f U1), (@underscored_fuel c' f' U2).
Qed.

(** Every cached price is the table's price for any query with that key. *)
Definition consistent (cache : Cache) : Prop :=
  forall c f price,
    Dict.get String.eqb cache (cache_key c f) = Some price ->
    price = get_fuel_price c f.

Lemma get_fuel_price_cached_spec cache c f :
  consistent cache ->
  fst (get_fuel_price_cached cache c f) = get_fuel_price c f /\
  consistent (snd (get_fuel_price_cached cache c f)).
Proof.
  intro C. unfold get_fuel_price_cached.
  destruct (Dict.get String.eqb cache (cache_key c f)) as [price|] eqn:G; cbn [fst snd].
  - split; [now apply C|exact C].
  - split; [reflexivity|]. intros c' f' price G'.
    destruct (string_dec (cache_key c' f') (cache_key c f)) as [E|N].
    + rewrite E in G'.
      rewrite (@Dict.get_set_same _ _ String.eqb String.eqb_eq) in G'.
      inversion G'; subst. now apply same_key_same_price.
    + rewrite (@Dict.get_set_other _ _ String.eqb String.eqb_eq) in G'
        by congruence.
      now apply C.
Qed.

Lemma calls_spec queries :
  forall cache, consistent cache ->
    fst (calls cache queries) = map (fun q => get_fuel_price (fst q) (snd q)) queries /\
    consistent (snd (calls cache queries)).
Proof.
  induction queries as [|[c f] rest IH]; intros cache C; cbn [calls map fst snd].
  - now split.
  - destruct (@get_fuel_price_cached_spec cache c f C) as [P C'].
    destruct (get_fuel_price_cached cache c f) as [price cache'].
    cbn [fst snd] in P, C'. destruct (IH cache' C') as [Ps Cf].
    destruct (calls cache' rest) as [prices final]. cbn [fst snd] in *.
    split; [now rewrite P, Ps|exact Cf].
Qed.

(** X19. The cache never changes an answer: over any run of calls starting
    from the empty cache, each call returns the price of the static table
    for its own country and fuel type, although two different queries can
    share a cache key (the key joins the two names with an underscore), and
    every price is positive. *)
Theorem fuel_price_cache_is_transparent :
  forall queries : list (string * string),
    fst (calls [] queries) = map (fun q => get_fuel_price (fst q) (snd q)) queries /\
    Forall (fun price => 0 < price) (fst (calls [] queries)) /\
    cache_key "US_x"%string "y"%string = cache_key "US"%string "x_y"%string.
Proof.
  intro queries.
  assert (C0 : consistent []) by (intros c f price G; discriminate G).
  destruct (@calls_spec queries [] C0) as [P _].
  split; [exact P|]. split; [|reflexivity].
  rewrite P. apply Forall_forall. intros price Hin.
  apply in_map_iff in Hin. destruct Hin as [[c f] [<- _]].
  apply UploadMore.get_fuel_price_positive.
Qed.

End FuelCache.

(* ================================================================= *)
(** * Air against road ([utils.py]) *)

Module MetricsMore.

Import Graph Upload.
Open Scope Q_scope.

Lemma round_half_even_cases q :
  PyNum.round_half_even q = Qfloor q \/ PyNum.round_half_even q = (Qfloor q + 1)%Z.
Proof.
  unfold PyNum.round_half_even.
  destruct (Qcompare (q - inject_Z (Qfloor q)) (1 # 2)); auto.
  destruct (Z.even (Qfloor q)); auto.
Qed.

Lemma round_half_even_monotone a b :
  a <= b -> (PyNum.round_half_even a <= PyNum.round_half_even b)%Z.
Proof.
  intro L. pose proof (Qfloor_resp_le a b L) as F.
  destruct (Z.eq_dec (Qfloor a) (Qfloor b)) as [E|N].
  - unfold PyNum.round_half_even. rewrite <- E.
    destruct (Qcompare_spec (a - inject_Z (Qfloor a)) (1 # 2)) as [Ea|La|Ga];
      destruct (Qcompare_spec (b - inject_Z (Qfloor a)) (1 # 2)) as [Eb|Lb|Gb];
      try lia; try (destruct (Z.even (Qfloor a)); lia); exfalso; lra.
  - destruct (round_half_even_cases a) as [-> | ->];
      destruct (round_half_even_cases b) as [-> | ->]; lia.
Qed.

Lemma round2_monotone a b : a <= b -> PyNum.round2 a <= PyNum.round2 b.
Proof.
  intro L. unfold PyNum.round2.
  assert (M : (PyNum.round_half_even (a * 100) <= PyNum.round_half_even (b * 100))%Z).
  { apply round_half_even_monotone. lra. }
  rewrite Zle_Qle in M.
  unfold Qdiv. apply Qmult_le_compat_r; [exact M|discriminate].
Qed.

Lemma get_fuel_price_range c f : 3 # 4 <= get_fuel_price c f /\ get_fuel_price c f <= 16 # 10.
Proof.
  unfold get_fuel_price.
  repeat match goal with
         | |- context [if ?b then _ else _] => destruct b
         end; split; discriminate.
Qed.

Lemma quarter dist : dist / 4 == dist * (1 # 4).
Proof. reflexivity. Qed.

Lemma metrics_compare dist country :
  0 <= dist ->
  fst (air_metrics dist country) <= fst (road_metrics dist country) /\
  snd (road_metrics dist country) <= snd (air_metrics dist country).
Proof.
  intro D. unfold air_metrics, road_metrics. cbn [fst snd]. split.
  - apply round2_monotone.
    change (dist / 800) with (dist * (1 # 800)).
    change (dist / 50) with (dist * (1 # 50)). lra.
  - apply round2_monotone.
    destruct (get_fuel_price_range country "diesel") as [_ Hd].
    destruct (get_fuel_price_range country "jet") as [Hj _].
    set (pd := get_fuel_price country "diesel") in *.
    set (pj := get_fuel_price country "jet") in *.
    rewrite quarter. nra.
Qed.

(** X20. Over the same non-negative distance an air link is never slower
    and never cheaper in fuel than a road link, whatever the country; so the
    air edge that an upload keeps for a pair served both ways (same
    coordinates) has at most the time and at least the fuel cost of the road
    edge it displaces, and the same distance. *)
Theorem air_is_never_slower_nor_cheaper_than_road :
  forall (haversine : Q -> Q -> Q -> Q -> Q) (country : string) (r : Row),
    0 <= haversine (r_lat_src r) (r_lon_src r) (r_lat_dst r) (r_lon_dst r) ->
    let a := air_edge haversine country r in
    let b := road_edge haversine country r in
    time a <= time b /\ fuel b <= fuel a /\ distance a = distance b /\
    from a = from b /\ to a = to b.
Proof.
  intros haversine country r D a b. unfold a, b, air_edge, road_edge.
  set (dist := haversine (r_lat_src r) (r_lon_src r) (r_lat_dst r) (r_lon_dst r)) in *.
  destruct (metrics_compare country D) as [T F].
  destruct (air_metrics dist country) as [ta fa].
  destruct (road_metrics dist country) as [tb fb].
  cbn [fst snd] in T, F. unfold make_edge. cbn [time fuel distance from to].
  split; [now apply round2_monotone|]. split; [now apply round2_monotone|].
  repeat split.
Qed.

End MetricsMore.

(* ================================================================= *)
(** * The route endpoint ([main.py], [optimizer.py]) *)

Module RouteApi.

Import Graph PathOptimizer.
Open Scope Q_scope.

(** The dictionary [get_route_summary] returns.  [modes] is a list made
    from a set, whose order Python does not fix: it is kept as the set. *)
Record Summary := mkSummary
  { total_distance : Q;
    total_time : Q;
    total_fuel_cost : Q;
    segment_count : nat;
    modes : Mode -> bool }.

Definition get_route_summary (route : list Edge) : Summary :=
  match route with
  | [] => mkSummary 0 0 0 0 (fun _ => false)
  | _ =>
      mkSummary
        (PyNum.round2 (PyNum.Qsum (map distance route)))
        (PyNum.round2 (PyNum.Qsum (map time route)))
        (PyNum.round2 (PyNum.Qsum (map fuel route)))
        (List.length route)
        (fun m => existsb (fun r => mode_eqb (mode r) m) route)
  end.

(** What [get_optimize] answers: the route with its summary, or an
    [HTTPException]. *)
Inductive Reply :=
| Found (route : list Edge) (summary : Summary)
| HTTPException (status_code : Z).

Section WithSolver.

Variable solve : Lp.LpProblem Key -> Lp.Outcome Key.

Definition get_optimize (nodes : Nodes) (edges : Edges)
    (source destination objective : string) : Reply :=
  if negb (node_mem nodes source) || negb (node_mem nodes destination) then
    HTTPException 400
  else
    let route := optimize solve nodes edges (PyStr.lower source)
                   (PyStr.lower destination) objective None in
    match route with
    | [] => HTTPException 404
    | _ => Found route (get_route_summary route)
    end.

End WithSolver.

End RouteApi.

Module RouteApiFacts.

Import Graph PathOptimizer Upload RouteApi.
Open Scope Q_scope.

Lemma hundredths_zero : PyNum.hundredths 0.
Proof. exists 0%Z. reflexivity. Qed.

Lemma hundredths_plus a b :
  PyNum.hundredths a -> PyNum.hundredths b -> PyNum.hundredths (a + b).
Proof.
  intros [x Ex] [y Ey]. exists (x + y)%Z. rewrite Ex, Ey, inject_Z_plus. field.
Qed.

Lemma hundredths_round2 q : PyNum.hundredths (PyNum.round2 q).
Proof. unfold PyNum.round2. now eexists. Qed.

Lemma hundredths_sum (A : Type) (f : A -> Q) (l : list A) :
  Forall (fun a => PyNum.hundredths (f a)) l -> PyNum.hundredths (PyNum.Qsum (map f l)).
Proof.
  induction 1 as [|a l H _ IH]; [exact hundredths_zero|].
  cbn [map PyNum.Qsum fold_right]. fold (PyNum.Qsum (map f l)).
  now apply hundredths_plus.
Qed.

(** The figures of an edge are rounded to two decimals. *)
Definition rounded_edge (e : Edge) : Prop :=
  PyNum.hundredths (distance e) /\ PyNum.hundredths (time e) /\ PyNum.hundredths (fuel e).

Lemma summary_of_rounded_edges route :
  Forall rounded_edge route ->
  let s := get_route_summary route in
  total_distance s == PyNum.Qsum (map distance route) /\
  total_time s == PyNum.Qsum (map time route) /\
  total_fuel_cost s == PyNum.Qsum (map fuel route) /\
  segment_count s = List.length route /\
  (forall m, modes s m = true <-> exists r, In r route /\ mode r = m).
Proof.
  intros F s. unfold s. destruct route as [|e route]; [|set (r := e :: route) in *].
  - cbn. repeat split; try reflexivity; try discriminate.
    intros [r [[] _]].
  - cbn [get_route_summary total_distance total_time total_fuel_cost segment_count modes].
    fold r.
    split; [|split; [|split; [|split]]].
    + apply PyNum.round2_fixes_hundredths. apply hundredths_sum.
      apply (Forall_impl _ (fun e H => proj1 H) F).
    + apply PyNum.round2_fixes_hundredths. apply hundredths_sum.
      apply (Forall_impl _ (fun e H => proj1 (proj2 H)) F).
    + apply PyNum.round2_fixes_hundredths. apply hundredths_sum.
      apply (Forall_impl _ (fun e H => proj2 (proj2 H)) F).
    + reflexivity.
    + intro m. split.
      * intro H. apply existsb_exists in H. destruct H as [x [Hin Hm]].
        exists x. split; [exact Hin|].
        destruct (mode x), m; (reflexivity || discriminate).
      * intros [x [Hin Hm]]. apply existsb_exists. exists x.
        split; [exact Hin|]. subst m. now destruct (mode x).
Qed.

Section WithDistance.

Variable haversine : Q -> Q -> Q -> Q -> Q.
Variable country : string.

#[local] Abbreviation upload := (Upload.upload haversine country).

Lemma air_edge_rounded r : rounded_edge (air_edge haversine country r).
Proof.
  unfold air_edge. destruct (air_metrics _ _) as [t f]. unfold make_edge, rounded_edge.
  cbn [distance time fuel]. repeat split; apply hundredths_round2.
Qed.

Lemma road_edge_rounded r : rounded_edge (road_edge haversine country r).
Proof.
  unfold road_edge. destruct (road_metrics _ _) as [t f]. unfold make_edge, rounded_edge.
  cbn [distance time fuel]. repeat split; apply hundredths_round2.
Qed.

Lemma fold_edges_all (P : Edge -> Prop)
      (step : Nodes * Edges -> Row -> Nodes * Edges) (make : Row -> Edge) rows :
  (forall r, P (make r)) ->
  (forall st r e, In e (Dict.values (snd (step st r))) ->
                  e = make r \/ In e (Dict.values (snd st))) ->
  forall st : Nodes * Edges,
    (forall e, In e (Dict.values (snd st)) -> P e) ->
    forall e, In e (Dict.values (snd (fold_left step rows st))) -> P e.
Proof.
  intros Hmake Hstep. induction rows as [|r rows IH]; intros st Hst; [exact Hst|].
  cbn [fold_left]. apply IH. intros e He.
  destruct (Hstep st r e He) as [->|Hin]; [apply Hmake|now apply Hst].
Qed.

Lemma uploaded_edges_rounded air_rows road_rows e :
  In e (Dict.values (snd (upload air_rows road_rows))) -> rounded_edge e.
Proof.
  revert e. unfold Upload.upload.
  apply (@fold_edges_all rounded_edge (Upload.process_road haversine country)
           (Upload.road_edge haversine country) road_rows).
  - exact road_edge_rounded.
  - intros st r e He. rewrite UploadFacts.process_road_edges in He.
    destruct (edge_get (snd st) (row_key r)) as [e'|];
      [destruct (mode_eqb (mode e') air); [now right|]|];
      now apply UploadMore.values_set_in in He.
  - apply (@fold_edges_all rounded_edge (Upload.process_air haversine country)
             (Upload.air_edge haversine country) air_rows).
    + exact air_edge_rounded.
    + intros st r e He. rewrite UploadFacts.process_air_edges in He.
      now apply UploadMore.values_set_in in He.
    + intros e [].
Qed.

(** X21. When [get_optimize] answers with a route over an uploaded graph,
    the route is not empty and made of edges of the graph, and the summary
    loses nothing to rounding: the totals are the exact sums of the edges'
    distance, time and fuel figures (each already rounded at upload), the
    segment count is the number of edges, and the modes are those of the
    edges. *)
Theorem route_summary_totals_are_exact :
  forall (solve : Lp.LpProblem Key -> Lp.Outcome Key)
         (air_rows road_rows : list Row)
         (source destination objective : string)
         (route : list Edge) (summary : Summary),
    let nodes := fst (upload air_rows road_rows) in
    let edges := snd (upload air_rows road_rows) in
    get_optimize solve nodes edges source destination objective = Found route summary ->
    route <> [] /\
    (forall e, In e route -> In e (Dict.values edges)) /\
    total_distance summary == PyNum.Qsum (map distance route) /\
    total_time summary == PyNum.Qsum (map time route) /\
    total_fuel_cost summary == PyNum.Qsum (map fuel route) /\
    segment_count summary = List.length route /\
    (forall m, modes summary m = true <-> exists r, In r route /\ mode r = m).
Proof.
  intros solve air_rows road_rows source destination objective route summary
         nodes edges H.
  unfold get_optimize in H.
  destruct (negb (node_mem nodes source) || negb (node_mem nodes destination));
    [discriminate|].
  pose proof (PathMore.route_within_graph solve nodes edges (PyStr.lower source)
                (PyStr.lower destination) objective None) as [Sub _].
  destruct (optimize solve nodes edges (PyStr.lower source) (PyStr.lower destination)
              objective None) as [|e0 rest] eqn:E; [discriminate|].
  inversion H; subst route summary. clear H.
  split; [discriminate|]. split; [exact Sub|].
  assert (F : Forall rounded_edge (e0 :: rest)).
  { apply Forall_forall. intros e He.
    apply (@uploaded_edges_rounded air_rows road_rows). now apply Sub. }
  exact (@summary_of_rounded_edges (e0 :: rest) F).
Qed.

(** X22. On an uploaded graph node names are stored lowercase but looked up
    as given: a source or destination that is not already lowercase is
    answered with 400 by [get_optimize] and by [optimize_with_capacity],
    even when its lowercase form is a node; and with a sound solver a
    request from a node to itself is answered with 404. *)
Theorem unnormalised_names_are_rejected :
  forall (solve : Lp.LpProblem Key -> Lp.Outcome Key)
         (solve_leg : Lp.LpProblem nat -> Lp.Outcome nat)
         (air_rows road_rows : list Row)
         (source destination objective : string),
    let nodes := fst (upload air_rows road_rows) in
    let edges := snd (upload air_rows road_rows) in
    (PyStr.lower source <> source \/ PyStr.lower destination <> destination ->
     get_optimize solve nodes edges source destination objective = HTTPException 400 /\
     forall vehicles_df goods_kg,
       Plan.optimize_with_capacity solve solve_leg nodes edges vehicles_df
         source destination goods_kg objective = Plan.HTTPException 400) /\
    (Lp.sound solve -> node_mem nodes source = true ->
     get_optimize solve nodes edges source source objective = HTTPException 404).
Proof.
  intros solve solve_leg air_rows road_rows source destination objective nodes edges.
  pose proof (UploadMore.uploaded_graph_shape haversine country air_rows road_rows) as S.
  cbv zeta in S. fold nodes edges in S. destruct S as (_ & Wn & Low & C & _).
  assert (Mem : forall n, node_mem nodes n = true -> PyStr.lower n = n).
  { intros n M. apply Low. now apply PathFacts.node_mem_in. }
  split.
  - intro N.
    assert (B : negb (node_mem nodes source) || negb (node_mem nodes destination)
                = true).
    { destruct (node_mem nodes source) eqn:Ms; [|reflexivity].
      destruct (node_mem nodes destination) eqn:Md; [|reflexivity].
      exfalso. destruct N as [N|N]; apply N; now apply Mem. }
    split.
    + unfold get_optimize. now rewrite B.
    + intros vehicles_df goods_kg. unfold Plan.optimize_with_capacity. now rewrite B.
  - intros Sound Ms. unfold get_optimize. rewrite Ms. cbn [negb orb].
    rewrite (Mem source Ms).
    now rewrite (@PathMore.same_endpoints_give_nothing solve Sound nodes edges source
                   objective None C Wn Ms).
Qed.

End WithDistance.

End RouteApiFacts.

(* ================================================================= *)
(** * Schedules that do not raise *)

Module FleetSchedule.

Import Graph CapacityAllocator.
Open Scope Q_scope.

(** A vehicle at 60 km/h or more on a leg of at most a million km arrives
    within two years of its departure: nothing raises. *)
Lemma schedulable_by_bounds leg v :
  60 <= speed_kmph v -> 0 <= distance leg -> distance leg <= 1000000 ->
  schedule_raises leg v = false.
Proof.
  intros Hs Hd0 Hd1. unfold schedule_raises.
  assert (Z0 : Qeq_bool (speed_kmph v) 0 = false).
  { destruct (Qeq_bool (speed_kmph v) 0) eqn:E; [|reflexivity].
    apply Qeq_bool_iff in E. lra. }
  rewrite Z0. cbn [orb].
  assert (T0 : 0 <= travel_time_of leg v).
  { apply ScheduleMore.travel_time_nonneg; [exact Hd0|lra]. }
  assert (T1 : travel_time_of leg v <= 1000000 / 60).
  { unfold travel_time_of. apply Qle_shift_div_r; [lra|].
    assert (E : 1000000 / 60 * speed_kmph v == (1000000 # 60) * speed_kmph v)
      by reflexivity.
    rewrite E. lra. }
  pose proof (ScheduleMore.timedelta_hours_nonneg T0) as D0.
  assert (D1 : (PyTime.timedelta_hours (travel_time_of leg v) <= 60000000000000)%Z).
  { unfold PyTime.timedelta_hours.
    rewrite <- (PyNum.round_half_even_inject 60000000000000).
    apply MetricsMore.round_half_even_monotone.
    unfold PyTime.us_per_hour.
    assert (E : inject_Z 60000000000000 == (1000000 / 60) * inject_Z 3600000000)
      by reflexivity.
    rewrite E. apply Qmult_le_compat_r; [exact T1|discriminate]. }
  destruct (ScheduleMore.departure_of_is_a_clock v) as (h & m & Hh & Hm & E).
  unfold arrival_of. rewrite E. unfold ScheduleMore.of_clock.
  unfold PyTime.representable, PyTime.datetime_min, PyTime.datetime_max,
    PyTime.us_per_day, PyTime.us_per_hour, PyTime.us_per_minute.
  apply negb_false_iff. apply andb_true_iff. split; apply Z.leb_le; lia.
Qed.

Lemma prepared_fleet_schedulable rows leg :
  0 <= distance leg -> distance leg <= 1000000 ->
  Forall (fun v => schedule_raises leg v = false) (Fleet.prepare_vehicles_df rows).
Proof.
  intros Hd0 Hd1.
  pose proof (FleetFacts.prepare_from_rows [] rows) as F.
  fold (Fleet.prepare_vehicles_df rows) in F.
  induction F as [|r v rs vs H _ IH]; constructor; [|exact IH].
  destruct H as (_ & _ & _ & _ & _ & S & _).
  now apply schedulable_by_bounds.
Qed.

Lemma prepared_fleet_schedulable_at rows leg city :
  0 <= distance leg -> distance leg <= 1000000 ->
  Forall (fun iv => schedule_raises leg (snd iv) = false)
         (available_at (Fleet.prepare_vehicles_df rows) city).
Proof.
  intros Hd0 Hd1. apply Forall_forall. intros [i v] Hin. cbn [snd].
  pose proof (@prepared_fleet_schedulable rows leg Hd0 Hd1) as F.
  rewrite Forall_forall in F. apply F.
  apply (@CapacityMore.subsequence_in _
           (map snd (available_at (Fleet.prepare_vehicles_df rows) city)) _ v
           (CapacityMore.available_subsequence _ _)).
  change v with (snd (i, v)). now apply in_map.
Qed.

End FleetSchedule.

(* ================================================================= *)
(** * The stand-alone allocator endpoints ([capacity_api.py]) *)

Module CapacityApi.

Import Graph CapacityAllocator Fleet.
Open Scope Q_scope.

(** The request schemas. *)
Record VehicleInput := mkVehicleInput
  { in_WarehouseName : string;
    in_VehicleType : string;
    in_VehicleCapacity : Z;
    in_DepartureTime : string }.

Record LegInput := mkLegInput
  { from_city : string;
    to_city : string;
    in_distance : Q;
    in_time : Q }.

(** [v.model_dump()], as a row of the frame built from the request. *)
Definition model_dump (v : VehicleInput) : RawVehicle :=
  mkRaw (in_WarehouseName v) (in_VehicleType v) (inject_Z (in_VehicleCapacity v))
        (Some (in_DepartureTime v)).

(** [leg_dict]: the dictionary has the four keys [from], [to], [distance]
    and [time], the only ones [assign_vehicles_for_leg] reads; the other
    fields of the edge record are placeholders. *)
Definition leg_dict (leg : LegInput) : Edge :=
  mkEdge (from_city leg) (to_city leg) road (in_distance leg) (in_time leg)
         0 0 0 0 0 [].

(** What a handler does: it returns a value or raises an [HTTPException].
    What the framework then makes of a returned value (checking it against
    a response model, encoding it) is not part of the handler. *)
Inductive Reply (A : Type) :=
| Ok (result : A)
| HTTPException (status_code : Z).

Arguments Ok {A} result.
Arguments HTTPException {A} status_code.

Record BatchAssignment := mkBatch
  { total_legs : nat;
    assignments_successful : nat;
    assignments : list Assignment }.

Section WithSolver.

Variable solve : Lp.LpProblem nat -> Lp.Outcome nat.

(** [assign_vehicles_endpoint].  A request without vehicles makes a frame
    without columns, on which [prepare_vehicles_df] raises [KeyError]; that
    and a solver error fall to [except Exception]. *)
Definition assign_vehicles_endpoint (vehicles : list VehicleInput) (leg : LegInput)
    (total_goods_kg : Q) (objective : string) : Reply Assignment :=
  if negb ((objective =? "cost")%string || (objective =? "time")%string) then
    HTTPException 400
  else
    match vehicles with
    | [] => HTTPException 500
    | _ =>
        let prepared_df := prepare_vehicles_df (map model_dump vehicles) in
        match assign_vehicles_for_leg solve prepared_df (leg_dict leg) total_goods_kg
                objective with
        | Raises => HTTPException 500
        | Returns None => HTTPException 400
        | Returns (Some result) => Ok result
        end
    end.

(** The loop [for idx, leg in enumerate(legs, 1)], from [assignments]. *)
Fixpoint batch_loop (prepared_df : DataFrame) (total_goods_kg : Q) (objective : string)
    (legs : list LegInput) (assignments : list Assignment) : Py (list Assignment) :=
  match legs with
  | [] => Returns assignments
  | leg :: rest =>
      match assign_vehicles_for_leg solve prepared_df (leg_dict leg) total_goods_kg
              objective with
      | Raises => Raises
      | Returns None => batch_loop prepared_df total_goods_kg objective rest assignments
      | Returns (Some result) =>
          batch_loop prepared_df total_goods_kg objective rest (assignments ++ [result])
      end
  end.

(** The value [batch_assign_vehicles] returns. *)
Definition batch_assign_vehicles (vehicles : list VehicleInput) (legs : list LegInput)
    (total_goods_kg : Q) (objective : string) : Reply BatchAssignment :=
  match vehicles with
  | [] => HTTPException 500
  | _ =>
      let prepared_df := prepare_vehicles_df (map model_dump vehicles) in
      match batch_loop prepared_df total_goods_kg objective legs [] with
      | Raises => HTTPException 500
      | Returns assignments =>
          Ok (mkBatch (List.length legs) (List.length assignments) assignments)
      end
  end.

End WithSolver.

End CapacityApi.

Module CapacityApiFacts.

Import Graph CapacityAllocator Fleet CapacityApi.
Open Scope Q_scope.

(** Whether the fleet can serve a leg: a vehicle at its origin, and usable
    capacity there for the cargo. *)
Definition servableb (vdf : DataFrame) (goods_kg : Q) (leg : Edge) : bool :=
  let available := available_at vdf (PyStr.lower (from leg)) in
  match available with
  | [] => false
  | _ => Qle_bool goods_kg (CapacityMore.usable_capacity available)
  end.

Lemma servableb_spec vdf goods_kg leg :
  servableb vdf goods_kg leg = true <->
  available_at vdf (PyStr.lower (from leg)) <> [] /\
  goods_kg <= CapacityMore.usable_capacity (available_at vdf (PyStr.lower (from leg))).
Proof.
  unfold servableb. destruct (available_at vdf (PyStr.lower (from leg))) as [|iv l].
  - split; [discriminate|]. intros [N _]. now contradiction N.
  - rewrite Qle_bool_iff. split; [intro H; split; [discriminate|exact H]|tauto].
Qed.

Lemma served_or_not solve vdf leg goods_kg objective :
  Lp.exact solve ->
  if servableb vdf goods_kg leg
  then assign_vehicles_for_leg solve vdf leg goods_kg objective <> Returns None
  else forall a, assign_vehicles_for_leg solve vdf leg goods_kg objective
                 <> Returns (Some a).
Proof.
  intros [Sound Complete]. destruct (servableb vdf goods_kg leg) eqn:E.
  - apply servableb_spec in E. destruct E as [Hne Hcap].
    exact (@CapacityMore.servable_is_not_refused solve vdf leg goods_kg objective
             Complete Hne Hcap).
  - intros a H.
    pose proof (@CapacityMore.served_needs_capacity solve vdf leg goods_kg objective a
                  Sound H) as S.
    apply servableb_spec in S. congruence.
Qed.

Lemma batch_loop_spec solve vdf goods_kg objective legs :
  forall assignments out,
    batch_loop solve vdf goods_kg objective legs assignments = Returns out ->
    exists new served,
      out = assignments ++ new /\
      CapacityMore.Subsequence served legs /\
      Forall2 (fun leg a =>
                 assign_vehicles_for_leg solve vdf (leg_dict leg) goods_kg objective
                   = Returns (Some a)) served new /\
      (Lp.exact solve ->
       served = filter (fun leg => servableb vdf goods_kg (leg_dict leg)) legs).
Proof.
  induction legs as [|leg rest IH]; intros assignments out H; cbn [batch_loop] in H.
  - inversion H; subst. exists [], []. rewrite app_nil_r.
    repeat split; constructor.
  - destruct (assign_vehicles_for_leg solve vdf (leg_dict leg) goods_kg objective)
      as [|[a|]] eqn:E; [discriminate| |].
    + destruct (IH _ _ H) as (new & served & Eo & Sub & F & Ex).
      exists (a :: new), (leg :: served). rewrite <- app_assoc in Eo.
      split; [exact Eo|]. split; [now constructor|]. split; [now constructor|].
      intro X. cbn [filter].
      pose proof (@served_or_not solve vdf (leg_dict leg) goods_kg objective X) as S.
      destruct (servableb vdf goods_kg (leg_dict leg)).
      * now rewrite (Ex X).
      * now contradiction (S a).
    + destruct (IH _ _ H) as (new & served & Eo & Sub & F & Ex).
      exists new, served.
      split; [exact Eo|]. split; [now constructor|]. split; [exact F|].
      intro X. cbn [filter].
      pose proof (@served_or_not solve vdf (leg_dict leg) goods_kg objective X) as S.
      destruct (servableb vdf goods_kg (leg_dict leg)).
      * now contradiction S.
      * exact (Ex X).
Qed.

(** [assign_vehicles_for_leg] reads only the origin, destination, distance
    and time of the leg: the four-key dictionary the endpoints build
    determines the result. *)
Lemma allocator_reads_four_leg_fields :
  forall (solve : Lp.LpProblem nat -> Lp.Outcome nat) (df : DataFrame)
         (leg leg' : Edge) (total_goods : Q) (objective : string),
    from leg = from leg' -> to leg = to leg' ->
    distance leg = distance leg' -> time leg = time leg' ->
    assign_vehicles_for_leg solve df leg total_goods objective
    = assign_vehicles_for_leg solve df leg' total_goods objective.
Proof.
  intros solve df leg leg' total objective Ef Et Ed Eti.
  destruct leg, leg'. cbn [from to distance time] in *. subst.
  reflexivity.
Qed.

(** X23. [batch_assign_vehicles] skips the legs it cannot serve instead of
    failing: when the handler returns, it reports the number of legs asked
    for, and the assignments are those of a sub-list of the legs, in order;
    with an exact solver these are exactly the servable legs, so the k-th
    assignment need not belong to the k-th leg.  On a request without
    vehicles the handler raises the 500 exception. *)
Theorem batch_skips_unservable_legs :
  forall (solve : Lp.LpProblem nat -> Lp.Outcome nat)
         (vehicles : list VehicleInput) (legs : list LegInput)
         (total_goods_kg : Q) (objective : string),
    let prepared_df := prepare_vehicles_df (map model_dump vehicles) in
    (vehicles = [] ->
     batch_assign_vehicles solve vehicles legs total_goods_kg objective
     = HTTPException 500) /\
    (forall r,
       batch_assign_vehicles solve vehicles legs total_goods_kg objective = Ok r ->
       total_legs r = List.length legs /\
       assignments_successful r = List.length (assignments r) /\
       (assignments_successful r <= total_legs r)%nat /\
       exists served,
         CapacityMore.Subsequence served legs /\
         Forall2 (fun leg a =>
                    assign_vehicles_for_leg solve prepared_df (leg_dict leg)
                      total_goods_kg objective = Returns (Some a) /\
                    leg_from a = from_city leg /\ leg_to a = to_city leg)
                 served (assignments r) /\
         (Lp.exact solve ->
          served = filter (fun leg => servableb prepared_df total_goods_kg (leg_dict leg))
                          legs)).
Proof.
  intros solve vehicles legs total objective prepared_df. split.
  - intros ->. reflexivity.
  - intros r H. unfold batch_assign_vehicles in H.
    destruct vehicles as [|v vs]; [discriminate|]. fold prepared_df in H.
    destruct (batch_loop solve prepared_df total objective legs []) as [|out] eqn:E;
      [discriminate|].
    inversion H; subst r. clear H. cbn [total_legs assignments_successful assignments].
    destruct (batch_loop_spec _ _ _ _ _ _ E) as (new & served & Eo & Sub & F & Ex).
    cbn [app] in Eo. subst new.
    assert (Len : (List.length out <= List.length legs)%nat).
    { rewrite <- (Forall2_length F). clear - Sub.
      induction Sub; cbn [List.length]; lia. }
    split; [reflexivity|]. split; [reflexivity|]. split; [exact Len|].
    exists served. split; [exact Sub|]. split; [|exact Ex].
    clear - F. induction F as [|leg a ls as_ Ha _ IH]; constructor; [|exact IH].
    split; [exact Ha|].
    destruct (CapacityFacts.assignment_inversion _ _ _ _ _ Ha) as (x & _ & _ & ->).
    split; reflexivity.
Qed.

(** X24. [assign_vehicles_endpoint] raises the 400 exception for any
    objective other than "cost" and "time" before looking at the request;
    with a valid objective it raises the 500 exception on a request without
    vehicles and whenever the allocator raises, a returned result is the
    allocator's, and with an exact solver, a request with vehicles and a leg
    distance between 0 and a million km (so that no schedule overflows) it
    returns a result exactly when the leg is servable by the prepared
    fleet. *)
Theorem assign_endpoint_replies :
  forall (solve : Lp.LpProblem nat -> Lp.Outcome nat)
         (vehicles : list VehicleInput) (leg : LegInput)
         (total_goods_kg : Q) (objective : string),
    let prepared_df := prepare_vehicles_df (map model_dump vehicles) in
    (objective <> "cost"%string -> objective <> "time"%string ->
     assign_vehicles_endpoint solve vehicles leg total_goods_kg objective
     = HTTPException 400) /\
    (objective = "cost"%string \/ objective = "time"%string ->
     (vehicles = [] ->
      assign_vehicles_endpoint solve vehicles leg total_goods_kg objective
      = HTTPException 500) /\
     (assign_vehicles_for_leg solve prepared_df (leg_dict leg) total_goods_kg objective
      = Raises ->
      assign_vehicles_endpoint solve vehicles leg total_goods_kg objective
      = HTTPException 500) /\
     (forall a,
        assign_vehicles_endpoint solve vehicles leg total_goods_kg objective = Ok a ->
        assign_vehicles_for_leg solve prepared_df (leg_dict leg) total_goods_kg objective
        = Returns (Some a)) /\
     (Lp.exact solve -> vehicles <> [] ->
      0 <= in_distance leg -> in_distance leg <= 1000000 ->
      ((exists a, assign_vehicles_endpoint solve vehicles leg total_goods_kg objective
                  = Ok a)
       <-> servableb prepared_df total_goods_kg (leg_dict leg) = true))).
Proof.
  intros solve vehicles leg total objective prepared_df. split.
  - intros Nc Nt. unfold assign_vehicles_endpoint.
    apply String.eqb_neq in Nc. apply String.eqb_neq in Nt. now rewrite Nc, Nt.
  - intro Valid.
    assert (V : negb ((objective =? "cost")%string || (objective =? "time")%string)
                = false).
    { destruct Valid as [-> | ->]; reflexivity. }
    unfold assign_vehicles_endpoint. rewrite V. fold prepared_df.
    split; [intros ->; reflexivity|]. split; [|split].
    + intro R. rewrite R. now destruct vehicles.
    + intros a H. destruct vehicles as [|v vs]; [discriminate|].
      destruct (assign_vehicles_for_leg solve prepared_df (leg_dict leg) total objective)
        as [|[a'|]]; try discriminate. now inversion H.
    + intros X Hne Hd0 Hd1. destruct vehicles as [|v vs]; [now contradiction Hne|].
      destruct (servableb prepared_df total (leg_dict leg)) eqn:Sv.
      * apply servableb_spec in Sv. destruct Sv as [Ha Hc].
        destruct (@CapacityMore.capacity_gives_service solve prepared_df (leg_dict leg)
                    total objective (proj2 X) Ha Hc
                    (@FleetSchedule.prepared_fleet_schedulable_at
                       (map model_dump (v :: vs)) (leg_dict leg) _ Hd0 Hd1))
          as [a E].
        rewrite E. split; [reflexivity|]. intros _. now exists a.
      * split; [|discriminate]. intros [a H].
        destruct (assign_vehicles_for_leg solve prepared_df (leg_dict leg) total
                    objective) as [|[a'|]] eqn:E; try discriminate.
        pose proof (@CapacityMore.served_needs_capacity solve prepared_df (leg_dict leg)
                      total objective a' (proj1 X) E) as S.
        apply servableb_spec in S. congruence.
Qed.

End CapacityApiFacts.

(* ================================================================= *)
(** * Loading the fleet ([main.py], [upload_vehicles]) *)

Module FleetUpload.

Import Graph CapacityAllocator Fleet.
Open Scope Q_scope.

(** [Series.unique()]: each value once, in order of first appearance. *)
Fixpoint unique_from (seen : list string) (l : list string) : list string :=
  match l with
  | [] => []
  | a :: rest =>
      if existsb (String.eqb a) seen then unique_from seen rest
      else a :: unique_from (seen ++ [a]) rest
  end.

Definition unique (l : list string) : list string := unique_from [] l.

Record VehiclesLoaded := mkLoaded
  { vehicles_loaded : nat;
    warehouses : list string }.

(** [upload_vehicles] on a file with the four required columns and at least
    one row.  When [prepare_vehicles_df] raises, [except Exception] answers
    500 (the global [vehicles_df] then holds the frame as it was read, not a
    prepared fleet).  Otherwise the handler returns the response, and the
    prepared frame is the new value of the global [vehicles_df]. *)
Definition upload_vehicles (rows : list RawVehicle)
  : CapacityApi.Reply (DataFrame * VehiclesLoaded) :=
  match prepare_vehicles_df_call rows with
  | Raises => CapacityApi.HTTPException 500
  | Returns vehicles_df =>
      CapacityApi.Ok
        (vehicles_df,
         mkLoaded (List.length vehicles_df) (unique (map base_city vehicles_df)))
  end.

Lemma existsb_eqb a seen : existsb (String.eqb a) seen = true <-> In a seen.
Proof.
  rewrite existsb_exists. split.
  - intros [b [Hin E]]. apply String.eqb_eq in E. now subst.
  - intro H. exists a. split; [exact H|apply String.eqb_refl].
Qed.

Lemma unique_from_in seen l a :
  In a (unique_from seen l) <-> In a l /\ ~ In a seen.
Proof.
  revert seen. induction l as [|b rest IH]; intro seen; cbn [unique_from].
  - split; [intros []|intros [[] _]].
  - destruct (existsb (String.eqb b) seen) eqn:E.
    + apply existsb_eqb in E. rewrite IH. split.
      * intros [H N]. split; [now right|exact N].
      * intros [[->|H] N]; [contradiction|now split].
    + assert (Nb : ~ In b seen).
      { intro H. apply existsb_eqb in H. congruence. }
      cbn [In]. rewrite IH. split.
      * intros [->|[H N]]; [split; [now left|exact Nb]|].
        split; [now right|]. intro Hs. apply N. apply in_or_app. now left.
      * intros [[->|H] N]; [now left|].
        destruct (string_dec b a) as [->|Ne]; [now left|right].
        split; [exact H|]. intro Hs. apply in_app_or in Hs.
        destruct Hs as [Hs|[Hs|[]]]; [contradiction|congruence].
Qed.

Lemma unique_from_nodup seen l : NoDup (unique_from seen l).
Proof.
  revert seen. induction l as [|b rest IH]; intro seen; cbn [unique_from];
    [constructor|].
  destruct (existsb (String.eqb b) seen); [apply IH|].
  constructor; [|apply IH].
  rewrite unique_from_in. intros [_ N]. apply N. apply in_or_app. right. now left.
Qed.

(** X25. [upload_vehicles] on a file with at least one row.  When no cell
    of the [DepartureTime] column is a string the handler answers 500.
    Otherwise it reports as many vehicles as the file has rows and lists
    each warehouse once, as the normalised (lowercase, stripped) name of
    some row; and a capacity plan over the uploaded fleet can only be
    returned when the lowercased origin of every leg of the route is one of
    the warehouses reported. *)
Theorem plan_needs_a_reported_warehouse_at_every_origin :
  forall (rows : list RawVehicle),
    rows <> [] ->
    (Forall (fun r => DepartureTime r = None) rows ->
     upload_vehicles rows = CapacityApi.HTTPException 500) /\
    (Exists (fun r => DepartureTime r <> None) rows ->
     exists (vehicles_df : DataFrame) (response : VehiclesLoaded),
       upload_vehicles rows = CapacityApi.Ok (vehicles_df, response) /\
       prepare_vehicles_df_call rows = Returns vehicles_df /\
       vehicles_loaded response = List.length rows /\
       NoDup (warehouses response) /\
       (forall c, In c (warehouses response) <->
                  exists r, In r rows /\ c = PyStr.strip (PyStr.lower (WarehouseName r))) /\
       (forall (solve_route : Lp.LpProblem PathOptimizer.Key -> Lp.Outcome PathOptimizer.Key)
               (solve_leg : Lp.LpProblem nat -> Lp.Outcome nat)
               (nodes : Nodes) (edges : Edges) (source destination : string)
               (goods_kg : Q) (objective : string) (plan : Plan.CapacityPlan),
           Plan.optimize_with_capacity solve_route solve_leg nodes edges (Some vehicles_df)
             source destination goods_kg objective = Plan.Success plan ->
           Forall (fun leg => In (PyStr.lower (from leg)) (warehouses response))
                  (PathOptimizer.optimize solve_route nodes edges (PyStr.lower source)
                     (PyStr.lower destination) objective None))).
Proof.
  intros rows _.
  destruct (FleetFacts.departure_column_cases rows) as [Hf Ht]. split.
  { intro H. unfold upload_vehicles, prepare_vehicles_df_call.
    now rewrite (proj2 Hf H). }
  intro Hex.
  assert (Ecall : prepare_vehicles_df_call rows = Returns (prepare_vehicles_df rows)).
  { unfold prepare_vehicles_df_call. now rewrite (proj2 Ht Hex). }
  eexists. eexists. split.
  { unfold upload_vehicles. rewrite Ecall. reflexivity. }
  split; [exact Ecall|].
  pose proof (FleetFacts.prepare_from_rows [] rows) as F.
  fold (prepare_vehicles_df rows) in F.
  assert (Cities : forall c, In c (map base_city (prepare_vehicles_df rows)) <->
                             exists r, In r rows /\
                                       c = PyStr.strip (PyStr.lower (WarehouseName r))).
  { intro c. clear - F. induction F as [|r v rs vs H _ IH]; cbn [map In].
    - split; [intros []|intros [r [[] _]]].
    - destruct H as (Hb & _). rewrite IH. split.
      + intros [E|[r' [Hin E]]].
        * exists r. split; [now left|congruence].
        * exists r'. split; [now right|exact E].
      + intros [r' [[->|Hin] E]].
        * left. congruence.
        * right. now exists r'. }
  assert (Low : forall v, In v (prepare_vehicles_df rows) ->
                          PyStr.lower (base_city v) = base_city v).
  { clear - F. induction F as [|r v rs vs H _ IH]; intros w [].
    - subst w. now destruct H as (_ & _ & _ & _ & L & _).
    - now apply IH. }
  cbn [vehicles_loaded warehouses].
  split; [symmetry; exact (Forall2_length F)|].
  split; [apply unique_from_nodup|]. split.
  - intro c. unfold unique. rewrite unique_from_in. rewrite <- Cities. tauto.
  - intros solve_route solve_leg nodes edges source destination goods_kg objective
           plan H.
    destruct (PlanFacts.plan_inversion _ _ _ _ _ _ _ _ _ H)
      as (vdf' & Ev & _ & Ha & _).
    inversion Ev; subst vdf'. clear Ev.
    destruct (PlanFacts.assign_legs_spec _ _ _ _ _ _ _ Ha) as (new & _ & FA & _).
    clear - FA Low. induction FA as [|leg a ls as_ Hleg _ IH]; constructor;
      [|exact IH].
    destruct (CapacityFacts.assignment_inversion _ _ _ _ _ Hleg) as (x & Hne & _).
    destruct (available_at (prepare_vehicles_df rows) (PyStr.lower (from leg)))
      as [|[i v] rest] eqn:E; [now contradiction Hne|].
    assert (Hin : In (i, v) (available_at (prepare_vehicles_df rows)
                               (PyStr.lower (from leg)))).
    { rewrite E. now left. }
    assert (Hv : In v (prepare_vehicles_df rows)).
    { apply (@CapacityMore.subsequence_in _
               (map snd (available_at (prepare_vehicles_df rows)
                           (PyStr.lower (from leg)))) _ v
               (CapacityMore.available_subsequence _ _)).
      change v with (snd (i, v)). now apply in_map. }
    unfold available_at in Hin. apply filter_In in Hin. destruct Hin as [_ Hc].
    cbn [snd] in Hc. apply String.eqb_eq in Hc. rewrite (Low v Hv) in Hc.
    unfold unique. rewrite unique_from_in. split; [|intros []].
    rewrite <- Hc. now apply in_map.
Qed.

End FleetUpload.

(* ================================================================= *)
(** * The further facts at the worked examples *)

Module MoreExamples.

Import Graph CapacityAllocator.
Open Scope Q_scope.

(** ** Upload *)

Lemma flat_distance_nonneg : forall a b c d, 0 <= UploadExamples.flat_distance a b c d.
Proof. intros a b c d. discriminate. Qed.

Lemma uploaded_weights_are_nonnegative_at_one_road_row :
  0 <= distance (Upload.road_edge UploadExamples.flat_distance "US" UploadExamples.row_ab) /\
  0 <= time (Upload.road_edge UploadExamples.flat_distance "US" UploadExamples.row_ab) /\
  0 <= fuel (Upload.road_edge UploadExamples.flat_distance "US" UploadExamples.row_ab).
Proof.
  destruct (@UploadMore.uploaded_weights_are_nonnegative
              UploadExamples.flat_distance "US"%string flat_distance_nonneg
              [] [UploadExamples.row_ab]
              (Upload.road_edge UploadExamples.flat_distance "US" UploadExamples.row_ab))
    as (Hd & Ht & Hf & _).
  - left. reflexivity.
  - split; [exact Hd|]. split; [exact Ht|exact Hf].
Defined.

Lemma air_is_never_slower_nor_cheaper_than_road_at_row_ab :
  time (Upload.air_edge UploadExamples.flat_distance "US" UploadExamples.row_ab)
  <= time (Upload.road_edge UploadExamples.flat_distance "US" UploadExamples.row_ab) /\
  fuel (Upload.road_edge UploadExamples.flat_distance "US" UploadExamples.row_ab)
  <= fuel (Upload.air_edge UploadExamples.flat_distance "US" UploadExamples.row_ab).
Proof.
  destruct (@MetricsMore.air_is_never_slower_nor_cheaper_than_road
              UploadExamples.flat_distance "US"%string UploadExamples.row_ab)
    as (Ht & Hf & _).
  - apply flat_distance_nonneg.
  - split; [exact Ht|exact Hf].
Defined.

(** ** Routes *)

Lemma abc_edges_wf : Dict.wf PathExamples.abc_edges.
Proof.
  unfold Dict.wf, Dict.keys, PathExamples.abc_edges, PathExamples.link. cbn [map fst].
  repeat constructor; cbn [In]; intuition discriminate.
Qed.

Lemma abc_route_found :
  PathOptimizer.optimize PathExamples.reference_route_solve PathExamples.abc_nodes
    PathExamples.abc_edges "a" "c" "cost" None <> [].
Proof. vm_compute. discriminate. Qed.

Lemma returned_route_conserves_flow_at_abc :
  PathMore.route_outflow
    (PathOptimizer.optimize PathExamples.reference_route_solve PathExamples.abc_nodes
       PathExamples.abc_edges "a" "c" "cost" None) "a"
  = S (PathOptimizer.route_inflow
         (PathOptimizer.optimize PathExamples.reference_route_solve PathExamples.abc_nodes
            PathExamples.abc_edges "a" "c" "cost" None) "a").
Proof.
  apply (@PathMore.returned_route_conserves_flow PathExamples.reference_route_solve
           (proj1 PathExamples.reference_route_solve_exact)
           PathExamples.abc_nodes PathExamples.abc_edges "a"%string "c"%string
           "cost"%string None PathExamples.abc_keyed abc_route_found "a"%string).
  left. reflexivity.
Defined.

Lemma route_to_itself_is_empty_at_abc :
  PathOptimizer.optimize PathExamples.reference_route_solve PathExamples.abc_nodes
    PathExamples.abc_edges "a" "a" "cost" None = [].
Proof.
  apply (@PathMore.route_to_itself_is_empty PathExamples.reference_route_solve
           (proj1 PathExamples.reference_route_solve_exact)
           PathExamples.abc_nodes PathExamples.abc_edges "a"%string "cost"%string None
           PathExamples.abc_closed PathExamples.abc_nodes_wf).
  reflexivity.
Defined.

Lemma returned_route_is_cheapest_at_abc :
  OptimalityMore.route_weight "cost"
    (PathOptimizer.optimize PathExamples.reference_route_solve PathExamples.abc_nodes
       PathExamples.abc_edges "a" "c" "cost" None)
  <= 200.
Proof.
  apply (proj2 (@OptimalityMore.returned_route_is_cheapest
                  PathExamples.reference_route_solve
                  (proj1 PathExamples.reference_route_solve_exact)
                  PathExamples.abc_nodes PathExamples.abc_edges "a"%string "c"%string
                  "cost"%string None abc_route_found)
               (snd (PathExamples.link "a" "c" air 300 1 200))).
  - exact abc_edges_wf.
  - right. right. left. reflexivity.
  - discriminate.
  - reflexivity.
Defined.

(** ** The fleet *)

Definition three_rows : list Fleet.RawVehicle :=
  [Fleet.mkRaw " New York" "Truck" 500 (Some " 08:00 "%string);
   Fleet.mkRaw "Boston" "van" 300 None;
   Fleet.mkRaw "new york" "e-bike" 20 (Some "9:30"%string)].

Lemma three_rows_not_empty : three_rows <> [].
Proof. discriminate. Qed.

Lemma three_rows_have_a_departure :
  Exists (fun r => Fleet.DepartureTime r <> None) three_rows.
Proof. apply Exists_cons_hd. discriminate. Qed.

(** A file whose [DepartureTime] column is empty. *)
Definition no_departures : list Fleet.RawVehicle :=
  [Fleet.mkRaw "Boston" "van" 300 None; Fleet.mkRaw "Boston" "cart" 40 None].


Lemma plan_needs_a_reported_warehouse_at_every_origin_at_three_rows :
  (exists (vehicles_df : DataFrame) (response : FleetUpload.VehiclesLoaded),
     FleetUpload.upload_vehicles three_rows = CapacityApi.Ok (vehicles_df, response) /\
     FleetUpload.vehicles_loaded response = 3%nat /\
     FleetUpload.warehouses response = ["new york"; "boston"]%string /\
     NoDup (FleetUpload.warehouses response)) /\
  FleetUpload.upload_vehicles no_departures = CapacityApi.HTTPException 500.
Proof.
  split.
  - destruct (proj2 (@FleetUpload.plan_needs_a_reported_warehouse_at_every_origin
                       three_rows three_rows_not_empty) three_rows_have_a_departure)
      as (df & response & Hup & _ & Hn & Hd & _).
    exists df, response. split; [exact Hup|]. split; [exact Hn|].
    split; [|exact Hd].
    vm_compute in Hup. injection Hup as _ <-. reflexivity.
  - apply (proj1 (@FleetUpload.plan_needs_a_reported_warehouse_at_every_origin
                    no_departures ltac:(discriminate))).
    repeat constructor.
Defined.

(** ** The allocator *)

(** The assignment of 1000 kg over the leg from "a" to "b". *)
Definition worked_assignment : Assignment :=
  mkAssignment "a" "b"
    (map (entry_of CapacityExamples.leg_ab)
       (walk_loads (fun _ => 1)
          [(0%nat, CapacityExamples.truck1); (1%nat, CapacityExamples.truck2)] 1000))
    100 2
    (option_map PyTime.strftime_HM
       (latest (CapacityFacts.arrivals CapacityExamples.leg_ab
          (walk_loads (fun _ => 1)
             [(0%nat, CapacityExamples.truck1); (1%nat, CapacityExamples.truck2)] 1000)))).

Lemma worked_leg_assigned :
  assign_vehicles_for_leg CapacityExamples.reference_leg_solve CapacityExamples.pool
    CapacityExamples.leg_ab 1000 "cost" = Returns (Some worked_assignment).
Proof.
  exact (CapacityExamples.full_load_assignment CapacityExamples.reference_leg_solve_exact).
Qed.

Lemma listed_vehicles_follow_the_frame_at_worked_leg :
  exists listed : list Vehicle,
    CapacityMore.Subsequence listed CapacityExamples.pool /\
    map a_vehicle_id (vehicles worked_assignment) = map vehicle_id listed.
Proof.
  destruct (@CapacityMore.listed_vehicles_follow_the_frame
              CapacityExamples.reference_leg_solve CapacityExamples.pool
              CapacityExamples.leg_ab 1000 "cost"%string worked_assignment
              worked_leg_assigned)
    as (x & listed & _ & Hs & Hi & _).
  exists listed. split; [exact Hs|exact Hi].
Defined.

Lemma cargo_fills_vehicles_in_order_at_worked_leg :
  exists x : nat -> Q,
    vehicles worked_assignment
    = map (entry_of CapacityExamples.leg_ab)
        (walk_loads x
           (available_at CapacityExamples.pool (PyStr.lower (from CapacityExamples.leg_ab)))
           1000).
Proof.
  destruct (@CapacityMore.cargo_fills_vehicles_in_order
              CapacityExamples.reference_leg_solve CapacityExamples.pool
              CapacityExamples.leg_ab 1000 "cost"%string worked_assignment
              worked_leg_assigned)
    as (x & Hv & _).
  exists x. exact Hv.
Defined.

Lemma leg_is_served_iff_capacity_suffices_at_worked_leg :
  (exists a,
      assign_vehicles_for_leg CapacityExamples.reference_leg_solve CapacityExamples.pool
        CapacityExamples.leg_ab 1000 "cost" = Returns (Some a))
  <->
  (available_at CapacityExamples.pool (PyStr.lower (from CapacityExamples.leg_ab)) <> [] /\
   1000 <= CapacityMore.usable_capacity
             (available_at CapacityExamples.pool
                (PyStr.lower (from CapacityExamples.leg_ab)))).
Proof.
  exact (@CapacityMore.leg_is_served_iff_capacity_suffices
           CapacityExamples.reference_leg_solve CapacityExamples.reference_leg_solve_exact
           CapacityExamples.pool CapacityExamples.leg_ab 1000 "cost"%string
           CapacityExamples.pool_schedulable).
Defined.

Lemma worked_leg_coefficients :
  Forall (fun iv => 0 <= objective_coefficient "cost" CapacityExamples.leg_ab (snd iv))
         (available_at CapacityExamples.pool (PyStr.lower (from CapacityExamples.leg_ab))).
Proof.
  rewrite CapacityExamples.pool_available. repeat constructor; discriminate.
Qed.

Lemma listed_vehicles_are_a_cheapest_cover_at_worked_leg :
  exists x : nat -> Q,
    vehicles worked_assignment
    = map (entry_of CapacityExamples.leg_ab)
        (walk_loads x
           (available_at CapacityExamples.pool (PyStr.lower (from CapacityExamples.leg_ab)))
           1000).
Proof.
  destruct (@CapacityMore.listed_vehicles_are_a_cheapest_cover
              CapacityExamples.reference_leg_solve
              (proj1 CapacityExamples.reference_leg_solve_exact)
              CapacityExamples.pool CapacityExamples.leg_ab 1000 "cost"%string
              worked_assignment worked_leg_assigned worked_leg_coefficients)
    as (x & Hv & _).
  exists x. exact Hv.
Defined.

Lemma no_vehicle_is_listed_iff_no_cargo_at_worked_leg :
  vehicles worked_assignment = [] <-> 1000 <= 0.
Proof.
  exact (proj1 (@CapacityMore.no_vehicle_is_listed_iff_no_cargo
                  CapacityExamples.reference_leg_solve
                  (proj1 CapacityExamples.reference_leg_solve_exact)
                  CapacityExamples.pool CapacityExamples.leg_ab 1000 "cost"%string
                  worked_assignment worked_leg_assigned)).
Defined.

Lemma reported_departure_reads_back_at_worked_leg :
  exists x : nat -> Q,
    Forall2
      (fun (e : AssignedVehicle) (vl : Vehicle * Q) =>
         PyTime.strptime_HM (departure e) = Some (departure_of (fst vl)))
      (vehicles worked_assignment)
      (walk_loads x
         (available_at CapacityExamples.pool (PyStr.lower (from CapacityExamples.leg_ab)))
         1000).
Proof.
  destruct (@ScheduleMore.reported_departure_reads_back
              CapacityExamples.reference_leg_solve CapacityExamples.pool
              CapacityExamples.leg_ab 1000 "cost"%string worked_assignment
              worked_leg_assigned) as (x & F).
  exists x. cbv zeta in F.
  induction F as [|e vl es vls [H _] _ IH]; constructor; [exact H|exact IH].
Defined.

(** The same leg with the fleet prepared from raw rows. *)
Definition two_rows : list Fleet.RawVehicle :=
  [Fleet.mkRaw "A" "truck" 500 (Some "08:00"%string);
   Fleet.mkRaw " a" "Truck" 800 (Some "23:00"%string)].

Lemma prepared_leg_assigned :
  exists a,
    assign_vehicles_for_leg CapacityExamples.reference_leg_solve
      (Fleet.prepare_vehicles_df two_rows) CapacityExamples.leg_ab 1000 "cost"
    = Returns (Some a).
Proof. vm_compute. eexists. reflexivity. Qed.

Lemma prepared_vehicles_do_not_arrive_before_they_leave_at_two_rows :
  exists (a : Assignment) (x : nat -> Q),
    assign_vehicles_for_leg CapacityExamples.reference_leg_solve
      (Fleet.prepare_vehicles_df two_rows) CapacityExamples.leg_ab 1000 "cost"
    = Returns (Some a) /\
    Forall2
      (fun (e : AssignedVehicle) (vl : Vehicle * Q) =>
         (departure_of (fst vl) <= arrival_of CapacityExamples.leg_ab (fst vl))%Z)
      (vehicles a)
      (walk_loads x
         (available_at (Fleet.prepare_vehicles_df two_rows)
            (PyStr.lower (from CapacityExamples.leg_ab))) 1000).
Proof.
  destruct prepared_leg_assigned as [a Ha].
  assert (D : 0 <= distance CapacityExamples.leg_ab) by discriminate.
  destruct (@ScheduleMore.prepared_vehicles_do_not_arrive_before_they_leave
              CapacityExamples.reference_leg_solve two_rows CapacityExamples.leg_ab
              1000 "cost"%string a D Ha) as (x & F).
  exists a, x. split; [exact Ha|]. cbv zeta in F.
  induction F as [|e vl es vls (_ & H & _) _ IH]; constructor; [exact H|exact IH].
Defined.

(** ** The plan and the route endpoint *)

Lemma cab_schedulable :
  Forall (PlanMore.schedulable PlanExamples.fleet)
    (PathOptimizer.optimize PlanExamples.reference_route_solver PlanExamples.cab_nodes
       PlanExamples.cab_edges (PyStr.lower "c") (PyStr.lower "b") "cost" None).
Proof.
  change (PyStr.lower "c") with "c"%string. change (PyStr.lower "b") with "b"%string.
  rewrite (PlanExamples.cab_route PlanExamples.reference_route_solver_exact).
  repeat constructor.
Qed.

Lemma plan_is_returned_iff_every_leg_is_servable_at_cab :
  Forall (PlanMore.servable PlanExamples.fleet 600)
    (PathOptimizer.optimize PlanExamples.reference_route_solver PlanExamples.cab_nodes
       PlanExamples.cab_edges (PyStr.lower "c") (PyStr.lower "b") "cost" None).
Proof.
  destruct (proj1 (proj1 (@PlanMore.plan_is_returned_iff_every_leg_is_servable
                            PlanExamples.reference_route_solver
                            PlanExamples.reference_leg_solver
                            PlanExamples.reference_leg_solver_exact
                            PlanExamples.cab_nodes PlanExamples.cab_edges
                            PlanExamples.fleet "c"%string "b"%string 600 "cost"%string
                            cab_schedulable))
              (ex_intro _ PlanExamples.cab_plan
                 (PlanExamples.cab_plan_built PlanExamples.reference_route_solver_exact
                    PlanExamples.reference_leg_solver_exact)))
    as (_ & _ & _ & _ & F).
  exact F.
Defined.

Lemma one_road_route_found :
  exists route summary,
    RouteApi.get_optimize PathExamples.reference_route_solve
      (fst (Upload.upload UploadExamples.flat_distance "US" [] [UploadExamples.row_ab]))
      (snd (Upload.upload UploadExamples.flat_distance "US" [] [UploadExamples.row_ab]))
      "a" "b" "cost" = RouteApi.Found route summary.
Proof. vm_compute. eexists. eexists. reflexivity. Qed.

Lemma route_summary_totals_are_exact_at_one_road_row :
  exists route summary,
    RouteApi.get_optimize PathExamples.reference_route_solve
      (fst (Upload.upload UploadExamples.flat_distance "US" [] [UploadExamples.row_ab]))
      (snd (Upload.upload UploadExamples.flat_distance "US" [] [UploadExamples.row_ab]))
      "a" "b" "cost" = RouteApi.Found route summary /\
    route <> [] /\
    RouteApi.total_distance summary == PyNum.Qsum (map distance route).
Proof.
  destruct one_road_route_found as (route & summary & H).
  destruct (@RouteApiFacts.route_summary_totals_are_exact
              UploadExamples.flat_distance "US"%string
              PathExamples.reference_route_solve [] [UploadExamples.row_ab]
              "a"%string "b"%string "cost"%string route summary H)
    as (Hne & _ & Hd & _).
  exists route, summary. split; [exact H|]. split; [exact Hne|exact Hd].
Defined.

End MoreExamples.
